(** * FakeNewsVerificaTon: ingestion and normalisation pipeline

    A shallow embedding of the request rate limiter, the caption and audio
    extractors, the subtitle parser, the analysis pipeline and the
    [/api/check] route, with the properties the specification states about
    them; then the anti-bot check, the subscription endpoint and the earlier
    [/api/analyze] endpoint, and further properties of all of these.

    JavaScript strings are sequences of UTF-16 code units, so [length],
    [slice], [split] and [includes] below count code units exactly as the
    source does.  Calls that leave the process (the distributed counter, the
    caption source, the transcription service, the analysis model) are
    arguments of the functions that make them: a call either returns a value
    or throws. *)

From Stdlib Require Import ZArith NArith Lia PrimFloat.
From stdpp Require Import gmap list strings pretty.
From Equations Require Import Equations.

Local Open Scope Z_scope.

(** ** JavaScript strings

    A string is the list of its UTF-16 code units, each an [N].  String
    literals of the source are written as UTF-8 text and read into code
    units by [lit]. *)
Module Unicode.
Local Open Scope N_scope.

Definition cont (b : N) : N := N.land b 0x3F.

(** UTF-8 bytes to code points; a malformed byte reads as U+FFFD. *)
Fixpoint utf8_decode (bs : list N) : list N :=
  match bs with
  | [] => []
  | b :: r =>
    if b <? 0x80 then b :: utf8_decode r
    else if (0xC0 <=? b) && (b <? 0xE0) then
      match r with
      | b1 :: r1 => (N.shiftl (N.land b 0x1F) 6 + cont b1) :: utf8_decode r1
      | [] => [0xFFFD]
      end
    else if (0xE0 <=? b) && (b <? 0xF0) then
      match r with
      | b1 :: b2 :: r2 =>
        (N.shiftl (N.land b 0x0F) 12 + N.shiftl (cont b1) 6 + cont b2) :: utf8_decode r2
      | _ => [0xFFFD]
      end
    else if (0xF0 <=? b) && (b <? 0xF8) then
      match r with
      | b1 :: b2 :: b3 :: r3 =>
        (N.shiftl (N.land b 0x07) 18 + N.shiftl (cont b1) 12
         + N.shiftl (cont b2) 6 + cont b3) :: utf8_decode r3
      | _ => [0xFFFD]
      end
    else 0xFFFD :: utf8_decode r
  end.

(** A code point as one code unit or a surrogate pair. *)
Definition utf16_units (cp : N) : list N :=
  if cp <? 0x10000 then [cp]
  else let c := cp - 0x10000 in [0xD800 + N.shiftr c 10; 0xDC00 + N.land c 0x3FF].

Definition is_high (u : N) : bool := (0xD800 <=? u) && (u <? 0xDC00).
Definition is_low (u : N) : bool := (0xDC00 <=? u) && (u <? 0xE000).

Definition utf8_bytes (cp : N) : list N :=
  if cp <? 0x80 then [cp]
  else if cp <? 0x800 then [0xC0 + N.shiftr cp 6; 0x80 + N.land cp 0x3F]
  else if cp <? 0x10000 then
    [0xE0 + N.shiftr cp 12; 0x80 + N.land (N.shiftr cp 6) 0x3F; 0x80 + N.land cp 0x3F]
  else
    [0xF0 + N.shiftr cp 18; 0x80 + N.land (N.shiftr cp 12) 0x3F;
     0x80 + N.land (N.shiftr cp 6) 0x3F; 0x80 + N.land cp 0x3F].

(** The bytes Node hashes for a string ([Buffer.from(s, 'utf8')]): surrogate
    pairs are joined, a lone surrogate becomes U+FFFD. *)
Fixpoint utf8_of_units (us : list N) : list N :=
  match us with
  | [] => []
  | u :: r =>
    if is_high u then
      match r with
      | l :: r1 =>
        if is_low l then
          utf8_bytes (0x10000 + N.shiftl (u - 0xD800) 10 + (l - 0xDC00)) ++ utf8_of_units r1
        else utf8_bytes 0xFFFD ++ utf8_of_units r
      | [] => utf8_bytes 0xFFFD
      end
    else if is_low u then utf8_bytes 0xFFFD ++ utf8_of_units r
    else utf8_bytes u ++ utf8_of_units r
  end.

End Unicode.

Definition lit (s : string) : list N :=
  concat (map Unicode.utf16_units
            (Unicode.utf8_decode (map Ascii.N_of_ascii (String.list_ascii_of_string s)))).

(** The string operations the sources use. *)
Module JS.
Local Open Scope N_scope.

(** [\s] of a regular expression, which is also what [trim] removes. *)
Definition isWhiteSpace (c : N) : bool :=
  ((9 <=? c) && (c <=? 13)) || (c =? 32) || (c =? 0xA0) || (c =? 0x1680)
  || ((0x2000 <=? c) && (c <=? 0x200A)) || (c =? 0x2028) || (c =? 0x2029)
  || (c =? 0x202F) || (c =? 0x205F) || (c =? 0x3000) || (c =? 0xFEFF).

Fixpoint trimStart (s : list N) : list N :=
  match s with
  | c :: r => if isWhiteSpace c then trimStart r else s
  | [] => []
  end.

Definition trimEnd (s : list N) : list N := rev (trimStart (rev s)).
Definition trim (s : list N) : list N := trimEnd (trimStart s).

Fixpoint startsWith (p s : list N) : bool :=
  match p, s with
  | [], _ => true
  | a :: p', b :: s' => (a =? b) && startsWith p' s'
  | _ :: _, [] => false
  end.

Definition endsWith (p s : list N) : bool := startsWith (rev p) (rev s).

Fixpoint includes (p s : list N) : bool :=
  startsWith p s || match s with [] => false | _ :: r => includes p r end.

(** [s.split(sep)] for a non-empty separator string.  [skip] counts the code
    units of a separator still to pass over, [cur] holds the piece being
    read, latest unit first. *)
Fixpoint split_go (sep : list N) (skip : nat) (cur s : list N) : list (list N) :=
  match s with
  | [] => [rev cur]
  | c :: r =>
    match skip with
    | S k => split_go sep k cur r
    | O =>
      if startsWith sep s then rev cur :: split_go sep (length sep - 1) [] r
      else split_go sep 0 (c :: cur) r
    end
  end.

Definition split (sep s : list N) : list (list N) := split_go sep 0 [] s.

Fixpoint join (sep : list N) (xs : list (list N)) : list N :=
  match xs with
  | [] => []
  | [x] => x
  | x :: r => x ++ sep ++ join sep r
  end.

(** [s.replace(/pat/g, rep)] for a pattern that is a fixed non-empty text. *)
Fixpoint replaceAll_go (pat rep : list N) (skip : nat) (s : list N) : list N :=
  match s with
  | [] => []
  | c :: r =>
    match skip with
    | S k => replaceAll_go pat rep k r
    | O =>
      if startsWith pat s then rep ++ replaceAll_go pat rep (length pat - 1) r
      else c :: replaceAll_go pat rep 0 r
    end
  end.

Definition replaceAll (pat rep s : list N) : list N := replaceAll_go pat rep 0 s.

(** [s.replace(/\s+/g, ' ')]: every maximal run of white space becomes one
    space. *)
Fixpoint collapse_go (in_run : bool) (s : list N) : list N :=
  match s with
  | [] => []
  | c :: r =>
    if isWhiteSpace c then (if in_run then collapse_go true r else 32 :: collapse_go true r)
    else c :: collapse_go false r
  end.

Definition collapseWhiteSpace (s : list N) : list N := collapse_go false s.

(** [s.slice(a, b)] for [0 <= a]. *)
Definition slice (a b : Z) (s : list N) : list N :=
  take (Z.to_nat b - Z.to_nat a) (drop (Z.to_nat a) s).

(** The longest prefix free of the code unit [d] (what [[^d]*] matches). *)
Fixpoint upTo (d : N) (s : list N) : list N :=
  match s with
  | c :: r => if c =? d then [] else c :: upTo d r
  | [] => []
  end.

End JS.

(** ** SHA-256 (FIPS 180-4), as [crypto.createHash('sha256')] computes it *)
Module SHA256.
Local Open Scope N_scope.

Definition w32 (x : N) : N := x mod 0x100000000.
Definition add32 (x y : N) : N := w32 (x + y).
Definition rotr (n x : N) : N := N.lor (N.shiftr x n) (w32 (N.shiftl x (32 - n))).
Definition not32 (x : N) : N := N.lxor x 0xFFFFFFFF.

Definition Ch (x y z : N) : N := N.lxor (N.land x y) (N.land (not32 x) z).
Definition Maj (x y z : N) : N := N.lxor (N.lxor (N.land x y) (N.land x z)) (N.land y z).
Definition bsig0 (x : N) : N := N.lxor (N.lxor (rotr 2 x) (rotr 13 x)) (rotr 22 x).
Definition bsig1 (x : N) : N := N.lxor (N.lxor (rotr 6 x) (rotr 11 x)) (rotr 25 x).
Definition ssig0 (x : N) : N := N.lxor (N.lxor (rotr 7 x) (rotr 18 x)) (N.shiftr x 3).
Definition ssig1 (x : N) : N := N.lxor (N.lxor (rotr 17 x) (rotr 19 x)) (N.shiftr x 10).

(** The constants are defined as FIPS 180-4 defines them: the first 32 bits
    of the fractional parts of the cube roots (for [K]) and of the square
    roots (for [H0]) of the first primes. *)
Definition is_prime (n : N) : bool :=
  (1 <? n) && forallb (fun d => negb (n mod d =? 0)) (map N.of_nat (seq 2 (N.to_nat n - 2))).

Definition primes : list N := filter (fun n => is_prime n = true) (map N.of_nat (seq 2 310)).

(** The integer cube root of [x], found bit by bit from bit [bit] down. *)
Fixpoint icbrt (bit : nat) (x r : N) : N :=
  let c := N.lor r (N.shiftl 1 (N.of_nat bit)) in
  let r := if c * c * c <=? x then c else r in
  match bit with
  | O => r
  | S b => icbrt b x r
  end.

Definition K : list N := map (fun p => w32 (icbrt 40 (N.shiftl p 96) 0)) primes.

Definition H0 : list N := map (fun p => w32 (N.sqrt (N.shiftl p 64))) (take 8 primes).

(** Big-endian bytes of [x], [n] of them. *)
Fixpoint be_bytes (n : nat) (x : N) : list N :=
  match n with
  | O => []
  | S k => be_bytes k (N.shiftr x 8) ++ [N.land x 0xFF]
  end.

(** The message, a 1 bit, zeros up to 56 mod 64 bytes, and the bit length. *)
Definition pad (msg : list N) : list N :=
  let len := N.of_nat (length msg) in
  let zeros := N.to_nat ((119 - len mod 64) mod 64) in
  msg ++ [0x80] ++ replicate zeros 0 ++ be_bytes 8 (8 * len).

Fixpoint words (fuel : nat) (bs : list N) : list N :=
  match fuel, bs with
  | S f, a :: b :: c :: d :: r =>
    (N.shiftl a 24 + N.shiftl b 16 + N.shiftl c 8 + d) :: words f r
  | _, _ => []
  end.

(** [schedule n w] appends [n] further words to the reversed schedule [w]
    (latest word first). *)
Fixpoint schedule (n : nat) (w : list N) : list N :=
  match n with
  | O => w
  | S k =>
    let at_ i := nth i w 0 in
    schedule k (add32 (add32 (ssig1 (at_ 1%nat)) (at_ 6%nat))
                      (add32 (ssig0 (at_ 14%nat)) (at_ 15%nat)) :: w)
  end.

Definition round (st : list N) (kw : N * N) : list N :=
  match st with
  | [a; b; c; d; e; f; g; h] =>
    let t1 := add32 (add32 (add32 h (bsig1 e)) (add32 (Ch e f g) kw.1)) kw.2 in
    let t2 := add32 (bsig0 a) (Maj a b c) in
    [add32 t1 t2; a; b; c; add32 d t1; e; f; g]
  | _ => st
  end.

Definition compress (h : list N) (block : list N) : list N :=
  let w := rev (schedule 48 (rev (words 16 block))) in
  zip_with add32 h (fold_left round (zip K w) h).

Fixpoint blocks (fuel : nat) (h : list N) (bs : list N) : list N :=
  match fuel with
  | O => h
  | S f =>
    match bs with
    | [] => h
    | _ => blocks f (compress h (take 64 bs)) (drop 64 bs)
    end
  end.

Definition digest (msg : list N) : list N :=
  let p := pad msg in
  concat (map (be_bytes 4) (blocks (length p) H0 p)).

Definition hex_digit (d : N) : N := if d <? 10 then 48 + d else 87 + d.

(** [digest('hex')]: two lower-case digits per byte. *)
Definition to_hex (bs : list N) : list N :=
  concat (map (fun b => [hex_digit (N.shiftr b 4); hex_digit (N.land b 0xF)]) bs).

(** [createHash('sha256').update(s).digest('hex')] for a string [s]. *)
Definition hex_of_string (s : list N) : list N :=
  to_hex (digest (Unicode.utf8_of_units s)).

End SHA256.

(** What an awaited call produces: a value, or a thrown error with its
    [message]. *)
Inductive outcome (A : Type) : Type :=
| Returned (a : A)
| Thrown (message : list N).
Arguments Returned {A} a.
Arguments Thrown {A} message.

(** ** Rate limiter (src/unnamed/part_001, lib/rateLimitUpstash) *)

Module RateLimit.

Definition windowMs : Z := 60000.
Definition maxRequests : Z := 10.

Record RateLimitDecision := { allowed : bool; remaining : Z }.

(** [now - t < windowMs], the predicate of both [filter] calls. *)
Definition fresh (now t : Z) : Prop := now - t < windowMs.
#[global] Instance fresh_dec now t : Decision (fresh now t).
Proof. unfold fresh. apply _. Defined.

Definition purge (now : Z) (timestamps : list Z) : list Z :=
  filter (fresh now) timestamps.

(** The [setInterval] callback, run at time [now]. *)
Definition sweep (now : Z) (hits : gmap (list N) (list Z)) : gmap (list N) (list Z) :=
  omap (fun timestamps =>
          let valid := purge now timestamps in
          if decide (length valid = 0%nat) then None else Some valid) hits.

Definition inMemoryCheck (now : Z) (ip : list N) (hits : gmap (list N) (list Z))
  : RateLimitDecision * gmap (list N) (list Z) :=
  let timestamps := purge now (default [] (hits !! ip)) in
  if decide (maxRequests <= Z.of_nat (length timestamps)) then
    ({| allowed := false; remaining := 0 |}, <[ip := timestamps]> hits)
  else
    let timestamps := timestamps ++ [now] in
    ({| allowed := true; remaining := maxRequests - Z.of_nat (length timestamps) |},
     <[ip := timestamps]> hits).

(** The timestamps held for [ip], as [hits.get(ip) || []] reads them. *)
Definition stored (ip : list N) (h : gmap (list N) (list Z)) : list Z :=
  default [] (h !! ip).

(** A run of the in-memory limiter: checks by callers and turns of the
    background sweep, each at the clock reading it saw. *)
Inductive Event :=
| Check (now : Z) (ip : list N)
| Sweep (now : Z).

Definition time (e : Event) : Z :=
  match e with
  | Check now _ => now
  | Sweep now => now
  end.

(** The clock never runs backwards over the run, and starts at [lo] or
    later. *)
Fixpoint chronological (lo : Z) (es : list Event) : Prop :=
  match es with
  | [] => True
  | e :: r => lo <= time e /\ chronological (time e) r
  end.

(** The clock readings of the checks of [ip] that a run allows. *)
Fixpoint allowedTimes (ip : list N) (es : list Event) (h : gmap (list N) (list Z))
  : list Z :=
  match es with
  | [] => []
  | Check now ip' :: r =>
    let (d, h') := inMemoryCheck now ip' h in
    (if bool_decide (ip' = ip) && allowed d then [now] else []) ++ allowedTimes ip r h'
  | Sweep now :: r => allowedTimes ip r (sweep now h)
  end.

(** The trailing window that ends at [T]. *)
Definition inWindow (T t : Z) : Prop := t <= T /\ T - t < windowMs.
#[global] Instance inWindow_dec T t : Decision (inWindow T t).
Proof. unfold inWindow. apply _. Defined.

(** How many of the readings [l] lie in the window that ends at [T]. *)
Definition count (T : Z) (l : list Z) : nat := length (filter (inWindow T) l).

(** The decisions of [n] consecutive allowed checks that start with [k]
    timestamps stored. *)
Fixpoint grants (k n : nat) : list RateLimitDecision :=
  match n with
  | O => []
  | S n' =>
    {| allowed := true; remaining := maxRequests - Z.of_nat (S k) |} :: grants (S k) n'
  end.

(** Successive checks of one caller at the clock readings [ts]. *)
Fixpoint checks (ip : list N) (ts : list Z) (h : gmap (list N) (list Z))
  : list RateLimitDecision * gmap (list N) (list Z) :=
  match ts with
  | [] => ([], h)
  | t :: r =>
    let (d, h') := inMemoryCheck t ip h in
    let (ds, h'') := checks ip r h' in
    (d :: ds, h'')
  end.

(** The distributed counter as this process sees it: the two configuration
    values read at start-up, the dynamic imports with the client's
    construction, and one [limit] call. *)
Record UpstashResult := { success : bool; up_remaining : Z; reset : Z }.

Record Upstash := {
  UPSTASH_URL : list N;
  UPSTASH_TOKEN : list N;
  import_client : outcome unit;
  limit : list N -> outcome UpstashResult;
}.

(** Module state: whether [rateLimiter] holds a client, and the [hits] map. *)
Record State := { rateLimiter : bool; hits : gmap (list N) (list Z) }.

(** [getUpstashLimiter]: [Returned true] stands for the client,
    [Returned false] for [null]. *)
Definition getUpstashLimiter (up : Upstash) (st : State) : outcome bool * State :=
  if rateLimiter st then (Returned true, st)
  else if bool_decide (UPSTASH_URL up = []) || bool_decide (UPSTASH_TOKEN up = []) then
    (Returned false, st)
  else
    match import_client up with
    | Thrown e => (Thrown e, st)
    | Returned _ => (Returned true, {| rateLimiter := true; hits := hits st |})
    end.

Definition checkRateLimitAsync (up : Upstash) (now : Z) (identifier : list N) (st : State)
  : outcome RateLimitDecision * State :=
  match getUpstashLimiter up st with
  | (Thrown e, st) => (Thrown e, st)
  | (Returned true, st) =>
    match limit up identifier with
    | Thrown e => (Thrown e, st)
    | Returned result =>
      (Returned {| allowed := success result; remaining := up_remaining result |}, st)
    end
  | (Returned false, st) =>
    let (d, h) := inMemoryCheck now identifier (hits st) in
    (Returned d, {| rateLimiter := rateLimiter st; hits := h |})
  end.

(** The distributed strategy is in use: a client is cached, or both
    configuration values are present. *)
Definition usesBackend (up : Upstash) (st : State) : Prop :=
  rateLimiter st = true \/ (UPSTASH_URL up <> [] /\ UPSTASH_TOKEN up <> []).

(** The calls to the backend that one check makes all succeed. *)
Definition backendAnswers (up : Upstash) (st : State) (identifier : list N) : Prop :=
  (rateLimiter st = false -> exists u, import_client up = Returned u)
  /\ exists result, limit up identifier = Returned result.

(** The deprecated synchronous entry point. *)
Definition checkRateLimit (now : Z) (ip : list N) (h : gmap (list N) (list Z)) :=
  inMemoryCheck now ip h.

End RateLimit.

(** ** Subtitle parsing and the transcription client
       (src/lib/services/extractor.audio.ts) *)

Module Audio.

Definition MAX_POLL_ATTEMPTS : nat := 60.
Definition POLL_INTERVAL_MS : Z := 3000.

Record SrtSegment := {
  index : list N;
  start : list N;
  end_ : list N;
  text : list N;
  instrumental : bool;
}.

Record AudioExtractionResult := {
  ok : bool;
  res_text : option (list N);
  segments : option (list SrtSegment);
  warnings : list (list N);
  error : option (list N);
}.

Definition failure (e : list N) (ws : list (list N)) : AudioExtractionResult :=
  {| ok := false; res_text := None; segments := None; warnings := ws; error := Some e |}.

Definition note : list N := lit "🎵".
Definition LF : list N := [10%N].

(** [/^data:([^;]+);base64,(.+)$/s] on [s]: the media type and the payload. *)
Definition matchDataUrl (s : list N) : option (list N * list N) :=
  if JS.startsWith (lit "data:") s then
    let r := drop 5 s in
    let mime := JS.upTo 59 r in
    let rest := drop (length mime) r in
    let payload := drop 8 rest in
    if bool_decide (mime <> []) && JS.startsWith (lit ";base64,") rest
       && bool_decide (payload <> [])
    then Some (mime, payload) else None
  else None.

Definition extMap : list (list N * list N) :=
  [(lit "audio/mpeg", lit "mp3"); (lit "audio/mp3", lit "mp3"); (lit "audio/mp4", lit "m4a");
   (lit "audio/m4a", lit "m4a"); (lit "audio/wav", lit "wav"); (lit "audio/x-wav", lit "wav");
   (lit "audio/ogg", lit "ogg"); (lit "audio/webm", lit "webm"); (lit "audio/flac", lit "flac");
   (lit "audio/aac", lit "aac")].

Fixpoint assoc (k : list N) (m : list (list N * list N)) : option (list N) :=
  match m with
  | [] => None
  | (k', v) :: r => if bool_decide (k = k') then Some v else assoc k r
  end.

(** The members of [Object.prototype], which the object literal [extMap]
    inherits. *)
Definition prototypeMembers : list (list N) :=
  [lit "constructor"; lit "__defineGetter__"; lit "__defineSetter__";
   lit "hasOwnProperty"; lit "__lookupGetter__"; lit "__lookupSetter__";
   lit "isPrototypeOf"; lit "propertyIsEnumerable"; lit "toString"; lit "valueOf";
   lit "__proto__"; lit "toLocaleString"].

(** What [extMap[mimeType] || 'mp3'] holds: an extension, or, for a media
    type that names a member of [Object.prototype], that member (a function
    or an object, so truthy), which the file name then spells out. *)
Inductive Extension :=
| Ext (e : list N)
| Inherited (member : list N).

Definition extensionOf (mime : list N) : Extension :=
  match assoc mime extMap with
  | Some e => Ext e
  | None =>
    if existsb (fun member => bool_decide (mime = member)) prototypeMembers
    then Inherited mime else Ext (lit "mp3")
  end.

(** The upload's parts: the payload (still in its base64 text, which
    [Buffer.from] decodes), its media type and the file extension. *)
Record AudioFile := { buffer : list N; mimeType : list N; extension : Extension }.

Definition parseAudioDataUrl (dataUrl : list N) : option AudioFile :=
  match matchDataUrl dataUrl with
  | None => None
  | Some (mime, payload) =>
    Some {| buffer := payload; mimeType := mime; extension := extensionOf mime |}
  end.

(** The end of a match of [\s*\n] at the head of [r]: how many code units
    it takes, the white-space run being as long as it can. *)
Fixpoint blank_run (r : list N) : option nat :=
  match r with
  | c :: r' =>
    if JS.isWhiteSpace c then
      match blank_run r' with
      | Some k => Some (S k)
      | None => if (c =? 10)%N then Some 1%nat else None
      end
    else None
  | [] => None
  end.

(** [s.split(/\n\s*\n/)], in the manner of [JS.split_go]. *)
Fixpoint splitBlocks_go (skip : nat) (cur s : list N) : list (list N) :=
  match s with
  | [] => [rev cur]
  | c :: r =>
    match skip with
    | S k => splitBlocks_go k cur r
    | O =>
      if (c =? 10)%N then
        match blank_run r with
        | Some k => rev cur :: splitBlocks_go k [] r
        | None => splitBlocks_go 0 (c :: cur) r
        end
      else splitBlocks_go 0 (c :: cur) r
    end
  end.

Definition splitBlocks (s : list N) : list (list N) := splitBlocks_go 0 [] s.

(** One turn of the loop of [srtToJson]: [None] is [continue], [Some e] is
    [entries.push(e)]. *)
Definition parseBlock (block : list N) : option SrtSegment :=
  let lines := JS.split LF block in
  if decide (length lines < 3)%nat then None
  else
    let index := JS.trim (nth 0 lines []) in
    let timeLine := nth 1 lines [] in
    let parts := JS.split (lit " --> ") timeLine in
    if decide (length parts < 2)%nat then None
    else
      let start := JS.trim (nth 0 parts []) in
      let end_ := JS.trim (nth 1 parts []) in
      let text := JS.trim (JS.join (lit " ") (drop 2 lines)) in
      let instrumental := bool_decide (text = note) || JS.includes note text in
      Some {| index := index; start := start; end_ := end_; text := text;
              instrumental := instrumental |}.

Definition srtToJson (srt : list N) : list SrtSegment :=
  fold_left
    (fun entries block =>
       match parseBlock block with
       | None => entries
       | Some e => entries ++ [e]
       end)
    (splitBlocks (JS.trim srt)) [].

Definition segmentsToText (segs : list SrtSegment) : list N :=
  JS.trim
    (JS.collapseWhiteSpace
       (JS.join (lit " ") (map text (filter (fun s => instrumental s = false) segs)))).

(** The transcription service as one call of [extractAudioTranscript] sees
    it.  A [fetch] either throws or yields a response whose body can be read
    as text or as JSON (either read may throw).  [poll id n] is the [n]-th
    status request for job [id]. *)
Record Job := { job_id : list N; job_status : list N }.

Record Response (A : Type) := {
  r_ok : bool;
  r_status : Z;
  r_text : outcome (list N);
  r_json : outcome A;
}.
Arguments r_ok {A} _.
Arguments r_status {A} _.
Arguments r_text {A} _.
Arguments r_json {A} _.

Record Whisper := {
  WHISPER_SRT_API_KEY : option (list N);
  upload : list N -> AudioFile -> outcome (Response Job);
  poll : list N -> nat -> outcome (Response (list N));
  download : list N -> outcome (Response unit);
}.

(** What the client does to the outside, in order. *)
Inductive Effect :=
| Upload
| Sleep (ms : Z)
| Poll (n : nat)
| Download.

Definition isPoll (e : Effect) : bool :=
  match e with
  | Poll _ => true
  | _ => false
  end.

Definition PROCESSING : list N := lit "PROCESSING".
Definition DONE : list N := lit "DONE".

(** The [while] loop of step 3.  It yields the status and the attempt count
    it stops with, or the error a [fetch] or a body read threw. *)
Equations? pollLoop (w : Whisper) (id : list N) (status : list N) (attempts : nat)
    (log : list Effect) : outcome (list N * nat) * list Effect
    by wf (MAX_POLL_ATTEMPTS - attempts)%nat lt :=
  pollLoop w id status attempts log
    with decide (status = PROCESSING /\ (attempts < MAX_POLL_ATTEMPTS)%nat) => {
    | right _ => (Returned (status, attempts), log)
    | left _ with poll w id (S attempts) => {
      | Thrown e => (Thrown e, log ++ [Sleep POLL_INTERVAL_MS; Poll (S attempts)])
      | Returned pollRes with r_ok pollRes => {
        | false =>
          pollLoop w id status (S attempts) (log ++ [Sleep POLL_INTERVAL_MS; Poll (S attempts)])
        | true with r_json pollRes => {
          | Thrown e => (Thrown e, log ++ [Sleep POLL_INTERVAL_MS; Poll (S attempts)])
          | Returned st =>
            pollLoop w id st (S attempts) (log ++ [Sleep POLL_INTERVAL_MS; Poll (S attempts)])
          }
        }
      }
    }.
Proof. all: unfold MAX_POLL_ATTEMPTS in *; lia. Qed.

(** The effects of [k] polls after the first [a]: a sleep, then the poll. *)
Definition pollTrace (a k : nat) : list Effect :=
  flat_map (fun i => [Sleep POLL_INTERVAL_MS; Poll (S i)]) (seq a k).

(** The [n]-th poll is answered, either with a status other than 2xx or
    with the job still in [PROCESSING]. *)
Definition pending (w : Whisper) (id : list N) (n : nat) : Prop :=
  exists res, poll w id n = Returned res
    /\ (r_ok res = false \/ (r_ok res = true /\ r_json res = Returned PROCESSING)).

Definition messageOr (e fallback : list N) : list N :=
  if bool_decide (e = []) then fallback else e.

(** The body of the [try] block, from the upload on. *)
Definition transcribe (w : Whisper) (apiKey : list N) (file : AudioFile)
  : outcome AudioExtractionResult * list Effect :=
  match upload w apiKey file with
  | Thrown e => (Thrown e, [Upload])
  | Returned uploadRes =>
    if negb (r_ok uploadRes) then
      match r_text uploadRes with
      | Thrown e => (Thrown e, [Upload])
      | Returned _ =>
        (Returned
           (failure (lit "Falha ao enviar áudio para transcrição ("
                       ++ lit (pretty (r_status uploadRes)) ++ lit ").") []),
         [Upload])
      end
    else
      match r_json uploadRes with
      | Thrown e => (Thrown e, [Upload])
      | Returned job =>
        match pollLoop w (job_id job) (job_status job) 0 [Upload] with
        | (Thrown e, log) => (Thrown e, log)
        | (Returned (status, attempts), log) =>
          if bool_decide (status <> DONE) then
            let reason :=
              if decide (MAX_POLL_ATTEMPTS <= attempts)%nat
              then lit "Tempo esgotado aguardando transcrição."
              else lit "Transcrição falhou (status: " ++ status ++ lit ")." in
            (Returned (failure reason []), log)
          else
            match download w (job_id job) with
            | Thrown e => (Thrown e, log ++ [Download])
            | Returned downloadRes =>
              if negb (r_ok downloadRes) then
                (Returned (failure (lit "Falha ao baixar a transcrição gerada.") []),
                 log ++ [Download])
              else
                match r_text downloadRes with
                | Thrown e => (Thrown e, log ++ [Download])
                | Returned srtText =>
                  let segs := srtToJson srtText in
                  let fullText := segmentsToText segs in
                  if decide (length fullText < 5)%nat then
                    (Returned
                       (failure
                          (lit "Transcrição do áudio está vazia ou contém apenas instrumentais.")
                          [lit "Nenhuma fala detectada no áudio."]),
                     log ++ [Download])
                  else
                    (Returned
                       {| ok := true; res_text := Some fullText; segments := Some segs;
                          warnings :=
                            if existsb instrumental segs
                            then [lit "Partes instrumentais (🎵) foram identificadas e removidas da análise."]
                            else [];
                          error := None |},
                     log ++ [Download])
                end
            end
        end
      end
  end.

(** The request reaches the service and a job in [PROCESSING] comes back. *)
Definition submitted (w : Whisper) (audioDataUrl id : list N) : Prop :=
  exists apiKey file res,
    WHISPER_SRT_API_KEY w = Some apiKey /\ apiKey <> []
    /\ parseAudioDataUrl audioDataUrl = Some file
    /\ upload w apiKey file = Returned res
    /\ r_ok res = true
    /\ r_json res = Returned {| job_id := id; job_status := PROCESSING |}.

Definition extractAudioTranscript (w : Whisper) (audioDataUrl : list N)
  : AudioExtractionResult * list Effect :=
  match WHISPER_SRT_API_KEY w with
  | None | Some [] =>
    (failure (lit "Serviço de transcrição de áudio não configurado (WHISPER_SRT_API_KEY).") [],
     [])
  | Some apiKey =>
    match parseAudioDataUrl audioDataUrl with
    | None =>
      (failure (lit "Formato de áudio inválido. Envie um arquivo de áudio válido.") [], [])
    | Some file =>
      match transcribe w apiKey file with
      | (Returned r, log) => (r, log)
      | (Thrown e, log) =>
        (failure (lit "Erro ao transcrever áudio: " ++ messageOr e (lit "erro desconhecido")) [],
         log)
      end
    end
  end.

End Audio.

(** ** Caption extractor (src/lib/services/extractor.youtube.ts) *)

Module YouTube.

Record ExtractionResult := {
  ok : bool;
  text : option (list N);
  title : option (list N);
  sourceUrl : option (list N);
  warnings : list (list N);
  error : option (list N);
}.

Definition failure (e : list N) (ws : list (list N)) : ExtractionResult :=
  {| ok := false; text := None; title := None; sourceUrl := None; warnings := ws;
     error := Some e |}.

(** [[\w-]] *)
Definition isIdChar (c : N) : bool :=
  (((48 <=? c) && (c <=? 57)) || ((65 <=? c) && (c <=? 90)) || ((97 <=? c) && (c <=? 122))
   || (c =? 95) || (c =? 45))%N.

Definition idPrefixes : list (list N) :=
  [lit "youtube.com/watch?v="; lit "youtube.com/shorts/"; lit "youtube.com/embed/";
   lit "youtu.be/"].

(** A match of [YOUTUBE_ID_REGEX] that starts at the head of [s]. *)
Definition idAfter (p s : list N) : option (list N) :=
  if JS.startsWith p s then
    let id := take 11 (drop (length p) s) in
    if bool_decide (length id = 11%nat) && forallb isIdChar id then Some id else None
  else None.

Fixpoint firstSome {A} (xs : list (option A)) : option A :=
  match xs with
  | [] => None
  | Some a :: _ => Some a
  | None :: r => firstSome r
  end.

Definition idAt (s : list N) : option (list N) :=
  firstSome (map (fun p => idAfter p s) idPrefixes).

(** [url.match(YOUTUBE_ID_REGEX)], the captured group of the leftmost match. *)
Fixpoint matchVideoId (s : list N) : option (list N) :=
  match idAt s with
  | Some id => Some id
  | None => match s with [] => None | _ :: r => matchVideoId r end
  end.

Definition TOO_SHORT : list N :=
  lit "Inconclusivo: transcrição muito curta para análise. Cole a transcrição completa ou envie o áudio.".
Definition NO_TRANSCRIPT : list N :=
  lit "Inconclusivo: este vídeo não possui legenda/transcrição disponível para análise. Cole a transcrição ou envie o áudio.".
Definition TRUNCATED : list N := lit "Transcrição truncada em 10.000 caracteres.".
Definition FALLBACK_LANGUAGE : list N :=
  lit "Transcrição obtida em idioma alternativo (não pt-BR).".

Definition quote : list N := [34%N].

(** The chain of [replace] calls and the [trim] that open
    [buildTranscriptResult]. *)
Definition clean (text : list N) : list N :=
  JS.trim
    (JS.replaceAll (lit "&quot;") quote
       (JS.replaceAll (lit "&#39;") (lit "'")
          (JS.replaceAll (lit "&gt;") (lit ">")
             (JS.replaceAll (lit "&lt;") (lit "<")
                (JS.replaceAll (lit "&amp;") (lit "&")
                   (JS.collapseWhiteSpace text)))))).

Definition header (videoId : list N) : list N :=
  lit "[Transcrição do vídeo YouTube: " ++ videoId ++ lit "]" ++ [10%N; 10%N].

Definition buildTranscriptResult (text videoId url : list N) (warnings : list (list N))
  : ExtractionResult :=
  let cleaned := clean text in
  if decide (Z.of_nat (length cleaned) < 100) then failure TOO_SHORT warnings
  else
    let (cleaned, warnings) :=
      if decide (10000 < Z.of_nat (length cleaned))
      then (JS.slice 0 10000 cleaned, warnings ++ [TRUNCATED])
      else (cleaned, warnings) in
    {| ok := true;
       text := Some (header videoId ++ cleaned);
       title := Some (lit "Vídeo YouTube: " ++ videoId);
       sourceUrl := Some url;
       warnings := warnings;
       error := None |}.

(** The caption source: the dynamic import of the package, and
    [fetchTranscript(videoId, config)] with its optional language;
    [Returned None] is a [null] or [undefined] item list. *)
Record TranscriptItem := { item_text : list N }.

Record Captions := {
  import_package : outcome unit;
  fetchTranscript : list N -> option (list N) -> outcome (option (list TranscriptItem));
}.

Inductive Call := Fetch (videoId : list N) (lang : option (list N)).

Definition noItems (items : option (list TranscriptItem)) : bool :=
  match items with
  | None | Some [] => true
  | Some (_ :: _) => false
  end.

Definition joinItems (items : list TranscriptItem) : list N :=
  JS.trim (JS.join (lit " ") (map item_text items)).

(** The [catch] clause. *)
Definition caught (msg : list N) (warnings : list (list N)) : ExtractionResult :=
  if JS.includes (lit "disabled") msg || JS.includes (lit "not available") msg
     || JS.includes (lit "Could not") msg
  then failure NO_TRANSCRIPT warnings
  else
    failure (lit "Erro ao obter transcrição do YouTube: "
               ++ (if bool_decide (msg = []) then lit "erro desconhecido" else msg)
               ++ lit ". Cole a transcrição ou envie o áudio.") warnings.

Definition extractYouTubeTranscript (c : Captions) (url : list N)
  : ExtractionResult * list Call :=
  match matchVideoId url with
  | None =>
    (failure (lit "Não foi possível identificar o ID do vídeo no link do YouTube.") [], [])
  | Some videoId =>
    match import_package c with
    | Thrown msg => (caught msg [], [])
    | Returned _ =>
      let pt := Some (lit "pt") in
      match fetchTranscript c videoId pt with
      | Thrown msg => (caught msg [], [Fetch videoId pt])
      | Returned transcriptItems =>
        if noItems transcriptItems then
          let fallbackItems :=
            match fetchTranscript c videoId None with
            | Thrown _ => None
            | Returned items => items
            end in
          if noItems fallbackItems then
            (failure NO_TRANSCRIPT [], [Fetch videoId pt; Fetch videoId None])
          else
            (buildTranscriptResult (joinItems (default [] fallbackItems)) videoId url
               [FALLBACK_LANGUAGE],
             [Fetch videoId pt; Fetch videoId None])
        else
          (buildTranscriptResult (joinItems (default [] transcriptItems)) videoId url [],
           [Fetch videoId pt])
      end
    end
  end.

End YouTube.

(** ** Analysis pipeline (lib/analyzePipeline, second part of
       src/lib/services/extractor.audio.ts) *)

Module Pipeline.

(** Values as [JSON.parse] builds them and the pipeline then updates them.
    An array keeps the properties assigned to it beside its items. *)
#[local] Set Warnings "-register-all".
Inductive value :=
| VNull
| VBool (b : bool)
| VNum (x : float)
| VStr (s : list N)
| VArr (items : list value) (props : list (list N * value))
| VObj (props : list (list N * value)).

Definition truthy (v : value) : bool :=
  match v with
  | VNull => false
  | VBool b => b
  | VNum x => negb (PrimFloat.eqb x 0%float) && PrimFloat.eqb x x
  | VStr s => negb (bool_decide (s = []))
  | VArr _ _ | VObj _ => true
  end.

Fixpoint lookup (k : list N) (props : list (list N * value)) : option value :=
  match props with
  | [] => None
  | (k', v) :: r => if bool_decide (k = k') then Some v else lookup k r
  end.

(** Assignment keeps the place of a key already present and appends a new
    one. *)
Fixpoint assign (k : list N) (x : value) (props : list (list N * value))
  : list (list N * value) :=
  match props with
  | [] => [(k, x)]
  | (k', v) :: r => if bool_decide (k = k') then (k, x) :: r else (k', v) :: assign k x r
  end.

Definition TypeError : list N := lit "TypeError".

(** [v.k] for the property names the pipeline uses (none of them is an
    index, [length], or a member of a prototype): reading from [null]
    throws, a primitive has no such property. [None] is [undefined]. *)
Definition getProp (k : list N) (v : value) : outcome (option value) :=
  match v with
  | VNull => Thrown TypeError
  | VBool _ | VNum _ | VStr _ => Returned None
  | VArr _ props | VObj props => Returned (lookup k props)
  end.

(** [v.k = x] in strict mode (the file is an ES module): assigning to a
    property of [null] or of a primitive throws. *)
Definition setProp (k : list N) (x : value) (v : value) : outcome value :=
  match v with
  | VNull | VBool _ | VNum _ | VStr _ => Thrown TypeError
  | VArr items props => Returned (VArr items (assign k x props))
  | VObj props => Returned (VObj (assign k x props))
  end.

(** [v.k1.k2...], when every step finds a property. *)
Fixpoint path (ks : list (list N)) (v : value) : option value :=
  match ks with
  | [] => Some v
  | k :: r =>
    match getProp k v with
    | Returned (Some x) => path r x
    | _ => None
    end
  end.

(** [v.k = v.k || dflt] *)
Definition orDefault (k : list N) (dflt : value) (v : value) : outcome value :=
  match getProp k v with
  | Thrown e => Thrown e
  | Returned cur =>
    let x := match cur with
             | Some c => if truthy c then c else dflt
             | None => dflt
             end in
    setProp k x v
  end.

(** [v.k.f = x]: the object held by [v.k] is updated in place. *)
Definition setInner (k f : list N) (x : value) (v : value) : outcome value :=
  match getProp k v with
  | Thrown e => Thrown e
  | Returned None => Thrown TypeError
  | Returned (Some inner) =>
    match setProp f x inner with
    | Thrown e => Thrown e
    | Returned inner' => setProp k inner' v
    end
  end.

(** Objects and arrays, the values that take a property. *)
Definition objectLike (v : value) : bool :=
  match v with
  | VArr _ _ | VObj _ => true
  | _ => false
  end.

(** A parsed reply that the statements after [JSON.parse] accept: an object
    or array whose [meta], if it has a truthy one, is an object or array. *)
Definition completes (parsed : value) : bool :=
  objectLike parsed
  && match getProp (lit "meta") parsed with
     | Returned (Some m) => negb (truthy m) || objectLike m
     | _ => true
     end.

(** [JSON.stringify(v)], given as the value that the text it writes denotes
    (what [JSON.parse] reads back from it).  An array is written with its
    items only, so the properties assigned to it are not in the text; a
    number that is not finite is written [null], and [-0] is written [0]. *)
Fixpoint JSON_stringify (v : value) : value :=
  match v with
  | VNull | VBool _ | VStr _ => v
  | VNum x =>
    if PrimFloat.is_nan x || PrimFloat.is_infinity x then VNull
    else if PrimFloat.is_zero x then VNum 0%float else VNum x
  | VArr items _ => VArr (map JSON_stringify items) []
  | VObj props => VObj (map (fun kv => (kv.1, JSON_stringify kv.2)) props)
  end.

Definition bind {A B} (o : outcome A) (f : A -> outcome B) : outcome B :=
  match o with
  | Thrown e => Thrown e
  | Returned a => f a
  end.

Notation "'let!' x ':=' o 'in' k" := (bind o (fun x => k))
  (at level 10, x name, k at level 200).

Definition str (s : string) : value := VStr (lit s).
Definition strs (l : list (list N)) : value := VArr (map VStr l) [].

Inductive Part :=
| InlineData (mimeType data : list N)
| Text (t : list N).

(** The model service for one call: [getGemini()] with
    [getGenerativeModel], then [generateContent] with [response.text()];
    [crypto.randomUUID()] and [new Date().toISOString()]. *)
Record Gemini := {
  getGemini : outcome unit;
  GEMINI_MODEL : option (list N);
  generateContent : list N -> list Part -> outcome (list N);
  randomUUID : list N;
  toISOString : list N;
}.

Definition fence : list N := [96%N; 96%N; 96%N].

(** [txt.replace(/^```(?:json)?\s*/, '')] *)
Definition stripOpeningFence (txt : list N) : list N :=
  if JS.startsWith fence txt then
    let r := drop 3 txt in
    JS.trimStart (if JS.startsWith (lit "json") r then drop 4 r else r)
  else txt.

(** [txt.replace(/\s*```$/, '')] *)
Definition stripClosingFence (txt : list N) : list N :=
  if JS.endsWith fence txt then JS.trimEnd (take (length txt - 3) txt) else txt.

Definition parseDataUrl (content : list N) : option (list N * list N) :=
  Audio.matchDataUrl content.

Section WithPlatform.

(** The prompt constant of the source (its text takes no part in control
    flow) and [JSON.parse], [None] for a [SyntaxError]. *)
Variable SYSTEM_PROMPT : list N.
Variable JSON_parse : list N -> option value.

Definition metaDefault (g : Gemini) (inputType : list N) (warnings : list (list N)) : value :=
  VObj [(lit "id", VStr (randomUUID g)); (lit "createdAt", VStr (toISOString g));
        (lit "inputType", VStr inputType); (lit "language", str "pt-BR");
        (lit "mode", str "mvp_no_external_sources"); (lit "warnings", strs warnings)].

(** The object of the [catch] clause. *)
Definition fallback (g : Gemini) (inputType : list N) : value :=
  VObj
    [(lit "meta",
      metaDefault g inputType
        [lit "Analise baseada apenas no conteudo fornecido. Nao substitui verificacao profissional."]);
     (lit "scores",
      VObj [(lit "fakeProbability", VNum 50%float); (lit "verifiableTruth", VNum 20%float);
            (lit "biasFraming", VNum 40%float); (lit "manipulationRisk", VNum 30%float)]);
     (lit "summary",
      VObj [(lit "headline", str "Resultado Inconclusivo");
            (lit "oneParagraph",
             str "Nao ha base suficiente para uma conclusao definitiva. Recomendamos verificar em fontes confiaveis.");
            (lit "verdict", str "Inconclusivo")]);
     (lit "claims", VArr [] []);
     (lit "similar", VObj [(lit "searchQueries", VArr [] []); (lit "externalChecks", VArr [] [])]);
     (lit "reportMarkdown",
      VStr (lit "# Relatorio de Analise" ++ [10%N; 10%N] ++ lit "---" ++ [10%N; 10%N]
              ++ lit "**Nota:** Este e um resultado inicial. Para conclusoes definitivas, consulte agencias de checagem profissionais."))].

Definition textPart (content : list N) : Part :=
  Text (SYSTEM_PROMPT ++ [10%N; 10%N] ++ lit "Content to analyze:" ++ [10%N]
          ++ JS.slice 0 20000 content).

Definition buildParts (inputType content : list N) : list Part :=
  if bool_decide (inputType = lit "image") || bool_decide (inputType = lit "audio") then
    match parseDataUrl content with
    | Some (mimeType, base64Data) =>
      let mediaLabel :=
        if bool_decide (inputType = lit "image")
        then lit "The user uploaded an image. Describe what you see and analyze any text, claims or manipulation signs in it."
        else lit "The user uploaded an audio file. Transcribe what you hear and analyze any claims, bias or manipulation signs." in
      [InlineData mimeType base64Data; Text (SYSTEM_PROMPT ++ [10%N; 10%N] ++ mediaLabel)]
    | None => [textPart content]
    end
  else [textPart content].

(** The statements after [JSON.parse], from "Ensure required fields exist"
    to [parsed.ok = true]. *)
Definition complete (g : Gemini) (inputType fingerprint : list N) (parsed : value)
  : outcome value :=
  let! p := orDefault (lit "meta") (metaDefault g inputType []) parsed in
  let! p := orDefault (lit "scores")
         (VObj [(lit "fakeProbability", VNum 0%float); (lit "verifiableTruth", VNum 0%float);
                (lit "biasFraming", VNum 0%float); (lit "manipulationRisk", VNum 0%float)]) p in
  let! p := orDefault (lit "summary")
         (VObj [(lit "headline", str "Resultado"); (lit "oneParagraph", VStr []);
                (lit "verdict", str "Inconclusivo")]) p in
  let! p := orDefault (lit "claims") (VArr [] []) p in
  let! p := orDefault (lit "similar")
         (VObj [(lit "searchQueries", VArr [] []); (lit "externalChecks", VArr [] [])]) p in
  let! p := orDefault (lit "reportMarkdown") (VStr []) p in
  let! p := setInner (lit "meta") (lit "fingerprint") (VStr fingerprint) p in
  setProp (lit "ok") (VBool true) p.

(** The text handed to [JSON.parse]: the reply trimmed, and freed of a
    Markdown code fence when it opens with one. *)
Definition unfenced (response : list N) : list N :=
  let txt := JS.trim response in
  if JS.startsWith fence txt then stripClosingFence (stripOpeningFence txt) else txt.

Definition analyzePipeline (g : Gemini) (inputType content : list N) : outcome value :=
  let fingerprint := SHA256.hex_of_string content in
  let! genai := getGemini g in
  let model := default (lit "gemini-2.0-flash") (GEMINI_MODEL g) in
  let! response := generateContent g model (buildParts inputType content) in
  let txt := unfenced response in
  let parsed := match JSON_parse txt with
                | Some v => v
                | None => fallback g inputType
                end in
  complete g inputType fingerprint parsed.

End WithPlatform.

End Pipeline.

(** ** The analysis endpoint (src/app/api/check/route.ts) *)

Module Route.

Inductive InputType := text | link | image | audio.

#[global] Instance InputType_eq_dec : EqDecision InputType.
Proof. solve_decision. Defined.

Definition name (t : InputType) : list N :=
  match t with
  | text => lit "text"
  | link => lit "link"
  | image => lit "image"
  | audio => lit "audio"
  end.

(** [analyzeSchema.safeParse(body)] (lib/validations is not among the
    sources): the body is rejected, with the first error's message if it has
    one, or accepted with its two fields. *)
Inductive Parsed :=
| Rejected (firstError : option (list N))
| Accepted (inputType : InputType) (content : list N).

(** A request: the [x-forwarded-for] header, and [req.json()] passed through
    the schema. *)
Record Request := {
  forwarded : option (list N);
  body : outcome Parsed;
}.

Inductive Body :=
| Error (error message : list N)
| Result (result : Pipeline.value).

Record Response := {
  status : Z;
  retryAfter : option (list N);
  payload : Body;
}.

Definition json (data : Body) (status : Z) : Response :=
  {| status := status; retryAfter := None; payload := data |}.

(** What one request meets outside the route: the limiter and the clock,
    the credential check of lib/gemini, [extractFromUrl] of
    lib/services/extractor, the transcription service and the model. *)
Record World := {
  upstash : RateLimit.Upstash;
  now : Z;
  isGeminiConfigured : bool;
  extractFromUrl : list N -> outcome YouTube.ExtractionResult;
  whisper : Audio.Whisper;
  gemini : Pipeline.Gemini;
}.

(** The state of step 5 when it is left without a response. *)
Record Prepared := {
  effectiveInputType : list N;
  textForAnalysis : list N;
  sourceUrl : option (list N);
  extractionWarnings : list (list N);
}.

Definition nonEmpty (o : option (list N)) : bool :=
  match o with
  | Some (_ :: _) => true
  | _ => false
  end.

(** [forwarded?.split(',')[0]?.trim() || 'unknown'] *)
Definition clientIp (r : Request) : list N :=
  match forwarded r with
  | None => lit "unknown"
  | Some f =>
    let ip := JS.trim (nth 0 (JS.split (lit ",") f) []) in
    if bool_decide (ip = []) then lit "unknown" else ip
  end.

(** The code points an iteration over a string yields, each as a string. *)
Fixpoint codePoints (s : list N) : list (list N) :=
  match s with
  | [] => []
  | u :: r =>
    match r with
    | l :: r' =>
      if Unicode.is_high u && Unicode.is_low l
      then [u; l] :: codePoints r'
      else [u] :: codePoints r
    | [] => [[u]]
    end
  end.

(** [[...v]] *)
Definition spread (v : Pipeline.value) : outcome (list Pipeline.value) :=
  match v with
  | Pipeline.VArr items _ => Returned items
  | Pipeline.VStr s => Returned (map Pipeline.VStr (codePoints s))
  | _ => Thrown Pipeline.TypeError
  end.

Section WithLibraries.

(** Functions of lib/validations and lib/services/extractor, and the
    platform of the pipeline. *)
Variable sanitizeForLLM : list N -> Z -> list N.
Variable isValidUrl : list N -> bool.
Variable isYouTubeUrl : list N -> bool.
Variable SYSTEM_PROMPT : list N.
Variable JSON_parse : list N -> option Pipeline.value.

(** Steps 5 and 5b. *)
Definition extract (w : World) (inputType : InputType) (content : list N)
  : outcome (Response + Prepared) :=
  match inputType with
  | link =>
    if negb (isValidUrl (JS.trim content)) then
      Returned (inl (json (Error (lit "VALIDATION")
                             (lit "URL inválida. Verifique o formato e tente novamente.")) 400))
    else
      let isYT := isYouTubeUrl (JS.trim content) in
      match extractFromUrl w (JS.trim content) with
      | Thrown e => Thrown e
      | Returned extraction =>
        if negb (YouTube.ok extraction) || negb (nonEmpty (YouTube.text extraction)) then
          Returned
            (inl (json (Error (lit "EXTRACTION_FAILED")
                          (if nonEmpty (YouTube.error extraction)
                           then default [] (YouTube.error extraction)
                           else lit "Não foi possível extrair conteúdo do link.")) 422))
        else
          Returned
            (inr {| effectiveInputType :=
                      if isYT then lit "youtube_transcript" else name link;
                    textForAnalysis := default [] (YouTube.text extraction);
                    sourceUrl := YouTube.sourceUrl extraction;
                    extractionWarnings := YouTube.warnings extraction |})
      end
  | audio =>
    let audioResult := (Audio.extractAudioTranscript (whisper w) content).1 in
    if negb (Audio.ok audioResult) || negb (nonEmpty (Audio.res_text audioResult)) then
      Returned
        (inl (json (Error (lit "EXTRACTION_FAILED")
                      (if nonEmpty (Audio.error audioResult)
                       then default [] (Audio.error audioResult)
                       else lit "Não foi possível transcrever o áudio.")) 422))
    else
      Returned
        (inr {| effectiveInputType := lit "audio_transcript";
                textForAnalysis := default [] (Audio.res_text audioResult);
                sourceUrl := None;
                extractionWarnings := Audio.warnings audioResult |})
  | _ =>
    Returned
      (inr {| effectiveInputType := name inputType; textForAnalysis := content;
              sourceUrl := None; extractionWarnings := [] |})
  end.

(** Step 6. *)
Definition sanitize (inputType : InputType) (p : Prepared) : Prepared :=
  if bool_decide (effectiveInputType p = lit "text")
     || bool_decide (effectiveInputType p = lit "youtube_transcript")
     || bool_decide (effectiveInputType p = lit "audio_transcript")
     || bool_decide (inputType = link)
  then {| effectiveInputType := effectiveInputType p;
          textForAnalysis := sanitizeForLLM (textForAnalysis p) 10000;
          sourceUrl := sourceUrl p;
          extractionWarnings := extractionWarnings p |}
  else p.

Import Pipeline.

(** The two "attach extraction metadata" statements. *)
Definition attach (p : Prepared) (result : value) : outcome value :=
  let! result :=
    (if nonEmpty (sourceUrl p) then
       let! r := orDefault (lit "meta") (VObj []) result in
       setInner (lit "meta") (lit "sourceUrl") (VStr (default [] (sourceUrl p))) r
     else Returned result) in
  if negb (bool_decide (extractionWarnings p = [])) then
    let! r := orDefault (lit "meta") (VObj []) result in
    let! meta := getProp (lit "meta") r in
    let! old := getProp (lit "warnings") (default VNull meta) in
    let! items :=
      (match old with
       | Some o => if truthy o then spread o else Returned []
       | None => Returned []
       end) in
    setInner (lit "meta") (lit "warnings")
      (VArr (items ++ map VStr (extractionWarnings p)) []) r
  else Returned result.

(** Steps 7 to the end.  Steps 8 and 9 write to the store inside their own
    [try]/[catch] and leave [result] as it is. *)
Definition analyze (w : World) (p : Prepared) : outcome Response :=
  let! result := analyzePipeline SYSTEM_PROMPT JSON_parse (gemini w)
                   (effectiveInputType p) (textForAnalysis p) in
  let! result := attach p result in
  Returned (json (Result result) 200).

(** The body of the outer [try], after the rate limit. *)
Definition handle (w : World) (r : Request) : outcome Response :=
  let! parsed := body r in
  match parsed with
  | Rejected firstError =>
    Returned (json (Error (lit "VALIDATION")
                      (if nonEmpty firstError then default [] firstError
                       else lit "Dados inválidos.")) 400)
  | Accepted inputType content =>
    if negb (isGeminiConfigured w) then
      Returned (json (Error (lit "SERVER_MISCONFIG")
                        (lit "GEMINI_API_KEY não configurada no servidor (Vercel).")) 503)
    else
      let! e := extract w inputType content in
      match e with
      | inl response => Returned response
      | inr p => analyze w (sanitize inputType p)
      end
  end.

Definition failed : Response :=
  json (Error (lit "ANALYZE_FAILED") (lit "Falha ao analisar no servidor. Tente novamente.")) 500.

Definition POST (w : World) (r : Request) (st : RateLimit.State)
  : Response * RateLimit.State :=
  match RateLimit.checkRateLimitAsync (upstash w) (now w) (clientIp r) st with
  | (Thrown _, st) => (failed, st)
  | (Returned rl, st) =>
    if negb (RateLimit.allowed rl) then
      ({| status := 429; retryAfter := Some (lit "60");
          payload := Error (lit "RATE_LIMITED") (lit "Muitas requisições. Aguarde um minuto.") |},
       st)
    else
      match handle w r with
      | Thrown _ => (failed, st)
      | Returned response => (response, st)
      end
  end.

(** The text whose digest is the fingerprint, by kind of input. *)
Definition fingerprinted (w : World) (t : InputType) (content : list N) : list N :=
  match t with
  | text => sanitizeForLLM content 10000
  | image => content
  | link =>
    sanitizeForLLM
      match extractFromUrl w (JS.trim content) with
      | Returned e => default [] (YouTube.text e)
      | Thrown _ => []
      end 10000
  | audio =>
    sanitizeForLLM
      (default [] (Audio.res_text (Audio.extractAudioTranscript (whisper w) content).1))
      10000
  end.

End WithLibraries.

(** A result whose [meta] is written to the body with its entries: an
    object, not an array, whose [meta] is an object, not an array. *)
Definition plainMeta (v : Pipeline.value) : bool :=
  match v with
  | Pipeline.VObj props =>
    match Pipeline.lookup (lit "meta") props with
    | Some (Pipeline.VObj _) => true
    | _ => false
    end
  | _ => false
  end.

(** [meta.fingerprint] as the body of a response carries it: the body of a
    response with a result is [JSON.stringify(result)], written by
    [NextResponse.json]. *)
Definition fingerprintOf (r : Response) : option Pipeline.value :=
  match payload r with
  | Result v => Pipeline.path [lit "meta"; lit "fingerprint"] (Pipeline.JSON_stringify v)
  | Error _ _ => None
  end.

End Route.

(** ** Concrete worlds used to exercise the definitions *)

Module Scenario.

Definition clip : list N := lit "data:audio/wav;base64,UklGRg==".

Definition accepted (status : list N) : Audio.Response Audio.Job :=
  {| Audio.r_ok := true; Audio.r_status := 201; Audio.r_text := Returned [];
     Audio.r_json := Returned {| Audio.job_id := lit "job-1"; Audio.job_status := status |} |}.

Definition polled (ok : bool) (code : Z) (status : list N) : Audio.Response (list N) :=
  {| Audio.r_ok := ok; Audio.r_status := code; Audio.r_text := Returned [];
     Audio.r_json := Returned status |}.

Definition subtitles : list N :=
  lit "1" ++ [10%N] ++ lit "00:00:00,000 --> 00:00:02,000" ++ [10%N]
    ++ lit "Bom dia a todos" ++ [10%N; 10%N]
    ++ lit "2" ++ [10%N] ++ lit "00:00:02,000 --> 00:00:04,000" ++ [10%N]
    ++ lit "🎵" ++ [10%N].

Definition downloaded : Audio.Response unit :=
  {| Audio.r_ok := true; Audio.r_status := 200; Audio.r_text := Returned subtitles;
     Audio.r_json := Thrown [] |}.


(** A service whose job never leaves [PROCESSING]; every other status
    request is answered 502. *)
Definition stuck : Audio.Whisper :=
  {| Audio.WHISPER_SRT_API_KEY := Some (lit "key");
     Audio.upload := fun _ _ => Returned (accepted Audio.PROCESSING);
     Audio.poll := fun _ n =>
       Returned (if Nat.even n then polled false 502 [] else polled true 200 Audio.PROCESSING);
     Audio.download := fun _ => Returned downloaded |}.

(** A service whose first status request fails on the network and whose job
    is done by the second. *)
Definition flaky : Audio.Whisper :=
  {| Audio.WHISPER_SRT_API_KEY := Some (lit "key");
     Audio.upload := fun _ _ => Returned (accepted Audio.PROCESSING);
     Audio.poll := fun _ n =>
       if (n =? 1)%nat then Thrown (lit "fetch failed")
       else Returned (polled true 200 Audio.DONE);
     Audio.download := fun _ => Returned downloaded |}.

Definition speech : list N :=
  lit "The minister said on Tuesday that the new bridge would open before the end of the year, two years late.".

(** A caption source with no Portuguese track and an English one. *)
Definition englishOnly : YouTube.Captions :=
  {| YouTube.import_package := Returned ();
     YouTube.fetchTranscript := fun _ lang =>
       match lang with
       | Some _ => Returned (Some [])
       | None => Returned (Some [ {| YouTube.item_text := speech |} ])
       end |}.

Definition watch : list N := lit "https://www.youtube.com/watch?v=abc12345678".

(** A model that answers in prose, and a platform whose [JSON.parse]
    rejects it. *)
Definition prose : Pipeline.Gemini :=
  {| Pipeline.getGemini := Returned ();
     Pipeline.GEMINI_MODEL := None;
     Pipeline.generateContent := fun _ _ => Returned (lit "I cannot assess this content.");
     Pipeline.randomUUID := lit "123e4567-e89b-12d3-a456-426614174000";
     Pipeline.toISOString := lit "2025-01-01T00:00:00.000Z" |}.

Definition noJson (txt : list N) : option Pipeline.value := None.

(** Stand-ins for the functions of lib/validations and
    lib/services/extractor: a sanitizer that only cuts to the length asked
    for, a URL check that accepts, a classifier that never says YouTube. *)
Definition cutOnly (t : list N) (maxLength : Z) : list N := JS.slice 0 maxLength t.
Definition anyUrl (u : list N) : bool := true.
Definition notYouTube (u : list N) : bool := false.

Definition inMemory : RateLimit.Upstash :=
  {| RateLimit.UPSTASH_URL := []; RateLimit.UPSTASH_TOKEN := [];
     RateLimit.import_client := Returned ();
     RateLimit.limit := fun _ => Thrown [] |}.

(** The distributed counter configured, and unreachable. *)
Definition outage : RateLimit.Upstash :=
  {| RateLimit.UPSTASH_URL := lit "https://eu1-example.upstash.io";
     RateLimit.UPSTASH_TOKEN := lit "token";
     RateLimit.import_client := Returned ();
     RateLimit.limit := fun _ => Thrown (lit "fetch failed") |}.

Definition unconfigured : Audio.Whisper :=
  {| Audio.WHISPER_SRT_API_KEY := None;
     Audio.upload := fun _ _ => Thrown [];
     Audio.poll := fun _ _ => Thrown [];
     Audio.download := fun _ => Thrown [] |}.

(** A world in which the page behind any link reads [article]. *)
Definition serving (article : list N) : Route.World :=
  {| Route.upstash := inMemory;
     Route.now := 1700000000000;
     Route.isGeminiConfigured := true;
     Route.extractFromUrl := fun u =>
       Returned {| YouTube.ok := true; YouTube.text := Some article; YouTube.title := None;
                   YouTube.sourceUrl := Some u; YouTube.warnings := [];
                   YouTube.error := None |};
     Route.whisper := unconfigured;
     Route.gemini := prose |}.

(** The same world without the model's credential. *)
Definition noModelKey : Route.World :=
  {| Route.upstash := inMemory;
     Route.now := 1700000000000;
     Route.isGeminiConfigured := false;
     Route.extractFromUrl := fun u => Thrown [];
     Route.whisper := unconfigured;
     Route.gemini := prose |}.

Definition unreachableCounter : Route.World :=
  {| Route.upstash := outage;
     Route.now := 1700000000000;
     Route.isGeminiConfigured := true;
     Route.extractFromUrl := fun u => Thrown [];
     Route.whisper := unconfigured;
     Route.gemini := prose |}.

Definition started : RateLimit.State :=
  {| RateLimit.rateLimiter := false; RateLimit.hits := ∅ |}.

Definition request (t : Route.InputType) (content : list N) : Route.Request :=
  {| Route.forwarded := Some (lit "203.0.113.7, 10.0.0.1");
     Route.body := Returned (Route.Accepted t content) |}.

Definition post (w : Route.World) (r : Route.Request) : Route.Response :=
  (Route.POST cutOnly anyUrl notYouTube [] noJson w r started).1.

End Scenario.

Module Runs.
Import RateLimit.

(** The [hits] map a run leaves behind. *)
Fixpoint stateAfter (es : list Event) (h : gmap (list N) (list Z)) : gmap (list N) (list Z) :=
  match es with
  | [] => h
  | Check now ip :: r => stateAfter r (inMemoryCheck now ip h).2
  | Sweep now :: r => stateAfter r (sweep now h)
  end.

End Runs.

(** ** Anti-bot verification (src/lib/auth/turnstile.ts) *)

Module Turnstile.
Import Pipeline.

(** [success] holds what the service's answer has under that name, any JSON
    value or nothing ([None] is [undefined]); [errorCodes] likewise. *)
Record TurnstileResult := { success : option value; errorCodes : value }.

(** The verification service: the secret read at start-up, and the [fetch]
    of [TURNSTILE_VERIFY_URL] with the [secret], [response] and [remoteip]
    of its JSON body. *)
Record Service := {
  TURNSTILE_SECRET : list N;
  siteverify : list N -> value -> option (list N) -> outcome (Audio.Response value);
}.

Inductive Call := Verify (secret : list N) (response : value) (remoteip : option (list N)).

Definition refused (code : list N) : TurnstileResult :=
  {| success := Some (VBool false); errorCodes := strs [code] |}.

(** [x || undefined] for a string that may be missing. *)
Definition filled (o : option (list N)) : option (list N) :=
  match o with
  | Some (c :: s) => Some (c :: s)
  | _ => None
  end.

Definition verifyTurnstile (s : Service) (token : option value) (ip : option (list N))
  : TurnstileResult * list Call :=
  if bool_decide (TURNSTILE_SECRET s = []) then
    ({| success := Some (VBool true); errorCodes := strs [] |}, [])
  else
    match token with
    | None => (refused (lit "missing-input-response"), [])
    | Some tok =>
      if negb (truthy tok) then (refused (lit "missing-input-response"), [])
      else
        let answer :=
          let! res := siteverify s (TURNSTILE_SECRET s) tok (filled ip) in
          if negb (Audio.r_ok res) then
            Returned (refused (lit "http-" ++ lit (pretty (Audio.r_status res))))
          else
            let! data := Audio.r_json res in
            let! success := getProp (lit "success") data in
            let! codes := getProp (lit "error-codes") data in
            Returned {| success := success;
                        errorCodes := match codes with
                                      | Some c => if truthy c then c else strs []
                                      | None => strs []
                                      end |} in
        (match answer with
         | Returned r => r
         | Thrown _ => refused (lit "network-error")
         end,
         [Verify (TURNSTILE_SECRET s) tok (filled ip)])
    end.

(** The caller's test, [captcha.success] read as a condition. *)
Definition passed (r : TurnstileResult) : bool :=
  match success r with
  | Some v => truthy v
  | None => false
  end.

End Turnstile.

(** ** Subscription endpoint (src/app/api/subscribe/route.ts) *)

Module Subscribe.
Import Pipeline.

(** [subscribeSchema.safeParse(body)] (lib/validations is not among the
    sources): the body is rejected, with the first error's message if it has
    one, or accepted with its three fields, of which [name] and [whatsapp]
    may be missing. *)
Inductive Parsed :=
| Rejected (firstError : option (list N))
| Accepted (name : option (list N)) (email : list N) (whatsapp : option (list N)).

Record Request := {
  forwarded : option (list N);
  body : outcome value;
}.

Inductive Body :=
| Failure (error message : list N)
| Done (message : list N).

Record Response := {
  status : Z;
  retryAfter : option (list N);
  payload : Body;
}.

(** The queries on the [subscribers] table.  A field that is [None] is not
    sent ([undefined]) in an update and is [null] in an insertion. *)
Inductive Query :=
| SelectByEmail (email : list N)
| SelectByWhatsapp (whatsapp : list N)
| Update (id : option value) (last_active : list N)
    (name whatsapp email : option (list N))
| Insert (name : option (list N)) (email : list N) (whatsapp : option (list N))
    (accepted_terms_at : list N).

Definition isWrite (q : Query) : bool :=
  match q with
  | Update _ _ _ _ _ | Insert _ _ _ _ => true
  | _ => false
  end.

(** The store: [createServerSupabase()], and a query awaited.  A lookup
    answers with its [data] (the row or [null]), an insertion with its
    [error] ([null] when there is none). *)
Record Supabase := {
  createServerSupabase : outcome unit;
  run : Query -> outcome value;
}.

Inductive Effect :=
| Captcha (c : Turnstile.Call)
| Database (q : Query).

Record World := {
  upstash : RateLimit.Upstash;
  now : Z;
  turnstile : Turnstile.Service;
  supabase : Supabase;
  toISOString : list N;
}.

(** The queries of a log that change the table. *)
Definition writes (log : list Effect) : list Query :=
  omap (fun e => match e with
                 | Database q => if isWrite q then Some q else None
                 | Captcha _ => None
                 end) log.

(** A computation that may throw, with the effects it had until then. *)
Definition Logged (A : Type) : Type := outcome A * list Effect.

Definition pure {A} (a : A) : Logged A := (Returned a, []).
Definition quiet {A} (o : outcome A) : Logged A := (o, []).
Definition query (db : Supabase) (q : Query) : Logged value := (run db q, [Database q]).

Definition andThen {A B} (m : Logged A) (f : A -> Logged B) : Logged B :=
  match m with
  | (Thrown e, log) => (Thrown e, log)
  | (Returned a, log) => let (o, log') := f a in (o, log ++ log')
  end.

Notation "'do!' x ':=' m 'in' k" := (andThen m (fun x => k))
  (at level 10, x name, k at level 200).

Definition json (data : Body) (status : Z) : Response :=
  {| status := status; retryAfter := None; payload := data |}.

Definition updated : Response := json (Done (lit "Cadastro atualizado com sucesso!")) 200.

(** [forwarded?.split(',')[0]?.trim() || 'unknown'] *)
Definition clientIp (r : Request) : list N :=
  match forwarded r with
  | None => lit "unknown"
  | Some f =>
    let ip := JS.trim (nth 0 (JS.split (lit ",") f) []) in
    if bool_decide (ip = []) then lit "unknown" else ip
  end.

(** From [createServerSupabase()] to the last [return] of the [try]. *)
Definition store (w : World) (name : option (list N)) (email : list N)
    (whatsapp : option (list N)) : Logged Response :=
  let db := supabase w in
  do! client := quiet (createServerSupabase db) in
  do! existing := query db (SelectByEmail email) in
  if truthy existing then
    do! id := quiet (getProp (lit "id") existing) in
    do! done := query db (Update id (toISOString w) (Turnstile.filled name)
                            (Turnstile.filled whatsapp) None) in
    pure updated
  else
    do! existingWa :=
      (match Turnstile.filled whatsapp with
       | Some wa => query db (SelectByWhatsapp wa)
       | None => pure VNull
       end) in
    if truthy existingWa then
      do! id := quiet (getProp (lit "id") existingWa) in
      do! done := query db (Update id (toISOString w) (Turnstile.filled name) None
                              (Some email)) in
      pure updated
    else
      do! error := query db (Insert (Turnstile.filled name) email (Turnstile.filled whatsapp)
                               (toISOString w)) in
      if truthy error then
        pure (json (Failure (lit "DB_ERROR") (lit "Erro ao salvar. Tente novamente.")) 500)
      else pure (json (Done (lit "Inscrição realizada com sucesso!")) 200).

Section WithSchema.

Variable subscribeSchema : value -> Parsed.

(** The body of the [try], after the rate limit. *)
Definition handle (w : World) (r : Request) (ip : list N) : Logged Response :=
  do! body := quiet (body r) in
  do! token := quiet (getProp (lit "turnstileToken") body) in
  do! captcha :=
    (let (result, calls) := Turnstile.verifyTurnstile (turnstile w) token (Some ip) in
     (Returned result, map Captcha calls)) in
  if negb (Turnstile.passed captcha) then
    pure (json (Failure (lit "CAPTCHA_FAILED")
                  (lit "Verificação anti-bot falhou. Recarregue a página.")) 403)
  else
    match subscribeSchema body with
    | Rejected firstError =>
      pure (json (Failure (lit "VALIDATION")
                    (match Turnstile.filled firstError with
                     | Some message => message
                     | None => lit "Dados inválidos."
                     end)) 400)
    | Accepted name email whatsapp => store w name email whatsapp
    end.

Definition failed : Response :=
  json (Failure (lit "INTERNAL") (lit "Erro interno do servidor.")) 500.

Definition POST (w : World) (r : Request) (st : RateLimit.State)
  : Response * list Effect * RateLimit.State :=
  let ip := clientIp r in
  match RateLimit.checkRateLimitAsync (upstash w) (now w) (lit "sub:" ++ ip) st with
  | (Thrown _, st) => (failed, [], st)
  | (Returned rl, st) =>
    if negb (RateLimit.allowed rl) then
      ({| status := 429; retryAfter := Some (lit "60");
          payload := Failure (lit "RATE_LIMITED")
                       (lit "Muitas requisições. Aguarde um minuto.") |}, [], st)
    else
      match handle w r ip with
      | (Thrown _, log) => (failed, log, st)
      | (Returned response, log) => (response, log, st)
      end
  end.

End WithSchema.

End Subscribe.

(** ** The earlier analysis endpoint (src/unnamed/part_002,
       app/api/analyze/route.ts) *)

Module Analyze.
Import Pipeline Route.

Section WithPlatform.

Variable SYSTEM_PROMPT : list N.
Variable JSON_parse : list N -> option value.

Definition failed : Response :=
  {| status := 500; retryAfter := None;
     payload := Error (lit "ANALYZE_FAILED")
                  (lit "Falha ao analisar no servidor. Tente novamente.") |}.

(** [body r] is [req.json()] passed through [BodySchema.parse], which
    throws where [safeParse] rejects.  The two blocks that write to the
    store have their own [try]/[catch] and leave [result] as it is. *)
Definition POST (w : World) (r : Request) : Response :=
  if negb (isGeminiConfigured w) then
    {| status := 503; retryAfter := None;
       payload := Error (lit "SERVER_MISCONFIG")
                    (lit "GEMINI_API_KEY nao configurada no servidor (Vercel).") |}
  else
    match body r with
    | Returned (Accepted inputType content) =>
      match analyzePipeline SYSTEM_PROMPT JSON_parse (gemini w) (name inputType) content with
      | Returned result => {| status := 200; retryAfter := None; payload := Result result |}
      | Thrown _ => failed
      end
    | _ => failed
    end.

End WithPlatform.

End Analyze.

(** ** Further worlds and requests for the closed checks *)

Module Cases.

(** A transcription service whose job reads [status] from the [n]-th status
    request on and is in [PROCESSING] before; the subtitles are those of
    [Scenario.subtitles]. *)
Definition settles (n : nat) (status : list N) : Audio.Whisper :=
  {| Audio.WHISPER_SRT_API_KEY := Some (lit "key");
     Audio.upload := fun _ _ => Returned (Scenario.accepted Audio.PROCESSING);
     Audio.poll := fun _ k =>
       Returned (Scenario.polled true 200 (if (k <? n)%nat then Audio.PROCESSING else status));
     Audio.download := fun _ => Returned Scenario.downloaded |}.

(** A model whose reply is [reply], and a [JSON.parse] that reads every
    text as [v]. *)
Definition answering (reply : list N) : Pipeline.Gemini :=
  {| Pipeline.getGemini := Returned ();
     Pipeline.GEMINI_MODEL := None;
     Pipeline.generateContent := fun _ _ => Returned reply;
     Pipeline.randomUUID := lit "123e4567-e89b-12d3-a456-426614174000";
     Pipeline.toISOString := lit "2025-01-01T00:00:00.000Z" |}.

Definition readingAs (v : Pipeline.value) (txt : list N) : option Pipeline.value := Some v.

(** A reply with scores and a verdict, no claims, and a [meta] of its
    own. *)
Definition partial : Pipeline.value :=
  Pipeline.VObj
    [(lit "meta", Pipeline.VObj [(lit "language", Pipeline.str "pt-BR")]);
     (lit "scores", Pipeline.VObj [(lit "fakeProbability", Pipeline.VNum 80%float)]);
     (lit "summary", Pipeline.VObj [(lit "verdict", Pipeline.str "Provavel fake")]);
     (lit "claims", Pipeline.VNull)].

Section Subscription.
Import Pipeline.

(** A table in which the address [known] is registered in row 7 and no
    other address or number is; every query is answered. *)
Definition table (known : list N) : Subscribe.Supabase :=
  {| Subscribe.createServerSupabase := Returned ();
     Subscribe.run := fun q =>
       match q with
       | Subscribe.SelectByEmail e =>
         Returned (if bool_decide (e = known) then VObj [(lit "id", VNum 7%float)] else VNull)
       | _ => Returned VNull
       end |}.

(** A verification service that cannot be reached. *)
Definition unreachable : Turnstile.Service :=
  {| Turnstile.TURNSTILE_SECRET := lit "secret";
     Turnstile.siteverify := fun _ _ _ => Thrown (lit "fetch failed") |}.

Definition site : Subscribe.World :=
  {| Subscribe.upstash := Scenario.inMemory;
     Subscribe.now := 1700000000000;
     Subscribe.turnstile := unreachable;
     Subscribe.supabase := table (lit "ana@example.org");
     Subscribe.toISOString := lit "2025-01-01T00:00:00.000Z" |}.

Definition form : Subscribe.Request :=
  {| Subscribe.forwarded := Some (lit "203.0.113.7");
     Subscribe.body :=
       Returned (VObj [(lit "email", str "ana@example.org");
                       (lit "turnstileToken", str "token")]) |}.

(** A schema that asks for an [email] string and nothing else. *)
Definition emailOnly (b : value) : Subscribe.Parsed :=
  match getProp (lit "email") b with
  | Returned (Some (VStr e)) => Subscribe.Accepted None e None
  | _ => Subscribe.Rejected None
  end.

End Subscription.

End Cases.

(** * Properties *)

(** Two literals differ. *)
Ltac distinct := let H := fresh in intros H; vm_compute in H; discriminate H.

(** ** SHA-256 on the test vectors of FIPS 180-4 *)

Example sha256_empty :
  SHA256.hex_of_string [] =
    lit "e3b0c44298fc1c149afbf4c8996fb92427ae41e4649b934ca495991b7852b855".
Proof. by vm_compute. Qed.

Example sha256_abc :
  SHA256.hex_of_string (lit "abc") =
    lit "ba7816bf8f01cfea414140de5dae2223b00361a396177a9cb410ff61f20015ad".
Proof. by vm_compute. Qed.

Example sha256_two_blocks :
  SHA256.hex_of_string (lit "abcdbcdecdefdefgefghfghighijhijkijkljklmklmnlmnomnopnopq") =
    lit "248d6a61d20638b8e5c026930c3e6039a33ce45964ff2167f6ecedd419db06c1".
Proof. by vm_compute. Qed.

(** ** Rate limiter *)

Section RateLimitFacts.
Import RateLimit.
Implicit Types (h : gmap (list N) (list Z)) (ip : list N) (l ts : list Z).

Lemma stored_insert ip l h : stored ip (<[ip := l]> h) = l.
Proof. unfold stored. by rewrite lookup_insert_eq. Qed.

Lemma stored_insert_ne ip ip' l h : ip' <> ip -> stored ip (<[ip' := l]> h) = stored ip h.
Proof. intros. unfold stored. by rewrite lookup_insert_ne. Qed.

Lemma stored_sweep ip now h : stored ip (sweep now h) = purge now (stored ip h).
Proof.
  unfold stored, sweep. rewrite lookup_omap.
  destruct (h !! ip) as [l|]; simpl; [|done].
  case_decide as E; simpl; [|done].
  symmetry. by apply length_zero_iff_nil.
Qed.

(** The state a check leaves for its caller, and for everyone else. *)
Lemma stored_check ip now h :
  stored ip (inMemoryCheck now ip h).2 =
    if decide (maxRequests <= Z.of_nat (length (purge now (stored ip h))))
    then purge now (stored ip h) else purge now (stored ip h) ++ [now].
Proof.
  unfold inMemoryCheck. fold (stored ip h).
  case_decide; simpl; apply stored_insert.
Qed.

Lemma stored_check_ne ip ip' now h :
  ip' <> ip -> stored ip (inMemoryCheck now ip' h).2 = stored ip h.
Proof.
  intros. unfold inMemoryCheck. case_decide; simpl; by apply stored_insert_ne.
Qed.

Lemma allowed_check ip now h :
  allowed (inMemoryCheck now ip h).1 =
    bool_decide (Z.of_nat (length (purge now (stored ip h))) < maxRequests).
Proof.
  unfold inMemoryCheck. fold (stored ip h).
  case_decide; simpl; symmetry; [apply bool_decide_eq_false | apply bool_decide_eq_true]; lia.
Qed.

Lemma count_app T l1 l2 : count T (l1 ++ l2) = (count T l1 + count T l2)%nat.
Proof. unfold count. by rewrite filter_app, length_app. Qed.

Lemma count_le_length T l : (count T l <= length l)%nat.
Proof. apply length_filter. Qed.

Lemma count_later T l : Forall (fun t => T < t) l -> count T l = 0%nat.
Proof.
  unfold count. induction 1 as [|t l Ht _ IH]; [done|].
  rewrite filter_cons_False; [done|]. unfold inWindow. lia.
Qed.

(** Purging at [now] removes nothing that a window ending at [now] or later
    still holds. *)
Lemma count_purge T now l : now <= T -> count T (purge now l) = count T l.
Proof.
  intros HT. unfold count, purge. induction l as [|t l IH]; [done|].
  destruct (decide (fresh now t)) as [Hf|Hf].
  - rewrite (filter_cons_True (fresh now)) by done.
    destruct (decide (inWindow T t)).
    + rewrite !filter_cons_True by done. simpl. by rewrite IH.
    + rewrite !filter_cons_False by done. done.
  - rewrite (filter_cons_False (fresh now)) by done.
    rewrite (filter_cons_False (inWindow T)); [done|].
    unfold inWindow, fresh in *. lia.
Qed.

Lemma count_purge_le T now l : (count T (purge now l) <= count T l)%nat.
Proof.
  unfold count, purge. induction l as [|t l IH]; [done|].
  destruct (decide (fresh now t)).
  - rewrite (filter_cons_True (fresh now)) by done.
    destruct (decide (inWindow T t)).
    + rewrite !filter_cons_True by done. simpl. lia.
    + rewrite !filter_cons_False by done. done.
  - rewrite (filter_cons_False (fresh now)) by done.
    destruct (decide (inWindow T t)).
    + rewrite filter_cons_True by done. simpl. lia.
    + rewrite filter_cons_False by done. done.
Qed.

Lemma purge_sub now l : Forall (fun t => t <= now) l -> Forall (fun t => t <= now) (purge now l).
Proof.
  rewrite !Forall_forall. intros H t Ht.
  apply list_elem_of_filter in Ht as [_ Ht]. by apply H.
Qed.

Lemma chronological_weaken lo lo' es : lo' <= lo -> chronological lo es -> chronological lo' es.
Proof. destruct es; simpl; [done|]. intros ? [? ?]. split; [lia|done]. Qed.

(** Every allowed check of a chronological run reads the clock at [lo] or
    later. *)
Lemma allowedTimes_later ip es : forall lo h,
  chronological lo es -> Forall (fun t => lo <= t) (allowedTimes ip es h).
Proof.
  induction es as [|e es IH]; intros lo h Hc; [constructor|].
  destruct Hc as [Hlo Hc]. pose proof (IH lo) as IH'.
  assert (Hc' : chronological lo es) by (eapply chronological_weaken; [|done]; done).
  destruct e as [now ip'|now]; simpl in *.
  - destruct (inMemoryCheck now ip' h) as [d h'].
    apply Forall_app. split; [|by apply IH'].
    destruct (bool_decide (ip' = ip) && allowed d); repeat constructor. done.
  - by apply IH'.
Qed.

(** Old timestamps that a purge at [now] drops cannot share a window with
    anything recorded at [now] or later. *)
Lemma count_restore T now l X :
  Forall (fun t => now <= t) X ->
  (count T l <= 10)%nat ->
  (count T (purge now l ++ X) <= 10)%nat ->
  (count T (l ++ X) <= 10)%nat.
Proof.
  intros HX Hl Hp. destruct (decide (now <= T)) as [HT|HT].
  - rewrite count_app in *. by rewrite count_purge in Hp.
  - rewrite count_app, (count_later T X); [lia|].
    eapply Forall_impl; [exact HX|]. simpl. lia.
Qed.

(** The invariant of a run: what is stored for [ip] together with what the
    rest of the run allows never puts more than ten readings into one
    window. *)
Lemma window_invariant ip es : forall lo h,
  chronological lo es ->
  Forall (fun t => t <= lo) (stored ip h) ->
  (forall T, (count T (stored ip h) <= 10)%nat) ->
  forall T, (count T (stored ip h ++ allowedTimes ip es h) <= 10)%nat.
Proof.
  induction es as [|e es IH]; intros lo h Hc Hlo Hcnt T.
  { simpl. rewrite app_nil_r. apply Hcnt. }
  destruct Hc as [Hle Hc].
  assert (Hnow : Forall (fun t => t <= time e) (stored ip h)).
  { eapply Forall_impl; [exact Hlo|]. simpl. lia. }
  destruct e as [now ip'|now]; simpl in *.
  - destruct (decide (ip' = ip)) as [->|Hne].
    + pose proof (stored_check ip now h) as Hst.
      pose proof (allowed_check ip now h) as Hal.
      destruct (inMemoryCheck now ip h) as [d h'] eqn:E. simpl in Hst, Hal.
      rewrite bool_decide_eq_true_2 by done. simpl.
      apply (count_restore T now).
      * rewrite Hal. case_bool_decide; simpl.
        -- constructor; [lia|]. by eapply allowedTimes_later.
        -- by eapply allowedTimes_later.
      * apply Hcnt.
      * rewrite Hal. case_decide as Hfull.
        -- rewrite bool_decide_eq_false_2 by lia. simpl.
           rewrite <- Hst. apply (IH now); [done| |].
           ++ rewrite Hst. by apply purge_sub.
           ++ intros T'. rewrite Hst. etrans; [apply count_purge_le|apply Hcnt].
        -- rewrite bool_decide_eq_true_2 by lia. simpl.
           change (now :: allowedTimes ip es h') with ([now] ++ allowedTimes ip es h').
           rewrite app_assoc, <- Hst. apply (IH now); [done| |].
           ++ rewrite Hst. apply Forall_app. split; [by apply purge_sub|].
              repeat constructor. lia.
           ++ intros T'. rewrite Hst, count_app.
              pose proof (count_le_length T' (purge now (stored ip h))).
              pose proof (count_le_length T' [now]). simpl in *.
              unfold maxRequests in *. lia.
    + pose proof (stored_check_ne ip ip' now h Hne) as Hst.
      destruct (inMemoryCheck now ip' h) as [d h'] eqn:E. simpl in Hst.
      rewrite bool_decide_eq_false_2 by done. simpl.
      rewrite <- Hst. apply (IH now); [done| |]; by rewrite Hst.
  - apply (count_restore T now).
    + by eapply allowedTimes_later.
    + apply Hcnt.
    + rewrite <- stored_sweep. apply (IH now); [done| |].
      * rewrite stored_sweep. by apply purge_sub.
      * intros T'. rewrite stored_sweep. etrans; [apply count_purge_le|apply Hcnt].
Qed.

End RateLimitFacts.

Section RateLimitClaims.
Import RateLimit.
Implicit Types (h : gmap (list N) (list Z)) (ip : list N) (l ts : list Z).

(** A denied check: the purged sequence is written back and nothing is
    appended. *)
Lemma check_denied now ip h :
  maxRequests <= Z.of_nat (length (purge now (stored ip h))) ->
  inMemoryCheck now ip h =
    ({| allowed := false; remaining := 0 |}, <[ip := purge now (stored ip h)]> h).
Proof. intros H. unfold inMemoryCheck. fold (stored ip h). by rewrite decide_True. Qed.

(** An allowed check: the reading is appended to the purged sequence, and
    what remains is the capacity less the new length. *)
Lemma check_allowed now ip h :
  Z.of_nat (length (purge now (stored ip h))) < maxRequests ->
  inMemoryCheck now ip h =
    ({| allowed := true;
        remaining := maxRequests - Z.of_nat (length (purge now (stored ip h) ++ [now])) |},
     <[ip := purge now (stored ip h) ++ [now]]> h).
Proof. intros H. unfold inMemoryCheck. fold (stored ip h). rewrite decide_False by lia. done. Qed.

Lemma purge_all now l : Forall (fresh now) l -> purge now l = l.
Proof.
  unfold purge. induction 1 as [|t l Ht _ IH]; [done|].
  rewrite filter_cons_True by done. by rewrite IH.
Qed.

(** Checks that all fall into the window of the last of them, while there
    is room: each is allowed and recorded. *)
Lemma checks_within ip ts : forall pre h last,
  ts <> [] ->
  stored ip h = pre ->
  Forall (fun t => last - t < windowMs) (pre ++ ts) ->
  Forall (fun t => t <= last) ts ->
  (length (pre ++ ts) <= 10)%nat ->
  checks ip ts h = (grants (length pre) (length ts), <[ip := pre ++ ts]> h).
Proof.
  induction ts as [|t ts IH]; intros pre h last Hne Hpre Hw Hle Hlen; [done|].
  simpl. inversion Hle as [|? ? Ht Hle']; subst.
  assert (Hp : purge t (stored ip h) = stored ip h).
  { apply purge_all. apply Forall_app in Hw as [Hw _].
    eapply Forall_impl; [exact Hw|]. unfold fresh. simpl. lia. }
  rewrite length_app in Hlen. simpl in Hlen.
  rewrite check_allowed by (rewrite Hp; unfold maxRequests; lia).
  rewrite Hp, length_app. simpl. rewrite Nat.add_1_r.
  destruct ts as [|t' ts]; [done|].
  rewrite (IH (stored ip h ++ [t]) (<[ip := stored ip h ++ [t]]> h) last).
  - rewrite length_app. simpl. rewrite Nat.add_1_r.
    by rewrite insert_insert_eq, <- app_assoc.
  - done.
  - apply stored_insert.
  - by rewrite <- app_assoc.
  - done.
  - rewrite !length_app. simpl in *. lia.
Qed.

Lemma checks_app ip ts1 : forall ts2 h,
  checks ip (ts1 ++ ts2) h =
    let (d1, h1) := checks ip ts1 h in
    let (d2, h2) := checks ip ts2 h1 in
    (d1 ++ d2, h2).
Proof.
  induction ts1 as [|t ts1 IH]; intros ts2 h; simpl.
  - by destruct (checks ip ts2 h).
  - destruct (inMemoryCheck t ip h) as [d h']. rewrite IH.
    destruct (checks ip ts1 h') as [d1 h1]. by destruct (checks ip ts2 h1).
Qed.

(** Ten checks inside the window of an eleventh: all ten are allowed, the
    eleventh is denied and leaves the ten timestamps as they are. *)
Lemma eleventh_denied ip h ts now :
  stored ip h = [] ->
  length ts = 10%nat ->
  Forall (fun t => t <= now /\ now - t < windowMs) ts ->
  checks ip (ts ++ [now]) h =
    (grants 0 10 ++ [{| allowed := false; remaining := 0 |}], <[ip := ts]> h).
Proof.
  intros Hst Hlen Hw. rewrite checks_app.
  rewrite (checks_within ip ts [] h now).
  - simpl checks. rewrite Hlen.
    assert (Hp : purge now (stored ip (<[ip := ts]> h)) = ts).
    { rewrite stored_insert. apply purge_all.
      eapply Forall_impl; [exact Hw|]. unfold fresh. simpl. tauto. }
    rewrite check_denied by (rewrite Hp, Hlen; unfold maxRequests; lia).
    rewrite Hp. simpl app at 1. by rewrite insert_insert_eq.
  - intros ->. done.
  - done.
  - simpl. eapply Forall_impl; [exact Hw|]. simpl. tauto.
  - eapply Forall_impl; [exact Hw|]. simpl. tauto.
  - simpl. lia.
Qed.

(** A full sequence whose oldest timestamp alone has left the window: the
    check is allowed, takes the one free slot, and the next is denied. *)
Lemma one_slot_restored ip h t0 rest now :
  stored ip h = t0 :: rest ->
  length rest = 9%nat ->
  ~ fresh now t0 ->
  Forall (fresh now) rest ->
  inMemoryCheck now ip h =
    ({| allowed := true; remaining := 0 |}, <[ip := rest ++ [now]]> h)
  /\ (inMemoryCheck now ip (<[ip := rest ++ [now]]> h)).1 =
       {| allowed := false; remaining := 0 |}.
Proof.
  intros Hst Hlen Hold Hrest.
  assert (Hp : purge now (stored ip h) = rest).
  { rewrite Hst. unfold purge. rewrite filter_cons_False by done. by apply purge_all. }
  split.
  - rewrite check_allowed by (rewrite Hp, Hlen; unfold maxRequests; lia).
    rewrite Hp, length_app, Hlen. done.
  - assert (Hp' : purge now (stored ip (<[ip := rest ++ [now]]> h)) = rest ++ [now]).
    { rewrite stored_insert. apply purge_all. apply Forall_app. split; [done|].
      repeat constructor. unfold fresh, windowMs. lia. }
    rewrite check_denied; [done|].
    rewrite Hp', length_app, Hlen. unfold maxRequests. simpl. lia.
Qed.

(** C3.  In-process sliding window.  (1) In a run whose clock does not run
    backwards, started from the empty map, no window of 60 seconds holds
    more than ten allowed checks of one identifier.  (2) A check that finds
    ten live timestamps is denied with nothing remaining and writes back
    only the purged sequence.  (3) A check that finds fewer is allowed,
    appends its reading, and reports the capacity less the new length.
    (4) The eleventh check inside the window of ten others is denied.
    (5) When only the oldest of ten timestamps has left the window, one
    check is allowed and the next is denied.  (6) Whatever the length, if
    only the oldest timestamp has left the window the purge frees one
    slot. *)
Theorem sliding_window_limit :
  (forall lo es ip T,
     chronological lo es ->
     (length (filter (inWindow T) (allowedTimes ip es ∅)) <= 10)%nat)
  /\ (forall now ip h,
        maxRequests <= Z.of_nat (length (purge now (stored ip h))) ->
        inMemoryCheck now ip h =
          ({| allowed := false; remaining := 0 |}, <[ip := purge now (stored ip h)]> h))
  /\ (forall now ip h,
        Z.of_nat (length (purge now (stored ip h))) < maxRequests ->
        inMemoryCheck now ip h =
          ({| allowed := true;
              remaining :=
                maxRequests - Z.of_nat (length (purge now (stored ip h) ++ [now])) |},
           <[ip := purge now (stored ip h) ++ [now]]> h))
  /\ (forall ip h ts now,
        stored ip h = [] ->
        length ts = 10%nat ->
        Forall (fun t => t <= now /\ now - t < windowMs) ts ->
        checks ip (ts ++ [now]) h =
          (grants 0 10 ++ [{| allowed := false; remaining := 0 |}], <[ip := ts]> h))
  /\ (forall ip h t0 rest now,
        stored ip h = t0 :: rest ->
        length rest = 9%nat ->
        ~ fresh now t0 ->
        Forall (fresh now) rest ->
        inMemoryCheck now ip h =
          ({| allowed := true; remaining := 0 |}, <[ip := rest ++ [now]]> h)
        /\ (inMemoryCheck now ip (<[ip := rest ++ [now]]> h)).1 =
             {| allowed := false; remaining := 0 |})
  /\ (forall now t0 rest,
        ~ fresh now t0 ->
        Forall (fresh now) rest ->
        Z.of_nat (length (purge now (t0 :: rest))) = Z.of_nat (length (t0 :: rest)) - 1).
Proof.
  split; [|split; [|split; [|split; [|split]]]].
  - intros lo es ip T Hc.
    pose proof (window_invariant ip es lo ∅ Hc) as H.
    unfold stored in H. rewrite lookup_empty in H. simpl in H.
    apply H; [constructor|]. intros T'. apply Nat.le_0_l.
  - apply check_denied.
  - apply check_allowed.
  - apply eleventh_denied.
  - apply one_slot_restored.
  - intros now t0 rest Hold Hrest. unfold purge.
    rewrite filter_cons_False by done. fold (purge now rest).
    rewrite purge_all by done. simpl length. lia.
Qed.

(** Eleven requests within ten seconds, then a twelfth a minute after the
    first. *)
Lemma sliding_window_limit_witness :
  let ip := lit "203.0.113.7" in
  let ts := [0; 1000; 2000; 3000; 4000; 5000; 6000; 7000; 8000; 9000] in
  checks ip (ts ++ [10000]) ∅ =
    (grants 0 10 ++ [{| allowed := false; remaining := 0 |}], <[ip := ts]> ∅)
  /\ (inMemoryCheck 60000 ip (<[ip := ts]> ∅)).1 = {| allowed := true; remaining := 0 |}
  /\ (length (filter (inWindow 60000)
                (allowedTimes ip (map (fun t => Check t ip) (ts ++ [10000%Z; 60000%Z])) ∅))
      <= 10)%nat.
Proof.
  intros ip ts.
  destruct sliding_window_limit as (Hwin & _ & _ & H11 & Hslot & _).
  split; [|split].
  - apply H11; [done|done|].
    unfold windowMs. repeat (constructor; [lia|]). constructor.
  - destruct (Hslot ip (<[ip := ts]> ∅) 0 (tail ts) 60000) as [E _].
    + apply stored_insert.
    + done.
    + unfold fresh, windowMs. lia.
    + unfold fresh, windowMs. simpl. repeat (constructor; [lia|]). constructor.
    + rewrite E. done.
  - apply (Hwin 0). simpl. lia.
Defined.

End RateLimitClaims.

Section RateLimitBackend.
Import RateLimit Route.

Lemma getUpstashLimiter_null up st :
  ~ usesBackend up st -> getUpstashLimiter up st = (Returned false, st).
Proof.
  intros H. unfold getUpstashLimiter, usesBackend in *.
  destruct (rateLimiter st); [tauto|].
  destruct (decide (UPSTASH_URL up = [])) as [E|E].
  - by rewrite (bool_decide_eq_true_2 _ E).
  - destruct (decide (UPSTASH_TOKEN up = [])) as [E'|E'].
    + rewrite (bool_decide_eq_true_2 _ E'). by rewrite orb_true_r.
    + tauto.
Qed.

Lemma getUpstashLimiter_client up st :
  usesBackend up st ->
  (getUpstashLimiter up st).1 =
    if rateLimiter st then Returned true
    else match import_client up with
         | Thrown e => Thrown e
         | Returned _ => Returned true
         end.
Proof.
  intros H. unfold getUpstashLimiter, usesBackend in *.
  destruct (rateLimiter st); [done|].
  destruct H as [H|[H1 H2]]; [done|].
  rewrite (bool_decide_eq_false_2 _ H1), (bool_decide_eq_false_2 _ H2). simpl.
  by destruct (import_client up).
Qed.

(** C2, amended.  [checkRateLimitAsync] returns a decision exactly when the
    distributed strategy is not in use, or every call it makes to the
    backend succeeds; it has no handler of its own, so an error of the
    backend is the error of the check, and the route answers it with its
    500 response.  Without the backend the decision is that of the in-memory
    limiter; with it, the backend's [success] and [remaining]. *)
Theorem checkRateLimitAsync_returns_iff up now identifier st :
  ((exists d, (checkRateLimitAsync up now identifier st).1 = Returned d)
   <-> (usesBackend up st -> backendAnswers up st identifier))
  /\ (~ usesBackend up st ->
      (checkRateLimitAsync up now identifier st).1 =
        Returned (inMemoryCheck now identifier (hits st)).1)
  /\ (forall result,
        usesBackend up st ->
        backendAnswers up st identifier ->
        limit up identifier = Returned result ->
        (checkRateLimitAsync up now identifier st).1 =
          Returned {| allowed := success result; remaining := up_remaining result |})
  /\ (forall sanitizeForLLM isValidUrl isYouTubeUrl SYSTEM_PROMPT JSON_parse w r,
        upstash w = up -> Route.now w = now -> clientIp r = identifier ->
        (~ exists d, (checkRateLimitAsync up now identifier st).1 = Returned d) ->
        (Route.POST sanitizeForLLM isValidUrl isYouTubeUrl SYSTEM_PROMPT JSON_parse w r st).1
        = Route.failed).
Proof.
  assert (Hno : ~ usesBackend up st ->
                (checkRateLimitAsync up now identifier st).1 =
                  Returned (inMemoryCheck now identifier (hits st)).1).
  { intros H. unfold checkRateLimitAsync. rewrite getUpstashLimiter_null by done.
    by destruct (inMemoryCheck now identifier (hits st)). }
  assert (Hyes : usesBackend up st ->
                 (checkRateLimitAsync up now identifier st).1 =
                   match (getUpstashLimiter up st).1 with
                   | Thrown e => Thrown e
                   | Returned _ =>
                     match limit up identifier with
                     | Thrown e => Thrown e
                     | Returned result =>
                       Returned {| allowed := success result;
                                   remaining := up_remaining result |}
                     end
                   end).
  { intros H. pose proof (getUpstashLimiter_client up st H) as E.
    unfold checkRateLimitAsync.
    destruct (getUpstashLimiter up st) as [[[|]|e] st']; simpl in *.
    - by destruct (limit up identifier).
    - destruct (rateLimiter st); [done|]. by destruct (import_client up).
    - done. }
  split; [|split; [|split]].
  - assert (Hdec : Decision (usesBackend up st)) by (unfold usesBackend; apply _).
    destruct Hdec as [H|H].
    + rewrite (Hyes H), (getUpstashLimiter_client up st H). unfold backendAnswers.
      split.
      * intros [d Hd] _. destruct (rateLimiter st).
        -- split; [done|]. destruct (limit up identifier); [eauto|done].
        -- destruct (import_client up); [|done].
           split; [eauto|]. destruct (limit up identifier); [eauto|done].
      * intros Hb. destruct (Hb H) as [Hi [result Hr]]. rewrite Hr.
        destruct (rateLimiter st); [eauto|].
        destruct (Hi eq_refl) as [u ->]. eauto.
    + rewrite (Hno H). split; [tauto|eauto].
  - exact Hno.
  - intros result H [Hi _] Hr. rewrite (Hyes H), (getUpstashLimiter_client up st H), Hr.
    destruct (rateLimiter st); [done|]. by destruct (Hi eq_refl) as [u ->].
  - intros ? ? ? ? ? w r <- <- <- Hthrown. unfold Route.POST.
    destruct (checkRateLimitAsync _ _ _ st) as [[d|e] st']; [|done].
    exfalso. apply Hthrown. by exists d.
Qed.

End RateLimitBackend.

Section PollingFacts.
Import Audio.

Lemma pollTrace_S a k :
  pollTrace a (S k) = [Sleep POLL_INTERVAL_MS; Poll (S a)] ++ pollTrace (S a) k.
Proof. done. Qed.

(** The loop always ends, after at most [MAX_POLL_ATTEMPTS - attempts]
    further polls, each preceded by one sleep of [POLL_INTERVAL_MS]; when it
    ends without an error, the status has left [PROCESSING] or the attempts
    are used up. *)
Lemma pollLoop_bounded w id status attempts log :
  exists k, (k <= MAX_POLL_ATTEMPTS - attempts)%nat
    /\ (pollLoop w id status attempts log).2 = log ++ pollTrace attempts k
    /\ match (pollLoop w id status attempts log).1 with
       | Returned (st, a) =>
         a = (attempts + k)%nat /\ (st <> PROCESSING \/ (MAX_POLL_ATTEMPTS <= a)%nat)
       | Thrown _ => (1 <= k)%nat
       end.
Proof.
  funelim (pollLoop w id status attempts log); simpl;
    repeat match goal with H : _ /\ _ |- _ => destruct H end;
    try match goal with
        | IH : forall _, _ |- _ => fail 1
        | IH : exists k, _ |- _ =>
          destruct IH as (k & Hk & Htr & Hres); exists (S k);
          split; [lia|]; split;
          [ rewrite Htr, pollTrace_S, app_assoc; reflexivity
          | match type of Hres with
            | match ?r with _ => _ end =>
              destruct r as [[st' a']|]; [destruct Hres; split; [lia|done] | lia]
            end ]
        end.
  - exists 0%nat. split; [lia|]. split; [by rewrite app_nil_r|].
    split; [lia|]. destruct (decide (status = PROCESSING)); [|by left].
    right. apply Nat.nlt_ge. intros Hlt. apply n. done.
  - exists 1%nat. split; [lia|]. by split.
  - exists 1%nat. split; [lia|]. by split.
Qed.

(** A poll answered with a status other than 2xx uses up an attempt and
    leaves the status as it was. *)
Lemma pollLoop_swallows w id attempts log res :
  (attempts < MAX_POLL_ATTEMPTS)%nat ->
  poll w id (S attempts) = Returned res ->
  r_ok res = false ->
  pollLoop w id PROCESSING attempts log =
    pollLoop w id PROCESSING (S attempts)
      (log ++ [Sleep POLL_INTERVAL_MS; Poll (S attempts)]).
Proof.
  intros Hlt Hp Hok. rewrite pollLoop_equation_1.
  destruct (decide (PROCESSING = PROCESSING /\ (attempts < MAX_POLL_ATTEMPTS)%nat)) as [H|H];
    [|exfalso; apply H; done].
  simpl. rewrite Hp. simpl. rewrite Hok. done.
Qed.

(** A poll whose request or body read throws ends the loop at once. *)
Lemma pollLoop_throws w id attempts log e :
  (attempts < MAX_POLL_ATTEMPTS)%nat ->
  (poll w id (S attempts) = Thrown e
   \/ exists res, poll w id (S attempts) = Returned res
        /\ r_ok res = true /\ r_json res = Thrown e) ->
  pollLoop w id PROCESSING attempts log =
    (Thrown e, log ++ [Sleep POLL_INTERVAL_MS; Poll (S attempts)]).
Proof.
  intros Hlt Hp. rewrite pollLoop_equation_1.
  destruct (decide (PROCESSING = PROCESSING /\ (attempts < MAX_POLL_ATTEMPTS)%nat)) as [H|H];
    [|exfalso; apply H; done].
  simpl. destruct Hp as [Hp|(res & Hp & Hok & Hj)]; rewrite Hp; simpl; [done|].
  rewrite Hok. simpl. by rewrite Hj.
Qed.

(** While every poll is pending the loop runs to the last attempt. *)
Lemma pollLoop_pending w id : forall k attempts log,
  (attempts + k = MAX_POLL_ATTEMPTS)%nat ->
  (forall n, (attempts < n <= MAX_POLL_ATTEMPTS)%nat -> pending w id n) ->
  pollLoop w id PROCESSING attempts log =
    (Returned (PROCESSING, MAX_POLL_ATTEMPTS), log ++ pollTrace attempts k).
Proof.
  induction k as [|k IH]; intros attempts log Hk Hpend; rewrite pollLoop_equation_1.
  - destruct (decide (PROCESSING = PROCESSING /\ (attempts < MAX_POLL_ATTEMPTS)%nat)) as [H|H];
      [lia|].
    simpl. rewrite app_nil_r. do 3 f_equal. lia.
  - destruct (decide (PROCESSING = PROCESSING /\ (attempts < MAX_POLL_ATTEMPTS)%nat)) as [H|H];
      [|exfalso; apply H; split; [done|lia]].
    simpl. destruct (Hpend (S attempts)) as (res & Hp & Hres); [lia|].
    rewrite Hp. simpl.
    destruct Hres as [Hok|[Hok Hj]]; rewrite Hok; simpl; [|rewrite Hj; simpl];
      (rewrite IH; [by rewrite pollTrace_S, app_assoc | lia | intros n Hn; apply Hpend; lia]).
Qed.

Lemma PROCESSING_not_DONE : PROCESSING <> DONE.
Proof. by vm_compute. Qed.

Ltac enter_transcribe H :=
  destruct H as (apiKey & file & res & Hkey & Hne & Hparse & Hup & Hok & Hjob);
  unfold extractAudioTranscript; rewrite Hkey;
  destruct apiKey as [|c apiKey]; [done|];
  rewrite Hparse; unfold transcribe; rewrite Hup, Hok; simpl negb; cbv iota;
  rewrite Hjob; simpl job_id; simpl job_status.

(** A job that stays in [PROCESSING]: sixty polls three seconds apart, then
    the timeout failure. *)
Lemma transcript_times_out w audioDataUrl id :
  submitted w audioDataUrl id ->
  (forall n, (1 <= n <= MAX_POLL_ATTEMPTS)%nat -> pending w id n) ->
  extractAudioTranscript w audioDataUrl =
    (failure (lit "Tempo esgotado aguardando transcrição.") [],
     [Upload] ++ pollTrace 0 MAX_POLL_ATTEMPTS).
Proof.
  intros Hs Hpend. enter_transcribe Hs.
  rewrite (pollLoop_pending w id MAX_POLL_ATTEMPTS 0); [|done|intros n Hn; apply Hpend; lia].
  rewrite (bool_decide_eq_true_2 _ PROCESSING_not_DONE).
  rewrite decide_True by done. done.
Qed.

(** A poll that throws after [n] pending ones: no further poll is made and
    the [catch] clause reports the error. *)
Lemma transcript_poll_error w audioDataUrl id n e :
  submitted w audioDataUrl id ->
  (n < MAX_POLL_ATTEMPTS)%nat ->
  (forall m, (1 <= m <= n)%nat -> pending w id m) ->
  poll w id (S n) = Thrown e ->
  extractAudioTranscript w audioDataUrl =
    (failure (lit "Erro ao transcrever áudio: " ++ messageOr e (lit "erro desconhecido")) [],
     [Upload] ++ pollTrace 0 (S n)).
Proof.
  intros Hs Hn Hpend Hp. enter_transcribe Hs.
  assert (Hloop : forall k a log,
             (a + k = n)%nat ->
             pollLoop w id PROCESSING a log =
               (Thrown e, log ++ pollTrace a (S k))).
  { induction k as [|k IH]; intros a log Hk.
    - assert (a = n) as -> by lia. rewrite (pollLoop_throws w id n log e); [done|done|by left].
    - destruct (Hpend (S a)) as (r & Hr & Hres); [lia|].
      rewrite pollLoop_equation_1.
      destruct (decide (PROCESSING = PROCESSING /\ (a < MAX_POLL_ATTEMPTS)%nat)) as [H|H];
        [|exfalso; apply H; split; [done|lia]].
      simpl. rewrite Hr. simpl.
      destruct Hres as [Hok'|[Hok' Hj]]; rewrite Hok'; simpl; [|rewrite Hj; simpl];
        (rewrite IH by lia; by rewrite (pollTrace_S a), app_assoc). }
  rewrite (Hloop n 0%nat) by lia. done.
Qed.

(** What one call does to the outside: nothing, or one upload, at most
    [MAX_POLL_ATTEMPTS] polls each after one sleep of [POLL_INTERVAL_MS],
    and at most one download. *)
Lemma transcript_effects w audioDataUrl :
  (extractAudioTranscript w audioDataUrl).2 = []
  \/ exists k post,
       (k <= MAX_POLL_ATTEMPTS)%nat
       /\ (extractAudioTranscript w audioDataUrl).2 = [Upload] ++ pollTrace 0 k ++ post
       /\ (post = [] \/ post = [Download]).
Proof.
  unfold extractAudioTranscript.
  destruct (WHISPER_SRT_API_KEY w) as [[|c apiKey]|]; [by left| |by left].
  destruct (parseAudioDataUrl audioDataUrl) as [file|]; [|by left].
  right. unfold transcribe.
  destruct (upload w (c :: apiKey) file) as [uploadRes|e];
    [|exists 0%nat, []; split; [lia|]; split; [done|by left]].
  destruct (r_ok uploadRes); simpl negb; cbv iota.
  2:{ destruct (r_text uploadRes); exists 0%nat, []; (split; [lia|]; split; [done|by left]). }
  destruct (r_json uploadRes) as [job|e];
    [|exists 0%nat, []; split; [lia|]; split; [done|by left]].
  destruct (pollLoop_bounded w (job_id job) (job_status job) 0 [Upload])
    as (k & Hk & Htr & _).
  destruct (pollLoop w (job_id job) (job_status job) 0 [Upload]) as [[[status attempts]|e] log];
    simpl in Htr; subst log.
  2:{ exists k, []. split; [lia|]. rewrite app_nil_r. split; [done|by left]. }
  case_bool_decide.
  { exists k, []. split; [lia|]. rewrite app_nil_r. split; [done|by left]. }
  exists k, [Download]. split; [lia|]. split; [|by right].
  destruct (download w (job_id job)) as [downloadRes|e]; [|done].
  destruct (r_ok downloadRes); simpl negb; cbv iota; [|done].
  destruct (r_text downloadRes); [|done].
  by case_decide.
Qed.

(** C4, amended.  The poll loop is bounded: one call polls at most sixty
    times, each poll after a three-second sleep.  A poll answered with a
    status other than 2xx is passed over: it uses up an attempt and leaves
    the job status unchanged.  A poll whose request throws (a network
    error) is not passed over: polling stops there and the call returns the
    failure of its [catch] clause.  If the status never leaves
    [PROCESSING], the call makes exactly sixty polls and returns the
    timeout failure. *)
Theorem polling_is_bounded :
  (forall w audioDataUrl,
     (extractAudioTranscript w audioDataUrl).2 = []
     \/ exists k post,
          (k <= MAX_POLL_ATTEMPTS)%nat
          /\ (extractAudioTranscript w audioDataUrl).2 = [Upload] ++ pollTrace 0 k ++ post
          /\ (post = [] \/ post = [Download]))
  /\ (forall w id attempts log res,
        (attempts < MAX_POLL_ATTEMPTS)%nat ->
        poll w id (S attempts) = Returned res ->
        r_ok res = false ->
        pollLoop w id PROCESSING attempts log =
          pollLoop w id PROCESSING (S attempts)
            (log ++ [Sleep POLL_INTERVAL_MS; Poll (S attempts)]))
  /\ (forall w audioDataUrl id n e,
        submitted w audioDataUrl id ->
        (n < MAX_POLL_ATTEMPTS)%nat ->
        (forall m, (1 <= m <= n)%nat -> pending w id m) ->
        poll w id (S n) = Thrown e ->
        extractAudioTranscript w audioDataUrl =
          (failure (lit "Erro ao transcrever áudio: " ++ messageOr e (lit "erro desconhecido"))
             [],
           [Upload] ++ pollTrace 0 (S n)))
  /\ (forall w audioDataUrl id,
        submitted w audioDataUrl id ->
        (forall n, (1 <= n <= MAX_POLL_ATTEMPTS)%nat -> pending w id n) ->
        extractAudioTranscript w audioDataUrl =
          (failure (lit "Tempo esgotado aguardando transcrição.") [],
           [Upload] ++ pollTrace 0 MAX_POLL_ATTEMPTS)
        /\ length (filter (fun e => isPoll e = true)
                     (extractAudioTranscript w audioDataUrl).2) = MAX_POLL_ATTEMPTS).
Proof.
  split; [exact transcript_effects|].
  split; [exact pollLoop_swallows|].
  split; [exact transcript_poll_error|].
  intros w audioDataUrl id Hs Hpend.
  rewrite (transcript_times_out w audioDataUrl id Hs Hpend). split; [done|].
  by vm_compute.
Qed.

Lemma submitted_stuck : submitted Scenario.stuck Scenario.clip (lit "job-1").
Proof.
  eexists _, _, _. split; [reflexivity|]. split; [done|].
  split; [by vm_compute|]. split; [reflexivity|]. split; reflexivity.
Qed.

Lemma pending_stuck n : pending Scenario.stuck (lit "job-1") n.
Proof.
  unfold pending. simpl. eexists. split; [reflexivity|].
  destruct (Nat.even n); [by left|by right].
Qed.

(** The job of [Scenario.stuck] is polled sixty times over 180 seconds and
    then given up. *)
Lemma polling_is_bounded_witness :
  extractAudioTranscript Scenario.stuck Scenario.clip =
    (failure (lit "Tempo esgotado aguardando transcrição.") [],
     [Upload] ++ pollTrace 0 MAX_POLL_ATTEMPTS).
Proof.
  destruct polling_is_bounded as (_ & _ & _ & H).
  apply (H Scenario.stuck Scenario.clip (lit "job-1")).
  - exact submitted_stuck.
  - intros n _. apply pending_stuck.
Defined.

(** C4 as stated fails on a network error: the first poll of
    [Scenario.flaky] throws, and although the job would be [DONE] at the
    second poll, no second poll is made; the error is not passed over the
    way a non-2xx answer is. *)
Lemma poll_network_error_not_swallowed :
  extractAudioTranscript Scenario.flaky Scenario.clip =
    (failure (lit "Erro ao transcrever áudio: fetch failed") [],
     [Upload; Sleep 3000; Poll 1])
  /\ pollLoop Scenario.flaky (lit "job-1") PROCESSING 0 [Upload] <>
       pollLoop Scenario.flaky (lit "job-1") PROCESSING 1
         ([Upload] ++ [Sleep POLL_INTERVAL_MS; Poll 1]).
Proof. split; by vm_compute. Qed.

End PollingFacts.

(** ** Subtitle parsing *)

Section StringFacts.
Local Open Scope N_scope.




(** Where the separator does not occur, [split] returns the string whole. *)
Lemma split_go_absent sep s : forall cur,
  JS.includes sep s = false -> JS.split_go sep 0 cur s = [rev cur ++ s].
Proof.
  induction s as [|c s IH]; intros cur H.
  - simpl. by rewrite app_nil_r.
  - cbn [JS.includes] in H. apply orb_false_iff in H as [H1 H2].
    cbn [JS.split_go]. rewrite H1, IH by done. simpl. by rewrite <- app_assoc.
Qed.

Lemma split_absent sep s : JS.includes sep s = false -> JS.split sep s = [s].
Proof. intros H. unfold JS.split. by rewrite split_go_absent. Qed.

Lemma includes_suffix p a s : JS.includes p s = true -> JS.includes p (a ++ s) = true.
Proof.
  intros H. induction a as [|c a IH]; [done|].
  simpl app. cbn [JS.includes]. rewrite IH. apply orb_true_r.
Qed.

Lemma startsWith_prefix p s t : JS.startsWith p s = true -> JS.startsWith p (s ++ t) = true.
Proof.
  revert s. induction p as [|a p IH]; intros s; [done|].
  destruct s as [|b s]; simpl; [done|].
  rewrite !andb_true_iff. intros [? ?]. split; [done|by apply IH].
Qed.

Lemma includes_prefix p s t : JS.includes p s = true -> JS.includes p (s ++ t) = true.
Proof.
  induction s as [|c s IH].
  - cbn [JS.includes]. rewrite orb_false_r. destruct p; [|done].
    intros _. by destruct t.
  - simpl app. cbn [JS.includes]. rewrite !orb_true_iff. intros [H|H].
    + left. by apply (startsWith_prefix p (c :: s) t).
    + right. by apply IH.
Qed.

Lemma trimStart_suffix s : exists a, s = a ++ JS.trimStart s.
Proof.
  induction s as [|c s [a IH]]; [by exists []|].
  simpl. destruct (JS.isWhiteSpace c).
  - exists (c :: a). simpl. by rewrite <- IH.
  - by exists [].
Qed.

Lemma trimEnd_prefix s : exists t, s = JS.trimEnd s ++ t.
Proof.
  unfold JS.trimEnd. destruct (trimStart_suffix (rev s)) as [a H].
  exists (rev a). rewrite <- rev_app_distr, <- H. by rewrite rev_involutive.
Qed.

Lemma includes_trim p s : JS.includes p (JS.trim s) = true -> JS.includes p s = true.
Proof.
  unfold JS.trim. intros H.
  destruct (trimStart_suffix s) as [a Ha]. rewrite Ha. apply includes_suffix.
  destruct (trimEnd_prefix (JS.trimStart s)) as [t Ht]. rewrite Ht.
  by apply includes_prefix.
Qed.

(** A two-unit text, neither unit white space, such as a surrogate pair. *)
Section Pair.
Variables hi lo : N.
Hypothesis hi_solid : JS.isWhiteSpace hi = false.
Hypothesis lo_solid : JS.isWhiteSpace lo = false.






End Pair.

End StringFacts.

Section SubtitleFacts.
Import Audio.

Lemma srtToJson_fold blocks : forall entries,
  fold_left
    (fun entries block =>
       match parseBlock block with
       | None => entries
       | Some e => entries ++ [e]
       end) blocks entries
  = entries ++ omap parseBlock blocks.
Proof.
  induction blocks as [|b blocks IH]; intros entries; simpl.
  - by rewrite app_nil_r.
  - rewrite IH. destruct (parseBlock b); [by rewrite <- app_assoc|done].
Qed.

(** The loop of [srtToJson] keeps, in order, what [parseBlock] makes of
    each block. *)
Lemma srtToJson_blocks srt :
  srtToJson srt = omap parseBlock (splitBlocks (JS.trim srt)).
Proof. unfold srtToJson. by rewrite srtToJson_fold. Qed.













End SubtitleFacts.

(** ** Caption extractor *)

Section CaptionFacts.
Import YouTube.

Lemma slice_length (n : Z) (s : list N) :
  0 <= n -> n <= Z.of_nat (length s) -> Z.of_nat (length (JS.slice 0 n s)) = n.
Proof.
  intros H0 Hn. unfold JS.slice. change (Z.to_nat 0) with 0%nat.
  rewrite drop_0, length_take. lia.
Qed.

Lemma buildTranscriptResult_cases text videoId url warnings :
  let cleaned := clean text in
  buildTranscriptResult text videoId url warnings =
    if decide (Z.of_nat (length cleaned) < 100) then failure TOO_SHORT warnings
    else if decide (10000 < Z.of_nat (length cleaned)) then
      {| ok := true; text := Some (header videoId ++ JS.slice 0 10000 cleaned);
         title := Some (lit "Vídeo YouTube: " ++ videoId); sourceUrl := Some url;
         warnings := warnings ++ [TRUNCATED]; error := None |}
    else
      {| ok := true; text := Some (header videoId ++ cleaned);
         title := Some (lit "Vídeo YouTube: " ++ videoId); sourceUrl := Some url;
         warnings := warnings; error := None |}.
Proof.
  intros cleaned. unfold buildTranscriptResult. fold cleaned.
  destruct (decide (Z.of_nat (length cleaned) < 100)); [reflexivity|].
  destruct (decide (10000 < Z.of_nat (length cleaned))); reflexivity.
Qed.

Lemma buildTranscriptResult_warnings text videoId url warnings w :
  w ∈ warnings -> w ∈ YouTube.warnings (buildTranscriptResult text videoId url warnings).
Proof.
  intros Hw. rewrite buildTranscriptResult_cases. cbv zeta.
  destruct (decide (Z.of_nat (length (clean text)) < 100)); [exact Hw|].
  destruct (decide (10000 < Z.of_nat (length (clean text)))); [|exact Hw].
  cbn [YouTube.warnings]. apply elem_of_app. by left.
Qed.

(** C7.  The length policy of [buildTranscriptResult], on the text as
    cleaned (white space collapsed, entities decoded, trimmed): under 100
    code units the result is the failure "Inconclusivo: transcrição muito
    curta"; over 10,000 the text is cut to its first 10,000 units and the
    truncation warning is appended; in between the text is kept whole and
    the warnings are untouched. *)
Theorem transcript_length_policy text videoId url warnings :
  let cleaned := clean text in
  let r := buildTranscriptResult text videoId url warnings in
  (Z.of_nat (length cleaned) < 100 ->
     r = failure TOO_SHORT warnings /\ JS.startsWith (lit "Inconclusivo") TOO_SHORT = true)
  /\ (10000 < Z.of_nat (length cleaned) ->
        ok r = true
        /\ YouTube.text r = Some (header videoId ++ JS.slice 0 10000 cleaned)
        /\ Z.of_nat (length (JS.slice 0 10000 cleaned)) = 10000
        /\ YouTube.warnings r = warnings ++ [TRUNCATED])
  /\ (100 <= Z.of_nat (length cleaned) <= 10000 ->
        ok r = true
        /\ YouTube.text r = Some (header videoId ++ cleaned)
        /\ YouTube.warnings r = warnings).
Proof.
  intros cleaned r. subst r. rewrite buildTranscriptResult_cases. cbv zeta. fold cleaned.
  split; [|split]; intros H.
  - rewrite decide_True by lia. split; reflexivity.
  - rewrite decide_False by lia. rewrite decide_True by lia.
    split; [reflexivity|]. split; [reflexivity|]. split; [|reflexivity].
    apply slice_length; lia.
  - rewrite decide_False by lia. rewrite decide_False by lia.
    split; [reflexivity|]. split; reflexivity.
Qed.

Lemma transcript_length_policy_witness :
  buildTranscriptResult (lit "muito   curto") (lit "abc12345678") Scenario.watch [] =
    failure TOO_SHORT []
  /\ YouTube.warnings
       (buildTranscriptResult (replicate (Z.to_nat 10050) 97%N) (lit "abc12345678")
          Scenario.watch []) = [TRUNCATED]
  /\ YouTube.text (buildTranscriptResult Scenario.speech (lit "abc12345678") Scenario.watch [])
     = Some (header (lit "abc12345678") ++ Scenario.speech).
Proof.
  split; [|split].
  - destruct (transcript_length_policy (lit "muito   curto") (lit "abc12345678")
                Scenario.watch []) as (H & _ & _).
    apply H. vm_compute. reflexivity.
  - destruct (transcript_length_policy (replicate (Z.to_nat 10050) 97%N) (lit "abc12345678")
                Scenario.watch []) as (_ & H & _).
    apply H. vm_compute. reflexivity.
  - destruct (transcript_length_policy Scenario.speech (lit "abc12345678")
                Scenario.watch []) as (_ & _ & H).
    apply H. vm_compute. split; discriminate.
Defined.

(** C6.  When the fetch for Portuguese captions returns no items, the
    extractor makes one more fetch, without a language, and no other.  If
    that one too has nothing, or throws, the result is the "no transcript"
    failure; if it has items, the result is built from them and its
    warnings, failure or not, hold the note on the fallback language. *)
Theorem caption_fallback c url videoId items :
  matchVideoId url = Some videoId ->
  (exists u, import_package c = Returned u) ->
  fetchTranscript c videoId (Some (lit "pt")) = Returned items ->
  noItems items = true ->
  let (r, calls) := extractYouTubeTranscript c url in
  calls = [Fetch videoId (Some (lit "pt")); Fetch videoId None]
  /\ match fetchTranscript c videoId None with
     | Returned (Some (i :: rest)) =>
       r = buildTranscriptResult (joinItems (i :: rest)) videoId url [FALLBACK_LANGUAGE]
       /\ FALLBACK_LANGUAGE ∈ YouTube.warnings r
     | _ => r = failure NO_TRANSCRIPT []
     end.
Proof.
  intros Hid [u Hi] Hpt Hno. unfold extractYouTubeTranscript.
  rewrite Hid, Hi, Hpt, Hno.
  destruct (fetchTranscript c videoId None) as [[[|i rest]|]|e];
    cbn [noItems default]; cbv iota; try (split; reflexivity).
  split; [reflexivity|]. split; [reflexivity|].
  apply buildTranscriptResult_warnings. apply list_elem_of_singleton. reflexivity.
Qed.

Lemma caption_fallback_witness :
  extractYouTubeTranscript Scenario.englishOnly Scenario.watch =
    (buildTranscriptResult Scenario.speech (lit "abc12345678") Scenario.watch
       [FALLBACK_LANGUAGE],
     [Fetch (lit "abc12345678") (Some (lit "pt")); Fetch (lit "abc12345678") None]).
Proof.
  pose proof (caption_fallback Scenario.englishOnly Scenario.watch (lit "abc12345678")
                (Some [])) as H.
  destruct (extractYouTubeTranscript Scenario.englishOnly Scenario.watch) as [r calls].
  destruct H as [-> [-> _]]; try reflexivity. by exists ().
Defined.

End CaptionFacts.

(** ** Analysis pipeline *)

Section PipelineFacts.
Import Pipeline.

Lemma lookup_assign k x props : lookup k (assign k x props) = Some x.
Proof.
  induction props as [|[k' v] props IH]; simpl.
  - by rewrite bool_decide_eq_true_2.
  - case_bool_decide; simpl; [by rewrite bool_decide_eq_true_2|].
    by rewrite bool_decide_eq_false_2.
Qed.

Lemma lookup_assign_ne k k' x props : k <> k' -> lookup k' (assign k x props) = lookup k' props.
Proof.
  intros Hne. induction props as [|[k'' v] props IH]; simpl.
  - by rewrite bool_decide_eq_false_2.
  - case_bool_decide as E; simpl.
    + subst k''. by rewrite !bool_decide_eq_false_2.
    + by rewrite IH.
Qed.

(** A successful assignment is read back, and leaves other properties as
    they were. *)
Lemma getProp_setProp k x v v' : setProp k x v = Returned v' -> getProp k v' = Returned (Some x).
Proof. destruct v; simpl; intros [= <-]; simpl; by rewrite lookup_assign. Qed.

Lemma getProp_setProp_ne k k' x v v' :
  k <> k' -> setProp k x v = Returned v' -> getProp k' v' = getProp k' v.
Proof. intros Hne. destruct v; simpl; intros [= <-]; simpl; by rewrite lookup_assign_ne. Qed.

Lemma getProp_orDefault_ne k k' d v v' :
  k <> k' -> orDefault k d v = Returned v' -> getProp k' v' = getProp k' v.
Proof.
  intros Hne. unfold orDefault. destruct (getProp k v); [|done].
  by apply getProp_setProp_ne.
Qed.

Lemma path_setInner k f x v v' :
  setInner k f x v = Returned v' -> path [k; f] v' = Some x.
Proof.
  unfold setInner. destruct (getProp k v) as [[inner|]|] eqn:E; [|done|done].
  destruct (setProp f x inner) as [inner'|] eqn:E'; [|done].
  intros H. simpl. rewrite (getProp_setProp _ _ _ _ H).
  by rewrite (getProp_setProp _ _ _ _ E').
Qed.

Lemma path_setInner_ne k f f' x v v' y :
  f <> f' -> setInner k f x v = Returned v' -> path [k; f'] v = Some y ->
  path [k; f'] v' = Some y.
Proof.
  intros Hne. unfold setInner. simpl.
  destruct (getProp k v) as [[inner|]|] eqn:E; [|done|done].
  destruct (setProp f x inner) as [inner'|] eqn:E'; [|done].
  intros H. rewrite (getProp_setProp _ _ _ _ H).
  by rewrite (getProp_setProp_ne _ _ _ _ _ Hne E').
Qed.

Lemma path_meta_setProp_ne k x v v' f y :
  k <> lit "meta" -> setProp k x v = Returned v' ->
  path [lit "meta"; f] v = Some y -> path [lit "meta"; f] v' = Some y.
Proof. intros Hne H. simpl. by rewrite (getProp_setProp_ne _ _ _ _ _ Hne H). Qed.

(** Whatever [complete] returns carries [ok] and the fingerprint. *)
Lemma complete_sets g inputType fingerprint parsed v :
  complete g inputType fingerprint parsed = Returned v ->
  path [lit "ok"] v = Some (VBool true)
  /\ path [lit "meta"; lit "fingerprint"] v = Some (VStr fingerprint).
Proof.
  unfold complete, bind.
  repeat match goal with
         | |- context [match ?o with Returned _ => _ | Thrown _ => _ end] =>
           destruct o eqn:?; [|done]
         end.
  intros H. split.
  - simpl. by rewrite (getProp_setProp _ _ _ _ H).
  - apply (path_meta_setProp_ne (lit "ok") _ _ _ _ _ ltac:(distinct) H).
    by eapply path_setInner.
Qed.

Lemma setProp_objectLike k x v :
  objectLike v = true -> exists v', setProp k x v = Returned v' /\ objectLike v' = true.
Proof. destruct v; try done; intros _; simpl; eauto. Qed.

Lemma setProp_Returned k x v v' : setProp k x v = Returned v' -> objectLike v = true.
Proof. by destruct v. Qed.

Lemma orDefault_objectLike k d v :
  objectLike v = true -> exists v', orDefault k d v = Returned v' /\ objectLike v' = true.
Proof.
  intros H. unfold orDefault. destruct v; try done; simpl; eauto.
Qed.

Lemma orDefault_Returned k d v v' : orDefault k d v = Returned v' -> objectLike v = true.
Proof.
  unfold orDefault. destruct (getProp k v); [|done]. apply setProp_Returned.
Qed.

(** The value [orDefault] leaves under its key. *)
Lemma getProp_orDefault k d v v' :
  orDefault k d v = Returned v' ->
  getProp k v' =
    Returned (Some match getProp k v with
                   | Returned (Some c) => if truthy c then c else d
                   | _ => d
                   end).
Proof.
  unfold orDefault. destruct (getProp k v) as [[c|]|]; [| |done]; apply getProp_setProp.
Qed.

(** [complete] returns exactly on the replies that [completes] accepts. *)
Lemma complete_returns_iff g inputType fingerprint parsed :
  (exists v, complete g inputType fingerprint parsed = Returned v)
  <-> completes parsed = true.
Proof.
  unfold complete, bind, completes.
  destruct (objectLike parsed) eqn:Hobj; simpl.
  2:{ split; [|done]. intros [v H].
      destruct (orDefault (lit "meta") _ parsed) as [p1|] eqn:E1; [|done].
      apply orDefault_Returned in E1. congruence. }
  destruct (orDefault_objectLike (lit "meta") (metaDefault g inputType []) parsed Hobj)
    as (p1 & E1 & O1).
  pose proof (getProp_orDefault _ _ _ _ E1) as M1. rewrite E1.
  repeat match goal with
         | O : objectLike ?p = true |- context [orDefault ?k ?d ?p] =>
           let p' := fresh "p" in let E := fresh "E" in let O' := fresh "O" in
           destruct (orDefault_objectLike k d p O) as (p' & E & O');
           rewrite E;
           let M := fresh "M" in
           pose proof (getProp_orDefault_ne k (lit "meta") d p p' ltac:(distinct) E) as M;
           clear O
         end.
  match goal with
  | O : objectLike ?p = true |- context [setInner _ _ _ ?p] =>
    rename p into q; rename O into Oq
  end.
  assert (Hmeta : getProp (lit "meta") q =
                  Returned (Some match getProp (lit "meta") parsed with
                                 | Returned (Some c) =>
                                   if truthy c then c else metaDefault g inputType []
                                 | _ => metaDefault g inputType []
                                 end)) by congruence.
  assert (Hdone : forall m, objectLike m = true ->
            exists v,
              match
                match setProp (lit "fingerprint") (VStr fingerprint) m with
                | Returned inner' => setProp (lit "meta") inner' q
                | Thrown e => Thrown e
                end
              with
              | Returned a => setProp (lit "ok") (VBool true) a
              | Thrown e => Thrown e
              end = Returned v).
  { intros m Om.
    destruct (setProp_objectLike (lit "fingerprint") (VStr fingerprint) m Om)
      as (m' & -> & _).
    destruct (setProp_objectLike (lit "meta") m' q Oq) as (q' & -> & Oq').
    destruct (setProp_objectLike (lit "ok") (VBool true) q' Oq') as (v & -> & _).
    eauto. }
  unfold setInner. rewrite Hmeta.
  destruct (getProp (lit "meta") parsed) as [[m|]|] eqn:Em.
  - destruct (truthy m) eqn:Et; simpl negb; simpl orb.
    + destruct (objectLike m) eqn:Om.
      * split; [done|]. intros _. by apply Hdone.
      * split; [|done]. intros [v H]. destruct m; done.
    + split; [done|]. intros _. by apply Hdone.
  - split; [done|]. intros _. by apply Hdone.
  - destruct parsed; done.
Qed.

(** C10.  [analyzePipeline] never returns a failure object: whatever it
    returns has [ok] set to [true] and [meta.fingerprint] set to the SHA-256
    hex digest of its [content] argument.  When the model's reply is not
    parseable JSON it does return: the fixed object of the [catch] clause
    (verdict "Inconclusivo", scores 50, 20, 40, 30, no claims), with the
    fingerprint and [ok] added.  When the reply does parse, the pipeline
    returns exactly if the parsed value is an object or array whose [meta]
    is absent, falsy, or itself an object or array; otherwise it throws. *)
Theorem analyzePipeline_never_reports_failure
    (SYSTEM_PROMPT : list N) (JSON_parse : list N -> option value)
    (g : Gemini) (inputType content : list N) :
  (forall v,
     analyzePipeline SYSTEM_PROMPT JSON_parse g inputType content = Returned v ->
     path [lit "ok"] v = Some (VBool true)
     /\ path [lit "meta"; lit "fingerprint"] v = Some (VStr (SHA256.hex_of_string content)))
  /\ (forall u response,
        getGemini g = Returned u ->
        generateContent g (default (lit "gemini-2.0-flash") (GEMINI_MODEL g))
          (buildParts SYSTEM_PROMPT inputType content) = Returned response ->
        JSON_parse (unfenced response) = None ->
        exists v,
          analyzePipeline SYSTEM_PROMPT JSON_parse g inputType content = Returned v
          /\ complete g inputType (SHA256.hex_of_string content) (fallback g inputType)
             = Returned v
          /\ path [lit "ok"] v = Some (VBool true)
          /\ path [lit "meta"; lit "fingerprint"] v
             = Some (VStr (SHA256.hex_of_string content))
          /\ path [lit "summary"; lit "verdict"] v = Some (str "Inconclusivo")
          /\ path [lit "scores"] v
             = Some (VObj [(lit "fakeProbability", VNum 50%float);
                           (lit "verifiableTruth", VNum 20%float);
                           (lit "biasFraming", VNum 40%float);
                           (lit "manipulationRisk", VNum 30%float)])
          /\ path [lit "claims"] v = Some (VArr [] []))
  /\ (forall u response parsed,
        getGemini g = Returned u ->
        generateContent g (default (lit "gemini-2.0-flash") (GEMINI_MODEL g))
          (buildParts SYSTEM_PROMPT inputType content) = Returned response ->
        JSON_parse (unfenced response) = Some parsed ->
        (exists v, analyzePipeline SYSTEM_PROMPT JSON_parse g inputType content = Returned v)
        <-> completes parsed = true).
Proof.
  split; [|split].
  - intros v. unfold analyzePipeline, bind.
    destruct (getGemini g); [|done].
    destruct (generateContent g _ _); [|done].
    apply complete_sets.
  - intros u response Hg Hr Hp. unfold analyzePipeline, bind.
    rewrite Hg, Hr, Hp.
    set (fp := SHA256.hex_of_string content). clearbody fp.
    eexists. split; [vm_compute; reflexivity|].
    split; [vm_compute; reflexivity|].
    repeat split; vm_compute; reflexivity.
  - intros u response parsed Hg Hr Hp. unfold analyzePipeline, bind.
    rewrite Hg, Hr, Hp. apply complete_returns_iff.
Qed.

(** A reply that parses, but to [null], makes the pipeline throw: the
    caller's [catch] answers 500. *)
Lemma analyzePipeline_null_reply SYSTEM_PROMPT JSON_parse g inputType content u response :
  getGemini g = Returned u ->
  generateContent g (default (lit "gemini-2.0-flash") (GEMINI_MODEL g))
    (buildParts SYSTEM_PROMPT inputType content) = Returned response ->
  JSON_parse (unfenced response) = Some VNull ->
  analyzePipeline SYSTEM_PROMPT JSON_parse g inputType content = Thrown TypeError.
Proof.
  intros Hg Hr Hp. unfold analyzePipeline, bind. by rewrite Hg, Hr, Hp.
Qed.

(** ** What [JSON.stringify] keeps *)

Lemma lookup_stringified k props :
  lookup k (map (fun kv => (kv.1, JSON_stringify kv.2)) props)
  = JSON_stringify <$> lookup k props.
Proof.
  induction props as [|[k' v] r IH]; [done|].
  cbn [map lookup fst snd]. by destruct (bool_decide (k = k')).
Qed.

Lemma stringified_path km kf v f :
  path [km; kf] v = Some (VStr f) ->
  path [km; kf] (JSON_stringify v)
  = match v with
    | VObj props =>
      match lookup km props with
      | Some (VObj _) => Some (VStr f)
      | _ => None
      end
    | _ => None
    end.
Proof.
  intros H. destruct v as [| | | |items props|props];
    cbn [path getProp JSON_stringify lookup] in *; try done.
  rewrite lookup_stringified. destruct (lookup km props) as [m|]; [|done].
  cbn [fmap option_fmap option_map].
  destruct m as [| | | |items mp|mp];
    cbn [path getProp JSON_stringify lookup] in *; try done.
  rewrite lookup_stringified. destruct (lookup kf mp) as [y|]; [|done].
  by injection H as ->.
Qed.

(** A fingerprint that the result holds is in the body exactly when the
    result and its [meta] are objects, not arrays. *)
Lemma stringified_fingerprint v f :
  path [lit "meta"; lit "fingerprint"] v = Some (VStr f) ->
  path [lit "meta"; lit "fingerprint"] (JSON_stringify v)
  = if Route.plainMeta v then Some (VStr f) else None.
Proof.
  intros H. rewrite (stringified_path _ _ _ _ H). unfold Route.plainMeta.
  destruct v as [| | | |items props|props]; try done.
  by destruct (lookup (lit "meta") props) as [[]|].
Qed.

End PipelineFacts.

(** ** The endpoint *)

Section RouteFacts.
Import Pipeline Route.

Variable sanitizeForLLM : list N -> Z -> list N.
Variable isValidUrl : list N -> bool.
Variable isYouTubeUrl : list N -> bool.
Variable SYSTEM_PROMPT : list N.
Variable JSON_parse : list N -> option value.

#[local] Abbreviation POST := (Route.POST sanitizeForLLM isValidUrl isYouTubeUrl SYSTEM_PROMPT JSON_parse).
#[local] Abbreviation handle := (Route.handle sanitizeForLLM isValidUrl isYouTubeUrl SYSTEM_PROMPT JSON_parse).
#[local] Abbreviation analyze := (Route.analyze SYSTEM_PROMPT JSON_parse).
#[local] Abbreviation extract := (Route.extract isValidUrl isYouTubeUrl).
#[local] Abbreviation sanitize := (Route.sanitize sanitizeForLLM).

(** A [meta] that has a property is an object or an array, hence truthy. *)
Lemma getProp_Some_truthy k m x : getProp k m = Returned (Some x) -> truthy m = true.
Proof. by destruct m. Qed.

Lemma path_meta_orDefault d f v v' x :
  path [lit "meta"; f] v = Some x ->
  orDefault (lit "meta") d v = Returned v' ->
  path [lit "meta"; f] v' = Some x.
Proof.
  simpl. unfold orDefault.
  destruct (getProp (lit "meta") v) as [[m|]|] eqn:E; [|done|done].
  destruct (getProp f m) as [[y|]|] eqn:E'; [|done|done].
  intros [= ->] H. rewrite (getProp_Some_truthy _ _ _ E') in H.
  by rewrite (getProp_setProp _ _ _ _ H), E'.
Qed.

Lemma attach_keeps_fingerprint p v v' x :
  attach p v = Returned v' ->
  path [lit "meta"; lit "fingerprint"] v = Some x ->
  path [lit "meta"; lit "fingerprint"] v' = Some x.
Proof.
  unfold attach, bind. intros H Hx.
  assert (Hsrc : forall r,
             (if nonEmpty (sourceUrl p)
              then match orDefault (lit "meta") (VObj []) v with
                   | Returned r0 =>
                     setInner (lit "meta") (lit "sourceUrl")
                       (VStr (default [] (sourceUrl p))) r0
                   | Thrown e => Thrown e
                   end
              else Returned v) = Returned r ->
             path [lit "meta"; lit "fingerprint"] r = Some x).
  { intros r. destruct (nonEmpty (sourceUrl p)); [|by intros [= <-]].
    destruct (orDefault (lit "meta") (VObj []) v) as [r0|] eqn:E0; [|done].
    intros Hs. eapply (path_setInner_ne _ (lit "sourceUrl")); [distinct|exact Hs|].
    by eapply path_meta_orDefault. }
  destruct (if nonEmpty (sourceUrl p) then _ else _) as [r|] eqn:E; [|done].
  specialize (Hsrc r eq_refl).
  destruct (negb (bool_decide (extractionWarnings p = []))); [|by injection H as <-].
  destruct (orDefault (lit "meta") (VObj []) r) as [r1|] eqn:E1; [|done].
  destruct (getProp (lit "meta") r1) as [meta|]; [|done].
  destruct (getProp (lit "warnings") (default VNull meta)) as [old|]; [|done].
  destruct (match old with Some o => if truthy o then spread o else Returned [] | None => Returned [] end);
    [|done].
  eapply (path_setInner_ne _ (lit "warnings")); [distinct|exact H|].
  by eapply path_meta_orDefault.
Qed.

Lemma analyze_fingerprint w p resp :
  analyze w p = Returned resp ->
  status resp = 200
  /\ exists result,
       payload resp = Result result
       /\ path [lit "meta"; lit "fingerprint"] result
          = Some (VStr (SHA256.hex_of_string (textForAnalysis p))).
Proof.
  unfold Route.analyze, bind.
  destruct (analyzePipeline _ _ _ _ _) as [v|] eqn:E; [|done].
  destruct (attach p v) as [v'|] eqn:E'; [|done].
  intros [= <-]. split; [done|]. exists v'. split; [done|].
  eapply attach_keeps_fingerprint; [exact E'|].
  unfold analyzePipeline, bind in E.
  destruct (getGemini (gemini w)); [|done].
  destruct (generateContent (gemini w) _ _); [|done].
  by apply complete_sets in E as [_ E].
Qed.

Lemma extract_response w t content resp :
  extract w t content = Returned (inl resp) -> status resp = 400 \/ status resp = 422.
Proof.
  unfold Route.extract. destruct t; try done.
  - destruct (negb (isValidUrl (JS.trim content))); [intros [= <-]; by left|].
    destruct (extractFromUrl w (JS.trim content)) as [e|]; [|done].
    destruct (negb (YouTube.ok e) || negb (nonEmpty (YouTube.text e)));
      intros [= <-]. by right.
  - destruct (negb _ || negb _); intros [= <-]. by right.
Qed.

(** What [extract] prepares for each kind of input. *)
Lemma extract_prepared w t content p :
  extract w t content = Returned (inr p) ->
  match t with
  | text => textForAnalysis p = content /\ effectiveInputType p = lit "text"
  | image => textForAnalysis p = content /\ effectiveInputType p = lit "image"
  | link =>
    exists e, extractFromUrl w (JS.trim content) = Returned e
      /\ textForAnalysis p = default [] (YouTube.text e)
  | audio =>
    textForAnalysis p =
      default [] (Audio.res_text (Audio.extractAudioTranscript (whisper w) content).1)
    /\ effectiveInputType p = lit "audio_transcript"
  end.
Proof.
  unfold Route.extract. destruct t.
  - intros [= <-]. done.
  - destruct (negb (isValidUrl (JS.trim content))); [done|].
    destruct (extractFromUrl w (JS.trim content)) as [e|]; [|done].
    destruct (negb (YouTube.ok e) || negb (nonEmpty (YouTube.text e))); [done|].
    intros [= <-]. eauto.
  - intros [= <-]. done.
  - destruct (negb _ || negb _); [done|]. intros [= <-]. done.
Qed.

Lemma sanitize_text t p :
  textForAnalysis (sanitize t p) =
    if bool_decide (effectiveInputType p = lit "text")
       || bool_decide (effectiveInputType p = lit "youtube_transcript")
       || bool_decide (effectiveInputType p = lit "audio_transcript")
       || bool_decide (t = link)
    then sanitizeForLLM (textForAnalysis p) 10000 else textForAnalysis p.
Proof. unfold Route.sanitize. by destruct (_ || _). Qed.

Lemma handle_fingerprint w r resp :
  handle w r = Returned resp ->
  status resp = 200 ->
  exists t content result,
    body r = Returned (Accepted t content)
    /\ payload resp = Result result
    /\ path [lit "meta"; lit "fingerprint"] result
       = Some (VStr (SHA256.hex_of_string (fingerprinted sanitizeForLLM w t content))).
Proof.
  unfold Route.handle, bind. destruct (body r) as [[e|t content]|]; [|..|done].
  { intros [= <-]. done. }
  destruct (negb (isGeminiConfigured w)); [intros [= <-]; done|].
  destruct (extract w t content) as [[resp'|p]|] eqn:E; [| |done].
  { intros [= <-] H. apply extract_response in E as [E|E]; rewrite E in H; done. }
  intros H _. apply analyze_fingerprint in H as [_ (result & Hp & H)].
  exists t, content, result. split; [done|]. split; [done|].
  rewrite H, sanitize_text. do 3 f_equal.
  apply extract_prepared in E. unfold fingerprinted. destruct t.
  - destruct E as [-> ->]. reflexivity.
  - destruct E as (e & -> & ->). rewrite (bool_decide_eq_true_2 (link = link)) by done.
    by rewrite orb_true_r.
  - destruct E as [-> ->]. reflexivity.
  - destruct E as [-> ->]. reflexivity.
Qed.

(** C1, amended.  The fingerprint that the analysis sets on the result of
    a successful response is the SHA-256 hex digest of the text handed to
    the analysis pipeline, not of the raw content: the sanitized content for
    a text request, the content itself for an image request, the sanitized
    text that extraction returned for a link or audio request.  The body of
    the response is [JSON.stringify] of the result, so it carries that
    fingerprint exactly when the result and its [meta] are objects; when the
    model's reply was an array, or had an array for [meta], the body carries
    none.  Hence two successful text requests, or two image requests, with
    the same content, whose bodies carry a fingerprint, carry the same one,
    whatever else differs between them. *)
Theorem fingerprint_of_analysed_text :
  (forall w r st,
     status (POST w r st).1 = 200 ->
     exists t content result,
       let digest := VStr (SHA256.hex_of_string (fingerprinted sanitizeForLLM w t content)) in
       body r = Returned (Accepted t content)
       /\ payload (POST w r st).1 = Result result
       /\ path [lit "meta"; lit "fingerprint"] result = Some digest
       /\ fingerprintOf (POST w r st).1 = if plainMeta result then Some digest else None)
  /\ (forall w1 w2 r1 r2 st1 st2 t content f1 f2,
        t = text \/ t = image ->
        body r1 = Returned (Accepted t content) ->
        body r2 = Returned (Accepted t content) ->
        status (POST w1 r1 st1).1 = 200 ->
        status (POST w2 r2 st2).1 = 200 ->
        fingerprintOf (POST w1 r1 st1).1 = Some f1 ->
        fingerprintOf (POST w2 r2 st2).1 = Some f2 ->
        f1 = f2).
Proof.
  assert (Hmain : forall w r st,
             status (POST w r st).1 = 200 ->
             exists t content result,
               body r = Returned (Accepted t content)
               /\ payload (POST w r st).1 = Result result
               /\ path [lit "meta"; lit "fingerprint"] result
                  = Some (VStr (SHA256.hex_of_string
                                  (fingerprinted sanitizeForLLM w t content)))
               /\ fingerprintOf (POST w r st).1
                  = if plainMeta result
                    then Some (VStr (SHA256.hex_of_string
                                       (fingerprinted sanitizeForLLM w t content)))
                    else None).
  { intros w r st. unfold Route.POST.
    destruct (RateLimit.checkRateLimitAsync _ _ _ _) as [[rl|] st']; [|done].
    destruct (negb (RateLimit.allowed rl)); [done|].
    destruct (handle w r) as [resp|] eqn:E; [|done].
    cbn [fst]. intros H.
    destruct (handle_fingerprint _ _ _ E H) as (t & content & result & Hb & Hp & Hf).
    exists t, content, result. split; [done|]. split; [done|]. split; [done|].
    unfold fingerprintOf. rewrite Hp. by apply stringified_fingerprint. }
  split; [exact Hmain|].
  intros w1 w2 r1 r2 st1 st2 t content f1 f2 Ht Hb1 Hb2 H1 H2 Hf1 Hf2.
  destruct (Hmain _ _ _ H1) as (t1 & c1 & res1 & Hb1' & _ & _ & E1).
  destruct (Hmain _ _ _ H2) as (t2 & c2 & res2 & Hb2' & _ & _ & E2).
  rewrite Hb1 in Hb1'. rewrite Hb2 in Hb2'.
  injection Hb1' as <- <-. injection Hb2' as <- <-.
  rewrite Hf1 in E1. rewrite Hf2 in E2.
  destruct (plainMeta res1); [|done]. destruct (plainMeta res2); [|done].
  injection E1 as ->. injection E2 as ->.
  by destruct Ht as [-> | ->].
Qed.

(** C8, amended.  A request that has passed the rate limit and input
    validation is answered 503 [SERVER_MISCONFIG] when the model's
    credential is absent.  An audio request that finds the model's
    credential but not the transcription key is answered 422
    [EXTRACTION_FAILED], with the extractor's "not configured" message. *)
Theorem missing_credential_responses :
  (forall w r st rl st' t content,
     RateLimit.checkRateLimitAsync (upstash w) (now w) (clientIp r) st
       = (Returned rl, st') ->
     RateLimit.allowed rl = true ->
     body r = Returned (Accepted t content) ->
     isGeminiConfigured w = false ->
     (POST w r st).1 =
       json (Error (lit "SERVER_MISCONFIG")
               (lit "GEMINI_API_KEY não configurada no servidor (Vercel).")) 503)
  /\ (forall w r st rl st' content,
        RateLimit.checkRateLimitAsync (upstash w) (now w) (clientIp r) st
          = (Returned rl, st') ->
        RateLimit.allowed rl = true ->
        body r = Returned (Accepted audio content) ->
        isGeminiConfigured w = true ->
        Audio.WHISPER_SRT_API_KEY (whisper w) = None
          \/ Audio.WHISPER_SRT_API_KEY (whisper w) = Some [] ->
        (POST w r st).1 =
          json (Error (lit "EXTRACTION_FAILED")
                  (lit "Serviço de transcrição de áudio não configurado (WHISPER_SRT_API_KEY)."))
            422).
Proof.
  split.
  - intros w r st rl st' t content Hrl Hal Hb Hg. unfold Route.POST.
    rewrite Hrl, Hal. simpl negb. cbv iota.
    unfold Route.handle, bind. by rewrite Hb, Hg.
  - intros w r st rl st' content Hrl Hal Hb Hg Hk. unfold Route.POST.
    rewrite Hrl, Hal. simpl negb. cbv iota.
    unfold Route.handle, bind. rewrite Hb, Hg. simpl negb. cbv iota.
    unfold Route.extract, Audio.extractAudioTranscript.
    destruct Hk as [-> | ->]; reflexivity.
Qed.

End RouteFacts.

(** ** The claims on concrete worlds *)

Section Checked.
Import Pipeline Route.

(** C1 as stated fails: the same link submitted twice, the page behind it
    read differently the second time, and the two successful responses carry
    different fingerprints. *)
Lemma fingerprint_differs_for_same_link :
  let r := Scenario.request link (lit "https://example.org/noticia") in
  let first := Scenario.post (Scenario.serving (lit "Texto da primeira leitura.")) r in
  let second := Scenario.post (Scenario.serving (lit "Texto da segunda leitura.")) r in
  status first = 200 /\ status second = 200 /\ fingerprintOf first <> fingerprintOf second.
Proof.
  cbv zeta. split; [by vm_compute|]. split; [by vm_compute|]. distinct.
Qed.

(** The body of a text request in the same world carries the digest of
    the sanitized content. *)
Example body_carries_fingerprint :
  fingerprintOf (Scenario.post (Scenario.serving []) (Scenario.request text (lit "abc")))
  = Some (VStr (SHA256.hex_of_string (lit "abc"))).
Proof. by vm_compute. Qed.

(** A reply that reads as an array: the response is 200, the result holds
    the fingerprint, and the body, an array written with its items only,
    carries none. *)
Example array_reply_carries_no_fingerprint :
  let resp :=
    (Route.POST Scenario.cutOnly Scenario.anyUrl Scenario.notYouTube []
       (fun _ => Some (VArr [] [])) (Scenario.serving [])
       (Scenario.request text (lit "abc")) Scenario.started).1 in
  status resp = 200
  /\ (exists result,
        payload resp = Result result
        /\ path [lit "meta"; lit "fingerprint"] result
           = Some (VStr (SHA256.hex_of_string (lit "abc"))))
  /\ fingerprintOf resp = None.
Proof.
  cbv zeta. split; [by vm_compute|]. split; [|by vm_compute].
  eexists. split; by vm_compute.
Qed.

(** A text request in the same world: its fingerprint is the digest of the
    sanitized content. *)
Lemma fingerprint_of_analysed_text_witness :
  let resp := Scenario.post (Scenario.serving []) (Scenario.request text (lit "abc")) in
  exists t content result,
    let digest :=
      VStr (SHA256.hex_of_string
              (fingerprinted Scenario.cutOnly (Scenario.serving []) t content)) in
    body (Scenario.request text (lit "abc")) = Returned (Accepted t content)
    /\ payload resp = Result result
    /\ path [lit "meta"; lit "fingerprint"] result = Some digest
    /\ fingerprintOf resp = if plainMeta result then Some digest else None.
Proof.
  cbv zeta.
  apply (proj1 (fingerprint_of_analysed_text Scenario.cutOnly Scenario.anyUrl
                  Scenario.notYouTube [] Scenario.noJson)).
  by vm_compute.
Defined.

(** C2 as stated fails: with the distributed counter configured and
    unreachable the check throws, and the request is answered 500. *)
Lemma checkRateLimitAsync_throws_on_outage :
  (RateLimit.checkRateLimitAsync Scenario.outage 1700000000000 (lit "203.0.113.7")
     Scenario.started).1 = Thrown (lit "fetch failed")
  /\ Scenario.post Scenario.unreachableCounter (Scenario.request text (lit "abc")) = failed
  /\ status failed = 500.
Proof. split; [by vm_compute|]. split; by vm_compute. Qed.

(** C8 as stated fails for the transcription key: the audio request is
    answered 422, not 503. *)
Lemma transcription_key_missing_is_422 :
  let w := Scenario.serving [] in
  let resp := Scenario.post w (Scenario.request audio Scenario.clip) in
  isGeminiConfigured w = true
  /\ Audio.WHISPER_SRT_API_KEY (whisper w) = None
  /\ status resp = 422
  /\ status resp <> 503.
Proof. cbv zeta. split; [done|]. split; [done|]. split; by vm_compute. Qed.

(** The model's credential missing: 503. *)
Lemma missing_credential_responses_witness :
  Scenario.post Scenario.noModelKey (Scenario.request text (lit "abc")) =
    json (Error (lit "SERVER_MISCONFIG")
            (lit "GEMINI_API_KEY não configurada no servidor (Vercel).")) 503.
Proof.
  unfold Scenario.post.
  eapply (proj1 (missing_credential_responses Scenario.cutOnly Scenario.anyUrl
                   Scenario.notYouTube [] Scenario.noJson)).
  - by vm_compute.
  - reflexivity.
  - reflexivity.
  - reflexivity.
Defined.

(** A reply in prose: the fallback object, with the digest of "abc". *)
Lemma analyzePipeline_never_reports_failure_witness :
  exists v,
    analyzePipeline [] Scenario.noJson Scenario.prose (lit "text") (lit "abc") = Returned v
    /\ path [lit "meta"; lit "fingerprint"] v
       = Some (str "ba7816bf8f01cfea414140de5dae2223b00361a396177a9cb410ff61f20015ad")
    /\ path [lit "summary"; lit "verdict"] v = Some (str "Inconclusivo").
Proof.
  destruct (proj1 (proj2 (analyzePipeline_never_reports_failure [] Scenario.noJson
                            Scenario.prose (lit "text") (lit "abc")))
              () (lit "I cannot assess this content.") eq_refl eq_refl eq_refl)
    as (v & Hv & _ & _ & Hfp & Hverdict & _).
  exists v. split; [exact Hv|]. split; [|exact Hverdict].
  rewrite Hfp. by vm_compute.
Defined.

(** Without the distributed counter the check is the in-memory one. *)
Lemma checkRateLimitAsync_returns_iff_witness :
  (RateLimit.checkRateLimitAsync Scenario.inMemory 1700000000000 (lit "203.0.113.7")
     Scenario.started).1 = Returned {| RateLimit.allowed := true; RateLimit.remaining := 9 |}.
Proof.
  destruct (checkRateLimitAsync_returns_iff Scenario.inMemory 1700000000000
              (lit "203.0.113.7") Scenario.started) as (_ & H & _ & _).
  rewrite H; [by vm_compute|]. unfold RateLimit.usesBackend. simpl. intros [|[? _]]; done.
Defined.

End Checked.

(** * Further properties of the code *)

Section LimiterState.
Import RateLimit Runs.
Implicit Types (h : gmap (list N) (list Z)) (ip : list N) (l ts : list Z).

Lemma purge_purge now now' l : now <= now' -> purge now' (purge now l) = purge now' l.
Proof.
  intros Hle. unfold purge. induction l as [|t l IH]; [done|].
  destruct (decide (fresh now t)) as [Hf|Hf].
  - rewrite (filter_cons_True (fresh now)) by done.
    destruct (decide (fresh now' t)).
    + rewrite !filter_cons_True by done. by rewrite IH.
    + rewrite !filter_cons_False by done. done.
  - rewrite (filter_cons_False (fresh now)) by done.
    rewrite (filter_cons_False (fresh now')); [done|].
    unfold fresh in *. lia.
Qed.

Lemma purge_fresh now l : Forall (fresh now) (purge now l).
Proof.
  apply Forall_forall. intros t Ht. by apply list_elem_of_filter in Ht as [Ht _].
Qed.

Lemma purge_length now l : (length (purge now l) <= length l)%nat.
Proof. apply length_filter. Qed.

(** A check reads [h] only through what it stores for the caller. *)
Lemma check_decision_stored now ip h h' :
  stored ip h = stored ip h' -> (inMemoryCheck now ip h).1 = (inMemoryCheck now ip h').1.
Proof.
  intros E. unfold inMemoryCheck. fold (stored ip h) (stored ip h'). rewrite E.
  by case_decide.
Qed.

(** X1.  The background sweep is invisible to callers: a check made at the
    sweep's clock reading or later takes the same decision, and leaves the
    same timestamps for its identifier, whether or not the sweep ran. *)
Theorem sweep_is_transparent now now' ip h :
  now <= now' ->
  (inMemoryCheck now' ip (sweep now h)).1 = (inMemoryCheck now' ip h).1
  /\ stored ip (inMemoryCheck now' ip (sweep now h)).2
     = stored ip (inMemoryCheck now' ip h).2.
Proof.
  intros Hle.
  assert (E : purge now' (stored ip (sweep now h)) = purge now' (stored ip h)).
  { rewrite stored_sweep. by apply purge_purge. }
  split.
  - unfold inMemoryCheck. fold (stored ip (sweep now h)) (stored ip h). rewrite E.
    by case_decide.
  - rewrite !stored_check, E. done.
Qed.

Lemma sweep_is_transparent_witness :
  let ip := lit "203.0.113.7" in
  let h : gmap (list N) (list Z) := <[ip := [0; 50000; 59000]]> ∅ in
  (inMemoryCheck 70000 ip (sweep 65000 h)).1 = (inMemoryCheck 70000 ip h).1
  /\ stored ip (inMemoryCheck 70000 ip (sweep 65000 h)).2
     = stored ip (inMemoryCheck 70000 ip h).2.
Proof. intros ip h. apply sweep_is_transparent. lia. Defined.

(** X2.  What the sweep leaves in the map: under every key a non-empty
    sequence of timestamps that are all inside the window, in their old
    order; a key whose timestamps have all left the window is deleted, and
    one that still has a live timestamp is kept. *)
Theorem sweep_keeps_live_keys now h ip :
  (forall l, sweep now h !! ip = Some l ->
     l <> [] /\ Forall (fresh now) l /\ l = purge now (stored ip h))
  /\ (Forall (fun t => ~ fresh now t) (stored ip h) -> sweep now h !! ip = None)
  /\ (forall t, t ∈ stored ip h -> fresh now t -> is_Some (sweep now h !! ip)).
Proof.
  unfold sweep, stored. rewrite lookup_omap.
  destruct (h !! ip) as [l0|]; simpl.
  - split; [|split].
    + intros l. case_decide as E; [done|]. intros [= <-].
      split; [intros Hnil; apply E; by rewrite Hnil|]. split; [apply purge_fresh|done].
    + intros Hall. rewrite decide_True; [done|].
      apply length_zero_iff_nil. unfold purge.
      induction Hall as [|t l Ht _ IH]; [done|]. by rewrite filter_cons_False.
    + intros t Ht Hf. case_decide as E; [|by eexists].
      apply length_zero_iff_nil in E.
      assert (t ∈ purge now l0) as Hin by (apply list_elem_of_filter; done).
      rewrite E in Hin. by apply elem_of_nil in Hin.
  - split; [done|]. split; [done|]. intros t Ht. by apply elem_of_nil in Ht.
Qed.

Lemma sweep_keeps_live_keys_witness :
  let a := lit "203.0.113.7" in
  let b := lit "198.51.100.2" in
  let h : gmap (list N) (list Z) := <[a := [0; 50000]]> (<[b := [1000; 2000]]> ∅) in
  sweep 65000 h !! b = None /\ is_Some (sweep 65000 h !! a).
Proof.
  intros a b h. split.
  - apply (sweep_keeps_live_keys 65000 h b).
    unfold stored, h. rewrite lookup_insert_ne by (by vm_compute).
    rewrite lookup_insert_eq. simpl.
    repeat (constructor; [unfold fresh, windowMs; lia|]). constructor.
  - apply (proj2 (proj2 (sweep_keeps_live_keys 65000 h a)) 50000).
    + unfold stored, h. rewrite lookup_insert_eq. simpl. set_solver.
    + unfold fresh, windowMs. lia.
Defined.

(** X3.  Identifiers do not share quota: a check for one identifier, allowed
    or denied, changes neither what is stored for another nor the decision
    a later check of that other identifier gets. *)
Theorem identifiers_are_isolated now now' ip ip' h :
  ip' <> ip ->
  stored ip (inMemoryCheck now' ip' h).2 = stored ip h
  /\ (inMemoryCheck now ip (inMemoryCheck now' ip' h).2).1 = (inMemoryCheck now ip h).1.
Proof.
  intros Hne. pose proof (stored_check_ne ip ip' now' h Hne) as E.
  split; [exact E|]. by apply check_decision_stored.
Qed.

Lemma identifiers_are_isolated_witness :
  let a := lit "203.0.113.7" in
  let b := lit "198.51.100.2" in
  stored a (inMemoryCheck 5 b ∅).2 = stored a ∅
  /\ (inMemoryCheck 9 a (inMemoryCheck 5 b ∅).2).1 = (inMemoryCheck 9 a ∅).1.
Proof. intros a b. apply identifiers_are_isolated. by vm_compute. Defined.

Lemma stateAfter_capacity es : forall h,
  (forall ip, (length (stored ip h) <= 10)%nat) ->
  forall ip, (length (stored ip (stateAfter es h)) <= 10)%nat.
Proof.
  induction es as [|[now ip'|now] es IH]; intros h Hh ip; simpl; [done| |].
  - apply IH. intros ip0. destruct (decide (ip' = ip0)) as [->|Hne].
    + rewrite stored_check. pose proof (purge_length now (stored ip0 h)).
      pose proof (Hh ip0). case_decide as Hfull; [lia|].
      rewrite length_app. simpl. unfold maxRequests in Hfull. lia.
    + rewrite stored_check_ne by done. apply Hh.
  - apply IH. intros ip0. rewrite stored_sweep.
    pose proof (purge_length now (stored ip0 h)). pose proof (Hh ip0). lia.
Qed.

(** X4.  Capacity.  Whatever the map holds, a check reports between 0 and 9
    remaining requests, 0 when it denies, and every timestamp it leaves for
    its identifier is inside the window.  In the map left by any run of
    checks and sweeps from the empty map, in whatever order the clock
    readings come, no identifier holds more than ten timestamps. *)
Theorem limiter_capacity :
  (forall now ip h,
     let d := (inMemoryCheck now ip h).1 in
     0 <= remaining d <= 9
     /\ (allowed d = false -> remaining d = 0)
     /\ Forall (fresh now) (stored ip (inMemoryCheck now ip h).2))
  /\ (forall es ip, (length (stored ip (stateAfter es ∅)) <= 10)%nat).
Proof.
  split.
  - intros now ip h d. subst d. rewrite stored_check.
    unfold inMemoryCheck. fold (stored ip h).
    case_decide as Hfull; simpl.
    + split; [lia|]. split; [done|]. apply purge_fresh.
    + rewrite length_app. simpl. unfold maxRequests in *.
      split; [lia|]. split; [done|].
      apply Forall_app. split; [apply purge_fresh|].
      repeat constructor. unfold fresh, windowMs. lia.
  - intros es. apply stateAfter_capacity. intros ip.
    unfold stored. rewrite lookup_empty. simpl. lia.
Qed.

Lemma limiter_capacity_witness :
  let ip := lit "203.0.113.7" in
  let h : gmap (list N) (list Z) := <[ip := [0; 1; 2; 3; 4; 5; 6; 7; 8; 9; 10; 11]]> ∅ in
  remaining (inMemoryCheck 20 ip h).1 = 0.
Proof.
  intros ip h. destruct limiter_capacity as [H _].
  destruct (H 20 ip h) as (_ & Hd & _). apply Hd. by vm_compute.
Defined.

End LimiterState.

Section LimiterClient.
Import RateLimit.

(** X5.  The client of the distributed counter is built once.  A check
    answered by the backend leaves the in-memory map as it was and the
    client cached; with a client cached, a check no longer looks at the
    configuration or the import, only at [limit]; and a failed import
    caches nothing, so the next check tries again. *)
Theorem limiter_client_is_cached up now identifier st :
  (forall d st',
     usesBackend up st ->
     checkRateLimitAsync up now identifier st = (Returned d, st') ->
     rateLimiter st' = true /\ hits st' = hits st)
  /\ (forall up',
        rateLimiter st = true ->
        limit up' identifier = limit up identifier ->
        checkRateLimitAsync up' now identifier st = checkRateLimitAsync up now identifier st)
  /\ (forall e,
        rateLimiter st = false ->
        UPSTASH_URL up <> [] -> UPSTASH_TOKEN up <> [] ->
        import_client up = Thrown e ->
        checkRateLimitAsync up now identifier st = (Thrown e, st)).
Proof.
  split; [|split].
  - intros d st' Hb. unfold checkRateLimitAsync, getUpstashLimiter, usesBackend in *.
    destruct (rateLimiter st) eqn:Hr.
    + destruct (limit up identifier); intros [= <- <-]. done.
    + destruct Hb as [Hb|[H1 H2]]; [done|].
      rewrite (bool_decide_eq_false_2 _ H1), (bool_decide_eq_false_2 _ H2). simpl.
      destruct (import_client up); [|done].
      destruct (limit up identifier); intros [= <- <-]. done.
  - intros up' Hr Hl. unfold checkRateLimitAsync, getUpstashLimiter. rewrite Hr, Hl. done.
  - intros e Hr H1 H2 Hi. unfold checkRateLimitAsync, getUpstashLimiter.
    rewrite Hr, (bool_decide_eq_false_2 _ H1), (bool_decide_eq_false_2 _ H2), Hi. done.
Qed.

Lemma limiter_client_is_cached_witness :
  let broken :=
    {| UPSTASH_URL := lit "https://eu1-example.upstash.io"; UPSTASH_TOKEN := lit "token";
       import_client := Thrown (lit "Cannot find module");
       limit := fun _ => Returned {| success := true; up_remaining := 9; reset := 0 |} |} in
  checkRateLimitAsync broken 0 (lit "203.0.113.7") Scenario.started
  = (Thrown (lit "Cannot find module"), Scenario.started).
Proof.
  intros broken.
  destruct (limiter_client_is_cached broken 0 (lit "203.0.113.7") Scenario.started)
    as (_ & _ & H).
  apply H; [done| by vm_compute | by vm_compute | done].
Defined.

End LimiterClient.

Section WhiteSpaceFacts.
Local Open Scope N_scope.

Lemma trimStart_length s : (length (JS.trimStart s) <= length s)%nat.
Proof.
  induction s as [|c s IH]; [done|]. simpl.
  destruct (JS.isWhiteSpace c); simpl; lia.
Qed.

Lemma trimStart_idem s : JS.trimStart (JS.trimStart s) = JS.trimStart s.
Proof.
  induction s as [|c s IH]; [done|]. simpl.
  destruct (JS.isWhiteSpace c) eqn:E; [done|]. simpl. by rewrite E.
Qed.

(** A non-empty prefix of a text without leading white space has none
    either. *)
Lemma trimStart_prefix_fixed p q :
  p <> [] -> JS.trimStart (p ++ q) = p ++ q -> JS.trimStart p = p.
Proof.
  destruct p as [|c p]; [done|]. intros _. simpl.
  destruct (JS.isWhiteSpace c); [|done].
  intros H. pose proof (trimStart_length (p ++ q)) as Hl.
  rewrite H in Hl. simpl in Hl. lia.
Qed.

Lemma trimStart_trim s : JS.trimStart (JS.trim s) = JS.trim s.
Proof.
  unfold JS.trim, JS.trimEnd.
  set (u := JS.trimStart s). set (v := JS.trimStart (rev u)).
  destruct (decide (v = [])) as [E|E]; [by rewrite E|].
  destruct (trimStart_suffix (rev u)) as [a Ha]. fold v in Ha.
  apply (trimStart_prefix_fixed (rev v) (rev a)).
  - intros H. apply E. by rewrite <- (rev_involutive v), H.
  - rewrite <- rev_app_distr, <- Ha, rev_involutive. apply trimStart_idem.
Qed.

Lemma trimEnd_trim s : JS.trimEnd (JS.trim s) = JS.trim s.
Proof.
  unfold JS.trim at 1 2. unfold JS.trimEnd at 1 2.
  rewrite rev_involutive, trimStart_idem. done.
Qed.

(** Trimming twice is trimming once. *)
Lemma trim_idempotent s : JS.trim (JS.trim s) = JS.trim s.
Proof.
  unfold JS.trim at 1. rewrite trimStart_trim. apply trimEnd_trim.
Qed.

Lemma trim_infix s : exists a t, s = a ++ JS.trim s ++ t.
Proof.
  destruct (trimStart_suffix s) as [a Ha].
  destruct (trimEnd_prefix (JS.trimStart s)) as [t Ht].
  exists a, t. unfold JS.trim. by rewrite <- Ht.
Qed.

Lemma trim_elem c s : c ∈ JS.trim s -> c ∈ s.
Proof.
  destruct (trim_infix s) as (a & t & E). intros H. rewrite E.
  rewrite !elem_of_app. auto.
Qed.

Lemma trim_Forall (P : N -> Prop) s : Forall P s -> Forall P (JS.trim s).
Proof.
  rewrite !Forall_forall. intros H c Hc. by apply H, trim_elem.
Qed.

Lemma not_space c : JS.isWhiteSpace c = false -> (32 =? c) = false.
Proof.
  intros H. destruct (N.eqb_spec 32 c) as [<-|]; [|done]. by vm_compute in H.
Qed.

(** After [replace(/\s+/g, ' ')] the only white space left is U+0020. *)
Lemma collapse_spaces b s :
  Forall (fun c => JS.isWhiteSpace c = true -> c = 32) (JS.collapse_go b s).
Proof.
  revert b. induction s as [|c s IH]; intros b; [constructor|].
  cbn [JS.collapse_go]. destruct (JS.isWhiteSpace c) eqn:E.
  - destruct b; [apply IH|]. constructor; [done|apply IH].
  - constructor; [congruence|apply IH].
Qed.

Lemma collapse_run_head s : JS.startsWith [32] (JS.collapse_go true s) = false.
Proof.
  induction s as [|c s IH]; [done|].
  cbn [JS.collapse_go]. destruct (JS.isWhiteSpace c) eqn:E; [done|].
  cbn [JS.startsWith]. by rewrite (not_space c E).
Qed.

(** ... and no two of them are adjacent. *)
Lemma collapse_no_double b s : JS.includes [32; 32] (JS.collapse_go b s) = false.
Proof.
  revert b. induction s as [|c s IH]; intros b; [done|].
  cbn [JS.collapse_go]. destruct (JS.isWhiteSpace c) eqn:E.
  - destruct b; [apply IH|].
    cbn [JS.includes]. rewrite IH, orb_false_r.
    change (JS.startsWith [32; 32] (32 :: JS.collapse_go true s))
      with (JS.startsWith [32] (JS.collapse_go true s)).
    apply collapse_run_head.
  - cbn [JS.includes]. rewrite IH, orb_false_r.
    cbn [JS.startsWith]. by rewrite (not_space c E).
Qed.

Lemma includes_tail p c s : JS.includes p (c :: s) = false -> JS.includes p s = false.
Proof.
  cbn [JS.includes]. intros H. apply orb_false_iff in H as [_ H].
  by destruct s.
Qed.

(** A text whose white space is single spaces is left as it is. *)
Lemma collapse_fixed t :
  Forall (fun c => JS.isWhiteSpace c = true -> c = 32) t ->
  JS.includes [32; 32] t = false ->
  JS.collapse_go false t = t.
Proof.
  induction 1 as [|c t Hc Ht IH]; intros Hd; [done|].
  pose proof (includes_tail _ _ _ Hd) as Hd'.
  cbn [JS.collapse_go]. destruct (JS.isWhiteSpace c) eqn:E.
  - rewrite (Hc eq_refl) in *. f_equal.
    destruct t as [|d t]; [done|].
    cbn [JS.collapse_go]. destruct (JS.isWhiteSpace d) eqn:Ed.
    + inversion Ht as [|? ? Hd0 _]; subst. rewrite (Hd0 Ed) in Hd.
      by vm_compute in Hd.
    + specialize (IH Hd'). cbn [JS.collapse_go] in IH. by rewrite Ed in IH.
  - f_equal. by apply IH.
Qed.

Lemma includes_trim_false p s : JS.includes p s = false -> JS.includes p (JS.trim s) = false.
Proof.
  intros H. destruct (JS.includes p (JS.trim s)) eqn:E; [|done].
  apply includes_trim in E. congruence.
Qed.

Lemma elem_of_rev (x : N) l : x ∈ rev l <-> x ∈ l.
Proof. rewrite !list_elem_of_In. symmetry. apply in_rev. Qed.

(** The pieces of a split hold no code unit that the text did not. *)
Lemma split_go_units sep s : forall skip cur,
  Forall (fun piece => forall x, x ∈ piece -> x ∈ cur \/ x ∈ s) (JS.split_go sep skip cur s).
Proof.
  induction s as [|c s IH]; intros skip cur.
  - simpl. constructor; [|constructor]. intros x Hx. left. by apply elem_of_rev.
  - cbn [JS.split_go]. destruct skip as [|k].
    + destruct (JS.startsWith sep (c :: s)).
      * constructor.
        -- intros x Hx. left. by apply elem_of_rev.
        -- eapply Forall_impl; [apply IH|]. simpl. intros piece Hp x Hx.
           destruct (Hp x Hx) as [H|H]; [by apply elem_of_nil in H|].
           right. by right.
      * eapply Forall_impl; [apply IH|]. simpl. intros piece Hp x Hx.
        destruct (Hp x Hx) as [H|H].
        -- apply elem_of_cons in H as [->|H]; [right; left|by left].
        -- right. by right.
    + eapply Forall_impl; [apply IH|]. simpl. intros piece Hp x Hx.
      destruct (Hp x Hx) as [H|H]; [by left|right; by right].
Qed.

Lemma split_units sep s piece x : piece ∈ JS.split sep s -> x ∈ piece -> x ∈ s.
Proof.
  intros Hp Hx. pose proof (split_go_units sep s 0 []) as H.
  rewrite Forall_forall in H. destruct (H piece Hp x Hx) as [H'|H']; [|done].
  by apply elem_of_nil in H'.
Qed.

(** [split] on a one-unit separator: no piece holds the separator. *)
Lemma split_go_char c s : forall cur,
  c ∉ cur -> Forall (fun piece => c ∉ piece) (JS.split_go [c] 0 cur s).
Proof.
  induction s as [|d s IH]; intros cur Hc.
  - simpl. constructor; [|constructor]. by rewrite elem_of_rev.
  - cbn [JS.split_go JS.startsWith]. rewrite andb_true_r.
    destruct (N.eqb_spec c d) as [<-|Hne].
    + constructor; [by rewrite elem_of_rev|].
      apply IH. apply not_elem_of_nil.
    + apply IH. rewrite elem_of_cons. intros [H|H]; [by apply Hne|done].
Qed.

Lemma split_char c s : Forall (fun piece => c ∉ piece) (JS.split [c] s).
Proof. apply split_go_char, not_elem_of_nil. Qed.

Lemma join_units sep xs x : x ∈ JS.join sep xs -> x ∈ sep \/ exists piece, piece ∈ xs /\ x ∈ piece.
Proof.
  induction xs as [|y xs IH]; [intros H; by apply elem_of_nil in H|].
  destruct xs as [|z xs].
  - simpl. intros H. right. exists y. split; [by left|done].
  - change (JS.join sep (y :: z :: xs)) with (y ++ sep ++ JS.join sep (z :: xs)).
    rewrite !elem_of_app. intros [H|[H|H]].
    + right. exists y. split; [by left|done].
    + by left.
    + destruct (IH H) as [H'|(piece & Hp & Hx)]; [by left|].
      right. exists piece. split; [by right|done].
Qed.

Lemma nth_units (lines : list (list N)) i x :
  x ∈ nth i lines [] -> exists piece, piece ∈ lines /\ x ∈ piece.
Proof.
  revert i. induction lines as [|l lines IH]; intros i H.
  - destruct i; by apply elem_of_nil in H.
  - destruct i as [|i]; simpl in H.
    + exists l. split; [by left|done].
    + destruct (IH i H) as (piece & Hp & Hx). exists piece. split; [by right|done].
Qed.

End WhiteSpaceFacts.

Section SegmentFacts.
Import Audio.
Local Open Scope N_scope.

(** X6.  The flattened transcript is in normal form: the only white space
    in it is the space U+0020, no two spaces are adjacent, and none leads or
    trails; flattening is therefore stable: collapsing and trimming the
    result again gives the result. *)
Theorem segmentsToText_normal_form segs :
  let t := segmentsToText segs in
  Forall (fun c => JS.isWhiteSpace c = true -> c = 32) t
  /\ JS.includes [32; 32] t = false
  /\ JS.trim t = t
  /\ JS.trim (JS.collapseWhiteSpace t) = t.
Proof.
  intros t. subst t. unfold segmentsToText, JS.collapseWhiteSpace.
  set (s := JS.join _ _).
  assert (H1 : Forall (fun c => JS.isWhiteSpace c = true -> c = 32)
                 (JS.trim (JS.collapse_go false s)))
    by apply trim_Forall, collapse_spaces.
  assert (H2 : JS.includes [32; 32] (JS.trim (JS.collapse_go false s)) = false)
    by apply includes_trim_false, collapse_no_double.
  split; [exact H1|]. split; [exact H2|]. split; [apply trim_idempotent|].
  rewrite (collapse_fixed _ H1 H2). apply trim_idempotent.
Qed.

Lemma parseBlock_fields block seg :
  parseBlock block = Some seg ->
  index seg = JS.trim (nth 0 (JS.split LF block) [])
  /\ start seg = JS.trim (nth 0 (JS.split (lit " --> ") (nth 1 (JS.split LF block) [])) [])
  /\ end_ seg = JS.trim (nth 1 (JS.split (lit " --> ") (nth 1 (JS.split LF block) [])) [])
  /\ text seg = JS.trim (JS.join (lit " ") (drop 2 (JS.split LF block))).
Proof.
  unfold parseBlock. case_decide; [done|]. case_decide; [done|].
  by intros [= <-].
Qed.

Lemma line_without_break block line : line ∈ JS.split LF block -> 10 ∉ line.
Proof.
  intros H. pose proof (split_char 10 block) as Hall.
  rewrite Forall_forall in Hall. by apply Hall.
Qed.

(** X7.  Every field of a parsed segment is trimmed and holds no line
    break: the index and the two time codes come from single lines, and the
    lines of the text are joined by single spaces.  The parser returns at
    most one segment per block. *)
Theorem segment_fields_are_single_lines :
  (forall block seg,
     parseBlock block = Some seg ->
     Forall (fun field => JS.trim field = field /\ 10 ∉ field)
       [index seg; start seg; end_ seg; text seg])
  /\ (forall srt, (length (srtToJson srt) <= length (splitBlocks (JS.trim srt)))%nat).
Proof.
  split.
  - intros block seg Hp.
    destruct (parseBlock_fields block seg Hp) as (Hi & Hs & He & Ht).
    assert (Hline : forall i x, x ∈ nth i (JS.split LF block) [] -> x <> 10).
    { intros i x Hx ->. destruct (nth_units _ _ _ Hx) as (piece & Hp' & Hx').
      by apply (line_without_break block piece). }
    assert (Hpart : forall j x,
               x ∈ nth j (JS.split (lit " --> ") (nth 1 (JS.split LF block) [])) [] ->
               x <> 10).
    { intros j x Hx. destruct (nth_units _ _ _ Hx) as (piece & Hp' & Hx').
      apply (Hline 1%nat). by eapply split_units. }
    repeat constructor.
    + rewrite Hi. apply trim_idempotent.
    + rewrite Hi. intros H. by apply trim_elem, Hline in H.
    + rewrite Hs. apply trim_idempotent.
    + rewrite Hs. intros H. by apply trim_elem, Hpart in H.
    + rewrite He. apply trim_idempotent.
    + rewrite He. intros H. by apply trim_elem, Hpart in H.
    + rewrite Ht. apply trim_idempotent.
    + rewrite Ht. intros H. apply trim_elem, join_units in H as [H|(piece & Hp' & Hx)].
      * change (lit " ") with [32] in H. by apply list_elem_of_singleton in H.
      * apply (line_without_break block piece); [|done].
        rewrite <- (take_drop 2 (JS.split LF block)). apply elem_of_app. by right.
  - intros srt. rewrite srtToJson_blocks.
    induction (splitBlocks (JS.trim srt)) as [|b bs IH]; [done|].
    cbn [omap list_omap]. destruct (parseBlock b); cbn [length]; lia.
Qed.

Lemma segment_fields_are_single_lines_witness :
  Forall (fun field => JS.trim field = field /\ 10 ∉ field)
    [lit "2"; lit "00:00:01,000"; lit "00:00:03,000"; lit "Bom dia a todos"].
Proof.
  destruct segment_fields_are_single_lines as [H _].
  apply (H (lit "2 " ++ LF ++ lit "00:00:01,000 --> 00:00:03,000" ++ LF
              ++ lit "Bom dia" ++ LF ++ lit "a todos")
           {| index := lit "2"; start := lit "00:00:01,000"; end_ := lit "00:00:03,000";
              text := lit "Bom dia a todos"; instrumental := false |}).
  reflexivity.
Defined.

End SegmentFacts.

Section TranscriptionFacts.
Import Audio.

Lemma lit_app_nonempty (a b : list N) : a <> [] -> a ++ b <> [].
Proof. destruct a; [done|]. done. Qed.

(** The status the loop ends with is the one it started with or one that a
    status request reported. *)
Lemma pollLoop_status w id status attempts log :
  match (pollLoop w id status attempts log).1 with
  | Returned (st, a) =>
    st = status
    \/ exists n res, (attempts < n <= a)%nat /\ poll w id n = Returned res
         /\ r_ok res = true /\ r_json res = Returned st
  | Thrown _ => True
  end.
Proof.
  funelim (pollLoop w id status attempts log); simpl; try done.
  - by left.
  - match goal with
    | IH : match ?r with _ => _ end |- match ?r with _ => _ end =>
      destruct r as [[st' a']|]; [|done];
      destruct IH as [->|(n & res & Hn & Hp & Hok & Hj)];
        [by left|right; exists n, res; split; [lia|done]]
    end.
  - match goal with
    | IH : match ?r with _ => _ end,
      Hj : r_json ?p = Returned ?s, Hok : r_ok ?p = true, Hp : poll _ _ _ = Returned ?p
      |- match ?r with _ => _ end =>
      pose proof (pollLoop_bounded w id s (S attempts)
                    (log ++ [Sleep POLL_INTERVAL_MS; Poll (S attempts)]))
        as (k & _ & _ & Hb);
      destruct r as [[st' a']|]; [|done];
      destruct IH as [->|(n & res & Hn & Hp' & Hok' & Hj')];
        [right; exists (S attempts), p; split; [lia|done]
        |right; exists n, res; split; [lia|done]]
    end.
Qed.

Lemma pollLoop_stops w id status attempts log :
  status <> PROCESSING ->
  pollLoop w id status attempts log = (Returned (status, attempts), log).
Proof.
  intros Hs. rewrite pollLoop_equation_1.
  destruct (decide (status = PROCESSING /\ (attempts < MAX_POLL_ATTEMPTS)%nat)) as [H|H];
    [by destruct H|done].
Qed.

(** Pending polls, then one that reports a status other than
    [PROCESSING]: the loop ends there. *)
Lemma pollLoop_settles w id s res : forall k a log,
  (a + S k <= MAX_POLL_ATTEMPTS)%nat ->
  (forall m, (a < m < a + S k)%nat -> pending w id m) ->
  poll w id (a + S k) = Returned res ->
  r_ok res = true ->
  r_json res = Returned s ->
  s <> PROCESSING ->
  pollLoop w id PROCESSING a log = (Returned (s, a + S k)%nat, log ++ pollTrace a (S k)).
Proof.
  induction k as [|k IH]; intros a log Hle Hpend Hp Hok Hj Hs; rewrite pollLoop_equation_1;
    (destruct (decide (PROCESSING = PROCESSING /\ (a < MAX_POLL_ATTEMPTS)%nat)) as [H|H];
       [|exfalso; apply H; split; [done|lia]]); simpl.
  - replace (a + 1)%nat with (S a) in * by lia.
    rewrite Hp. simpl. rewrite Hok. simpl. rewrite Hj. simpl.
    by rewrite pollLoop_stops.
  - destruct (Hpend (S a)) as (r & Hr & Hres); [lia|].
    rewrite Hr. simpl.
    replace (a + S (S k))%nat with (S a + S k)%nat in * by lia.
    destruct Hres as [Hok'|[Hok' Hj']]; rewrite Hok'; simpl; [|rewrite Hj'; simpl];
      (rewrite IH; [by rewrite (pollTrace_S a), app_assoc | lia
                   | intros m Hm; apply Hpend; lia | done | done | done | done]).
Qed.

Lemma pollTrace_no_download a k : Download ∉ pollTrace a k.
Proof.
  unfold pollTrace. intros H. apply list_elem_of_In, in_flat_map in H as (i & _ & H).
  destruct H as [H|[H|[]]]; discriminate H.
Qed.

Ltac submit H :=
  destruct H as (apiKey & file & res & Hkey & Hne & Hparse & Hup & Hok & Hjob);
  unfold extractAudioTranscript; rewrite Hkey;
  destruct apiKey as [|c apiKey]; [done|];
  rewrite Hparse; unfold transcribe; rewrite Hup, Hok; simpl negb; cbv iota;
  rewrite Hjob; simpl job_id; simpl job_status.

(** X8.  The shape of every result.  With [ok] set, the result carries the
    flattened text of the downloaded subtitles, five code units or more, the
    parsed segments, no error, and the warning about instrumental parts
    exactly when some segment is flagged; the download was the last thing
    the call did.  With [ok] unset it carries neither text nor segments, and
    a non-empty error message. *)
Theorem transcript_result_shape w audioDataUrl :
  let r := (extractAudioTranscript w audioDataUrl).1 in
  if ok r then
    exists srt,
      res_text r = Some (segmentsToText (srtToJson srt))
      /\ segments r = Some (srtToJson srt)
      /\ (5 <= length (segmentsToText (srtToJson srt)))%nat
      /\ error r = None
      /\ warnings r =
           (if existsb instrumental (srtToJson srt)
            then [lit "Partes instrumentais (🎵) foram identificadas e removidas da análise."]
            else [])
      /\ last (extractAudioTranscript w audioDataUrl).2 = Some Download
  else
    res_text r = None /\ segments r = None
    /\ exists e, error r = Some e /\ e <> [].
Proof.
  assert (Hfail : forall e ws, e <> [] ->
            res_text (failure e ws) = None /\ segments (failure e ws) = None
            /\ exists e', error (failure e ws) = Some e' /\ e' <> []).
  { intros e ws He. split; [done|]. split; [done|]. by exists e. }
  assert (Hcatch : forall e,
            lit "Erro ao transcrever áudio: " ++ messageOr e (lit "erro desconhecido") <> []).
  { intros e. apply lit_app_nonempty. distinct. }
  cbv zeta. unfold extractAudioTranscript.
  destruct (WHISPER_SRT_API_KEY w) as [[|c apiKey]|];
    [apply Hfail; distinct| |apply Hfail; distinct].
  destruct (parseAudioDataUrl audioDataUrl) as [file|]; [|apply Hfail; distinct].
  unfold transcribe.
  destruct (upload w (c :: apiKey) file) as [uploadRes|e]; [|apply Hfail, Hcatch].
  destruct (r_ok uploadRes); simpl negb; cbv iota.
  2:{ destruct (r_text uploadRes); [|apply Hfail, Hcatch].
      apply Hfail, lit_app_nonempty. distinct. }
  destruct (r_json uploadRes) as [job|e]; [|apply Hfail, Hcatch].
  destruct (pollLoop w (job_id job) (job_status job) 0 [Upload]) as [[[status attempts]|e] log];
    [|apply Hfail, Hcatch].
  case_bool_decide.
  { apply Hfail. case_decide; [distinct|]. apply lit_app_nonempty. distinct. }
  destruct (download w (job_id job)) as [downloadRes|e]; [|apply Hfail, Hcatch].
  destruct (r_ok downloadRes); simpl negb; cbv iota; [|apply Hfail; distinct].
  destruct (r_text downloadRes) as [srtText|e]; [|apply Hfail, Hcatch].
  case_decide as Hlen; [apply Hfail; distinct|].
  cbn [ok fst snd res_text segments error warnings].
  exists srtText. split; [done|]. split; [done|]. split; [lia|]. split; [done|].
  split; [done|]. apply last_snoc.
Qed.

(** X9.  The service is contacted only with the key configured and a
    base64 data URL in hand: the call has no effect on the outside exactly
    when the key is missing or empty or the content is not such a URL, and
    otherwise its first effect is the upload. *)
Theorem transcription_contacts_service_iff w audioDataUrl :
  let trace := (extractAudioTranscript w audioDataUrl).2 in
  (trace = [] <->
     WHISPER_SRT_API_KEY w = None \/ WHISPER_SRT_API_KEY w = Some []
     \/ parseAudioDataUrl audioDataUrl = None)
  /\ (trace = [] \/ head trace = Some Upload).
Proof.
  cbv zeta. split.
  - destruct (transcript_effects w audioDataUrl) as [E|(k & post & _ & E & _)].
    + split; [|done]. intros _. revert E. unfold extractAudioTranscript.
      destruct (WHISPER_SRT_API_KEY w) as [[|c apiKey]|]; [tauto| |tauto].
      destruct (parseAudioDataUrl audioDataUrl) as [file|]; [|tauto].
      intros E. exfalso. revert E. unfold transcribe.
      destruct (upload w (c :: apiKey) file) as [uploadRes|e]; [|done].
      destruct (r_ok uploadRes); simpl negb; cbv iota.
      2:{ by destruct (r_text uploadRes). }
      destruct (r_json uploadRes) as [job|e]; [|done].
      pose proof (pollLoop_bounded w (job_id job) (job_status job) 0 [Upload])
        as (k & _ & Htr & _).
      destruct (pollLoop w (job_id job) (job_status job) 0 [Upload])
        as [[[status attempts]|e] log]; simpl in Htr; subst log; [|done].
      case_bool_decide; [done|].
      destruct (download w (job_id job)) as [downloadRes|e]; [|done].
      destruct (r_ok downloadRes); simpl negb; cbv iota; [|done].
      destruct (r_text downloadRes); [|done]. by case_decide.
    + rewrite E. split; [done|]. unfold extractAudioTranscript in E.
      intros [Hk|[Hk|Hp]].
      * rewrite Hk in E. done.
      * rewrite Hk in E. done.
      * destruct (WHISPER_SRT_API_KEY w) as [[|c apiKey]|]; [done| |done].
        rewrite Hp in E. done.
  - destruct (transcript_effects w audioDataUrl) as [E|(k & post & _ & E & _)];
      [by left|right]. by rewrite E.
Qed.

Lemma transcription_contacts_service_iff_witness :
  (extractAudioTranscript Scenario.stuck (lit "https://example.org/clip.wav")).2 = [].
Proof.
  apply (proj1 (transcription_contacts_service_iff Scenario.stuck
                  (lit "https://example.org/clip.wav"))).
  right. right. reflexivity.
Defined.

(** X10.  The subtitles are downloaded only for a job the service has
    reported [DONE], at the upload or at one of the polls. *)
Theorem download_only_when_done w audioDataUrl :
  Download ∈ (extractAudioTranscript w audioDataUrl).2 ->
  exists apiKey file res job,
    WHISPER_SRT_API_KEY w = Some apiKey
    /\ parseAudioDataUrl audioDataUrl = Some file
    /\ upload w apiKey file = Returned res
    /\ r_ok res = true
    /\ r_json res = Returned job
    /\ (job_status job = DONE
        \/ exists n pollRes,
             (1 <= n <= MAX_POLL_ATTEMPTS)%nat
             /\ poll w (job_id job) n = Returned pollRes
             /\ r_ok pollRes = true
             /\ r_json pollRes = Returned DONE).
Proof.
  assert (Hno : forall k, Download ∉ [Upload] ++ pollTrace 0 k).
  { intros k H. apply elem_of_app in H as [H|H].
    - apply list_elem_of_singleton in H. discriminate H.
    - by apply pollTrace_no_download in H. }
  unfold extractAudioTranscript.
  destruct (WHISPER_SRT_API_KEY w) as [[|c apiKey]|]; [by intros H; apply elem_of_nil in H|
    |by intros H; apply elem_of_nil in H].
  destruct (parseAudioDataUrl audioDataUrl) as [file|]; [|by intros H; apply elem_of_nil in H].
  unfold transcribe.
  destruct (upload w (c :: apiKey) file) as [uploadRes|e] eqn:Hup;
    [|intros H; by apply (Hno 0%nat) in H].
  destruct (r_ok uploadRes) eqn:Hok; simpl negb; cbv iota.
  2:{ destruct (r_text uploadRes); intros H; by apply (Hno 0%nat) in H. }
  destruct (r_json uploadRes) as [job|e] eqn:Hjob; [|intros H; by apply (Hno 0%nat) in H].
  pose proof (pollLoop_bounded w (job_id job) (job_status job) 0 [Upload])
    as (k & Hk & Htr & Hb).
  pose proof (pollLoop_status w (job_id job) (job_status job) 0 [Upload]) as Hst.
  destruct (pollLoop w (job_id job) (job_status job) 0 [Upload])
    as [[[status attempts]|e] log]; simpl in Htr, Hst, Hb; subst log;
    [|intros H; by apply Hno in H].
  case_bool_decide as Hdone; [intros H; by apply Hno in H|].
  intros _. subst status.
  exists (c :: apiKey), file, uploadRes, job. repeat (split; [done|]).
  destruct Hst as [->|(n & pollRes & Hn & Hp & Hok' & Hj)]; [by left|].
  right. exists n, pollRes. destruct Hb as [-> _]. split; [lia|done].
Qed.

Lemma download_only_when_done_witness :
  exists job, Audio.r_json (Scenario.accepted Audio.PROCESSING) = Returned job
    /\ (job_status job = DONE
        \/ exists n pollRes,
             (1 <= n <= MAX_POLL_ATTEMPTS)%nat
             /\ poll (Cases.settles 3 DONE) (job_id job) n = Returned pollRes
             /\ r_ok pollRes = true /\ r_json pollRes = Returned DONE).
Proof.
  destruct (download_only_when_done (Cases.settles 3 DONE) Scenario.clip)
    as (apiKey & file & res & job & _ & _ & Hup & _ & Hjob & H).
  - vm_compute. set_solver.
  - injection Hup as <-. by exists job.
Defined.

(** X11.  A job that ends without being [DONE].  A status other than
    [PROCESSING] and [DONE], read at the upload or at a poll before the
    sixtieth, stops the polling there and is named in the failure.  The
    same status read at the sixtieth poll is reported as a timeout: the
    attempt count is looked at first. *)
Theorem failed_job_report w audioDataUrl id s :
  s <> PROCESSING -> s <> DONE ->
  (forall apiKey file res,
     WHISPER_SRT_API_KEY w = Some apiKey -> apiKey <> [] ->
     parseAudioDataUrl audioDataUrl = Some file ->
     upload w apiKey file = Returned res ->
     r_ok res = true ->
     r_json res = Returned {| job_id := id; job_status := s |} ->
     extractAudioTranscript w audioDataUrl =
       (failure (lit "Transcrição falhou (status: " ++ s ++ lit ").") [], [Upload]))
  /\ (forall n pollRes,
        submitted w audioDataUrl id ->
        (S n <= MAX_POLL_ATTEMPTS)%nat ->
        (forall m, (1 <= m <= n)%nat -> pending w id m) ->
        poll w id (S n) = Returned pollRes ->
        r_ok pollRes = true ->
        r_json pollRes = Returned s ->
        extractAudioTranscript w audioDataUrl =
          (failure
             (if decide (S n = MAX_POLL_ATTEMPTS)
              then lit "Tempo esgotado aguardando transcrição."
              else lit "Transcrição falhou (status: " ++ s ++ lit ").") [],
           [Upload] ++ pollTrace 0 (S n))).
Proof.
  intros Hproc Hdone. split.
  - intros apiKey file res Hkey Hne Hparse Hup Hok Hjob.
    unfold extractAudioTranscript. rewrite Hkey.
    destruct apiKey as [|c apiKey]; [done|].
    rewrite Hparse. unfold transcribe. rewrite Hup, Hok. simpl negb. cbv iota.
    rewrite Hjob. simpl job_id. simpl job_status.
    rewrite pollLoop_stops by done.
    rewrite (bool_decide_eq_true_2 _ Hdone).
    rewrite decide_False by (unfold MAX_POLL_ATTEMPTS; lia). done.
  - intros n pollRes Hs Hn Hpend Hp Hok' Hj. submit Hs.
    rewrite (pollLoop_settles w id s pollRes n 0 [Upload]);
      [|simpl; lia|intros m Hm; apply Hpend; lia|done|done|done|done].
    rewrite (bool_decide_eq_true_2 _ Hdone). simpl Nat.add.
    destruct (decide (S n = MAX_POLL_ATTEMPTS)) as [E|E].
    + rewrite decide_True by lia. done.
    + rewrite decide_False by lia. done.
Qed.

Lemma failed_job_report_witness :
  extractAudioTranscript (Cases.settles 2 (lit "FAILED")) Scenario.clip =
    (failure (lit "Transcrição falhou (status: FAILED).") [], [Upload] ++ pollTrace 0 2)
  /\ extractAudioTranscript (Cases.settles 60 (lit "FAILED")) Scenario.clip =
       (failure (lit "Tempo esgotado aguardando transcrição.") [],
        [Upload] ++ pollTrace 0 60).
Proof.
  assert (Hsub : forall n, submitted (Cases.settles n (lit "FAILED")) Scenario.clip (lit "job-1")).
  { intros n. eexists _, _, _. split; [reflexivity|]. split; [done|].
    split; [by vm_compute|]. split; [reflexivity|]. split; reflexivity. }
  assert (Hpend : forall n m, (1 <= m <= n)%nat ->
            pending (Cases.settles (S n) (lit "FAILED")) (lit "job-1") m).
  { intros n m Hm. unfold pending. simpl. eexists. split; [reflexivity|]. right.
    split; [done|]. simpl. rewrite (proj2 (Nat.ltb_lt m (S n))) by lia. done. }
  assert (Hpoll : forall n,
            poll (Cases.settles (S n) (lit "FAILED")) (lit "job-1") (S n)
            = Returned (Scenario.polled true 200 (lit "FAILED"))).
  { intros n. simpl. by rewrite Nat.ltb_irrefl. }
  split.
  - destruct (failed_job_report (Cases.settles 2 (lit "FAILED")) Scenario.clip (lit "job-1")
                (lit "FAILED")) as [_ H]; [distinct|distinct|].
    rewrite (H 1%nat (Scenario.polled true 200 (lit "FAILED")));
      [done|apply Hsub|unfold MAX_POLL_ATTEMPTS; lia|apply Hpend|apply Hpoll|done|done].
  - destruct (failed_job_report (Cases.settles 60 (lit "FAILED")) Scenario.clip (lit "job-1")
                (lit "FAILED")) as [_ H]; [distinct|distinct|].
    rewrite (H 59%nat (Scenario.polled true 200 (lit "FAILED")));
      [done|apply Hsub|unfold MAX_POLL_ATTEMPTS; lia|apply Hpend|apply Hpoll|done|done].
Defined.

(** X12.  A job that becomes [DONE].  After any number of pending polls, a
    poll that reads [DONE], the sixtieth included, ends the polling; the
    subtitles are downloaded once, and the result is built from them: a
    failure with the warning "no speech" when the flattened text has fewer
    than five code units, and otherwise the text with the parsed
    segments. *)
Theorem finished_job_result w audioDataUrl id n pollRes downloadRes srt :
  submitted w audioDataUrl id ->
  (S n <= MAX_POLL_ATTEMPTS)%nat ->
  (forall m, (1 <= m <= n)%nat -> pending w id m) ->
  poll w id (S n) = Returned pollRes ->
  r_ok pollRes = true ->
  r_json pollRes = Returned DONE ->
  download w id = Returned downloadRes ->
  r_ok downloadRes = true ->
  r_text downloadRes = Returned srt ->
  extractAudioTranscript w audioDataUrl =
    (if decide (length (segmentsToText (srtToJson srt)) < 5)%nat then
       failure (lit "Transcrição do áudio está vazia ou contém apenas instrumentais.")
         [lit "Nenhuma fala detectada no áudio."]
     else
       {| ok := true; res_text := Some (segmentsToText (srtToJson srt));
          segments := Some (srtToJson srt);
          warnings :=
            if existsb instrumental (srtToJson srt)
            then [lit "Partes instrumentais (🎵) foram identificadas e removidas da análise."]
            else [];
          error := None |},
     [Upload] ++ pollTrace 0 (S n) ++ [Download]).
Proof.
  intros Hs Hn Hpend Hp Hok' Hj Hd Hdok Hdt. submit Hs.
  rewrite (pollLoop_settles w id DONE pollRes n 0 [Upload]);
    [|simpl; lia|intros m Hm; apply Hpend; lia|done|done|done
     |intros E; by apply PROCESSING_not_DONE].
  rewrite bool_decide_eq_false_2 by (intros E; by apply E).
  rewrite Hd, Hdok. simpl negb. cbv iota. rewrite Hdt.
  rewrite <- app_assoc. by case_decide.
Qed.

Lemma finished_job_result_witness :
  extractAudioTranscript (Cases.settles 60 DONE) Scenario.clip =
    ({| ok := true; res_text := Some (lit "Bom dia a todos");
        segments := Some (srtToJson Scenario.subtitles);
        warnings :=
          [lit "Partes instrumentais (🎵) foram identificadas e removidas da análise."];
        error := None |},
     [Upload] ++ pollTrace 0 60 ++ [Download]).
Proof.
  rewrite (finished_job_result (Cases.settles 60 DONE) Scenario.clip (lit "job-1") 59
             (Scenario.polled true 200 DONE) Scenario.downloaded Scenario.subtitles).
  - reflexivity.
  - eexists _, _, _. split; [reflexivity|]. split; [done|].
    split; [by vm_compute|]. split; [reflexivity|]. split; reflexivity.
  - unfold MAX_POLL_ATTEMPTS. lia.
  - intros m Hm. unfold pending. simpl. eexists. split; [reflexivity|]. right.
    split; [done|]. simpl. rewrite (proj2 (Nat.ltb_lt m 60)) by lia. done.
  - reflexivity.
  - reflexivity.
  - reflexivity.
  - reflexivity.
  - reflexivity.
  - reflexivity.
Defined.

End TranscriptionFacts.

Section VideoIdFacts.
Import YouTube.
Local Open Scope N_scope.

Lemma startsWith_split p s : JS.startsWith p s = true -> exists r, s = p ++ r.
Proof.
  revert s. induction p as [|a p IH]; intros s; [by exists s|].
  destruct s as [|b s]; simpl; [done|].
  rewrite andb_true_iff. intros [Hab H]. apply N.eqb_eq in Hab as ->.
  destruct (IH s H) as [r ->]. by exists r.
Qed.

Lemma startsWith_self p r : JS.startsWith p (p ++ r) = true.
Proof. induction p as [|a p IH]; [done|]. simpl. by rewrite N.eqb_refl. Qed.

Lemma idAfter_sound p s id :
  idAfter p s = Some id ->
  length id = 11%nat /\ forallb isIdChar id = true /\ exists post, s = p ++ id ++ post.
Proof.
  unfold idAfter. destruct (JS.startsWith p s) eqn:Hp; [|done].
  destruct (startsWith_split p s Hp) as [r ->].
  rewrite drop_app_length.
  destruct (bool_decide (length (take 11 r) = 11%nat)) eqn:Hl; [|done].
  destruct (forallb isIdChar (take 11 r)) eqn:Hc; [|done].
  simpl. intros [= <-]. apply bool_decide_eq_true in Hl.
  split; [done|]. split; [done|]. exists (drop 11 r). by rewrite take_drop.
Qed.

Lemma idAfter_complete p id post :
  length id = 11%nat -> forallb isIdChar id = true ->
  idAfter p (p ++ id ++ post) = Some id.
Proof.
  intros Hl Hc. unfold idAfter. rewrite startsWith_self, drop_app_length.
  rewrite take_app_length' by done.
  by rewrite Hc, bool_decide_eq_true_2.
Qed.

Lemma firstSome_elem {A} (xs : list (option A)) a :
  firstSome xs = Some a -> Some a ∈ xs.
Proof.
  induction xs as [|[b|] xs IH]; simpl; [done| |].
  - intros [= ->]. by left.
  - intros H. right. by apply IH.
Qed.

Lemma firstSome_some {A} (xs : list (option A)) a :
  Some a ∈ xs -> is_Some (firstSome xs).
Proof.
  induction xs as [|[b|] xs IH]; simpl.
  - intros H. by apply elem_of_nil in H.
  - intros _. by eexists.
  - intros H. apply elem_of_cons in H as [H|H]; [done|]. by apply IH.
Qed.

Lemma idAt_sound s id :
  idAt s = Some id ->
  length id = 11%nat /\ forallb isIdChar id = true
  /\ exists p post, p ∈ idPrefixes /\ s = p ++ id ++ post.
Proof.
  unfold idAt. intros H. apply firstSome_elem, list_elem_of_fmap in H as (p & Hp & Hin).
  symmetry in Hp. destruct (idAfter_sound p s id Hp) as (Hl & Hc & post & ->).
  split; [done|]. split; [done|]. by exists p, post.
Qed.

Lemma matchVideoId_sound s : forall id,
  matchVideoId s = Some id ->
  length id = 11%nat /\ forallb isIdChar id = true
  /\ exists pre p post, p ∈ idPrefixes /\ s = pre ++ p ++ id ++ post.
Proof.
  induction s as [|c s IH]; intros id; cbn [matchVideoId].
  - destruct (idAt []) eqn:E; [|done]. intros [= ->].
    destruct (idAt_sound _ _ E) as (Hl & Hc & p & post & Hp & Hs).
    split; [done|]. split; [done|]. by exists [], p, post.
  - destruct (idAt (c :: s)) eqn:E.
    + intros [= ->]. destruct (idAt_sound _ _ E) as (Hl & Hc & p & post & Hp & Hs).
      split; [done|]. split; [done|]. by exists [], p, post.
    + intros H. destruct (IH id H) as (Hl & Hc & pre & p & post & Hp & ->).
      split; [done|]. split; [done|]. by exists (c :: pre), p, post.
Qed.

Lemma matchVideoId_complete pre p id post :
  p ∈ idPrefixes -> length id = 11%nat -> forallb isIdChar id = true ->
  is_Some (matchVideoId (pre ++ p ++ id ++ post)).
Proof.
  intros Hp Hl Hc.
  assert (Hat : is_Some (idAt (p ++ id ++ post))).
  { unfold idAt. apply (firstSome_some _ id). apply list_elem_of_fmap.
    exists p. split; [|done]. symmetry. by apply idAfter_complete. }
  induction pre as [|c pre IH].
  - simpl app. destruct (p ++ id ++ post); cbn [matchVideoId];
      destruct Hat as [x ->]; by eexists.
  - simpl app. cbn [matchVideoId]. destruct (idAt (c :: pre ++ p ++ id ++ post)); [by eexists|].
    exact IH.
Qed.

(** X13.  The video id is what [YOUTUBE_ID_REGEX] captures: eleven code
    units of [A-Za-z0-9_-] that follow one of the four markers somewhere in
    the link; what follows the eleventh is not looked at.  A link has no id
    exactly when it has no such occurrence. *)
Theorem matchVideoId_captures url :
  (forall id,
     matchVideoId url = Some id ->
     length id = 11%nat /\ forallb isIdChar id = true
     /\ exists pre p post, p ∈ idPrefixes /\ url = pre ++ p ++ id ++ post)
  /\ (matchVideoId url = None <->
      ~ exists pre p id post,
          p ∈ idPrefixes /\ length id = 11%nat /\ forallb isIdChar id = true
          /\ url = pre ++ p ++ id ++ post).
Proof.
  split; [apply matchVideoId_sound|]. split.
  - intros Hnone (pre & p & id & post & Hp & Hl & Hc & ->).
    destruct (matchVideoId_complete pre p id post Hp Hl Hc) as [x Hx]. congruence.
  - intros Hno. destruct (matchVideoId url) as [id|] eqn:E; [|done].
    exfalso. apply Hno. destruct (matchVideoId_sound url id E) as (Hl & Hc & pre & p & post & Hp & Hs).
    by exists pre, p, id, post.
Qed.

Lemma matchVideoId_captures_witness :
  length (lit "abc12345678") = 11%nat
  /\ matchVideoId (lit "https://youtu.be/abc1234567") = None.
Proof.
  split.
  - apply (proj1 (matchVideoId_captures (lit "see https://youtu.be/abc12345678XYZ?t=10"))).
    reflexivity.
  - reflexivity.
Defined.

End VideoIdFacts.

Section CaptionResultFacts.
Import YouTube.

Lemma caught_shape msg ws :
  exists e, caught msg ws = failure e ws /\ e <> []
    /\ (e = NO_TRANSCRIPT <->
        JS.includes (lit "disabled") msg = true
        \/ JS.includes (lit "not available") msg = true
        \/ JS.includes (lit "Could not") msg = true).
Proof.
  unfold caught.
  destruct (JS.includes (lit "disabled") msg || JS.includes (lit "not available") msg
            || JS.includes (lit "Could not") msg) eqn:E.
  - exists NO_TRANSCRIPT. split; [done|]. split; [distinct|].
    split; [|done]. intros _. rewrite !orb_true_iff in E.
    destruct E as [[E|E]|E]; [by left|right; by left|right; by right].
  - eexists. split; [reflexivity|]. rewrite !orb_false_iff in E.
    destruct E as [[E1 E2] E3]. rewrite E1, E2, E3.
    split; [|split; [|intros [H|[H|H]]; discriminate H]].
    + intros H. apply (f_equal length) in H. rewrite length_app in H. vm_compute in H. lia.
    + intros H. apply (f_equal head) in H. vm_compute in H. discriminate H.
Qed.

(** X14.  Errors of the caption source.  When the import of the package or
    the fetch for Portuguese captions throws, nothing further is fetched:
    the result is a failure with no warnings, whose message is "no
    transcript" exactly when the error's text contains "disabled", "not
    available" or "Could not", and names the error otherwise. *)
Theorem caption_errors_are_classified c url videoId msg :
  matchVideoId url = Some videoId ->
  import_package c = Thrown msg
  \/ ((exists u, import_package c = Returned u)
      /\ fetchTranscript c videoId (Some (lit "pt")) = Thrown msg) ->
  let (r, calls) := extractYouTubeTranscript c url in
  (Fetch videoId None ∉ calls)
  /\ (length calls <= 1)%nat
  /\ r = caught msg []
  /\ ok r = false /\ YouTube.warnings r = []
  /\ (error r = Some NO_TRANSCRIPT <->
      JS.includes (lit "disabled") msg = true
      \/ JS.includes (lit "not available") msg = true
      \/ JS.includes (lit "Could not") msg = true).
Proof.
  intros Hid H. unfold extractYouTubeTranscript. rewrite Hid.
  destruct (caught_shape msg []) as (e & Hc & He & Hiff).
  assert (Hr : ok (caught msg []) = false /\ YouTube.warnings (caught msg []) = []
               /\ (error (caught msg []) = Some NO_TRANSCRIPT <->
                   JS.includes (lit "disabled") msg = true
                   \/ JS.includes (lit "not available") msg = true
                   \/ JS.includes (lit "Could not") msg = true)).
  { rewrite Hc. split; [done|]. split; [done|]. rewrite <- Hiff. cbn [error failure].
    split; [by intros [= ->]|by intros ->]. }
  destruct H as [Hi|[[u Hi] Hf]]; rewrite Hi; [|rewrite Hf].
  - split; [apply not_elem_of_nil|]. split; [simpl; lia|]. by split.
  - split.
    + intros Hin. apply list_elem_of_singleton in Hin. discriminate Hin.
    + split; [simpl; lia|]. by split.
Qed.

Lemma caption_errors_are_classified_witness :
  let c := {| import_package := Returned ();
              fetchTranscript := fun _ _ => Thrown (lit "Transcript is disabled on this video") |} in
  (extractYouTubeTranscript c Scenario.watch).1 = failure NO_TRANSCRIPT [].
Proof.
  intros c.
  pose proof (caption_errors_are_classified c Scenario.watch (lit "abc12345678")
                (lit "Transcript is disabled on this video")) as H.
  destruct (extractYouTubeTranscript c Scenario.watch) as [r calls].
  destruct H as (_ & _ & -> & _); [reflexivity| |reflexivity].
  right. split; [by exists ()|reflexivity].
Defined.

Lemma buildTranscriptResult_shape text videoId url ws :
  let r := buildTranscriptResult text videoId url ws in
  if ok r then
    exists cleaned,
      YouTube.text r = Some (header videoId ++ cleaned)
      /\ 100 <= Z.of_nat (length cleaned) <= 10000
      /\ title r = Some (lit "Vídeo YouTube: " ++ videoId)
      /\ sourceUrl r = Some url /\ error r = None
      /\ (YouTube.warnings r = ws \/ YouTube.warnings r = ws ++ [TRUNCATED])
  else
    r = failure TOO_SHORT ws.
Proof.
  cbv zeta. rewrite buildTranscriptResult_cases. cbv zeta.
  destruct (decide (Z.of_nat (length (clean text)) < 100)); [done|].
  destruct (decide (10000 < Z.of_nat (length (clean text)))); cbn [ok].
  - exists (JS.slice 0 10000 (clean text)). split; [done|].
    split; [rewrite slice_length; lia|]. split; [done|]. split; [done|]. split; [done|].
    by right.
  - exists (clean text). split; [done|]. split; [lia|]. split; [done|]. split; [done|].
    split; [done|]. by left.
Qed.

(** X15.  The shape of every result of the caption extractor.  With [ok]
    set, the text is the header that names the video id followed by between
    100 and 10,000 code units, the title names the id, the source is the
    link as given, there is no error, and the warnings are among the note
    on the fallback language and the note on truncation, in that order.
    With [ok] unset there is no text, title or source, but a non-empty
    error message. *)
Theorem caption_result_shape c url :
  let r := (extractYouTubeTranscript c url).1 in
  if ok r then
    exists videoId cleaned,
      matchVideoId url = Some videoId
      /\ YouTube.text r = Some (header videoId ++ cleaned)
      /\ 100 <= Z.of_nat (length cleaned) <= 10000
      /\ title r = Some (lit "Vídeo YouTube: " ++ videoId)
      /\ sourceUrl r = Some url
      /\ error r = None
      /\ YouTube.warnings r ∈
           [[]; [TRUNCATED]; [FALLBACK_LANGUAGE]; [FALLBACK_LANGUAGE; TRUNCATED]]
  else
    YouTube.text r = None /\ title r = None /\ sourceUrl r = None
    /\ exists e, error r = Some e /\ e <> [].
Proof.
  cbv zeta.
  set (P := fun r : ExtractionResult =>
    if ok r then
      exists videoId cleaned,
        matchVideoId url = Some videoId
        /\ YouTube.text r = Some (header videoId ++ cleaned)
        /\ 100 <= Z.of_nat (length cleaned) <= 10000
        /\ title r = Some (lit "Vídeo YouTube: " ++ videoId)
        /\ sourceUrl r = Some url
        /\ error r = None
        /\ YouTube.warnings r ∈
             [[]; [TRUNCATED]; [FALLBACK_LANGUAGE]; [FALLBACK_LANGUAGE; TRUNCATED]]
    else
      YouTube.text r = None /\ title r = None /\ sourceUrl r = None
      /\ exists e, error r = Some e /\ e <> []).
  change (P (extractYouTubeTranscript c url).1).
  assert (Hfail : forall e ws, e <> [] -> P (failure e ws)).
  { intros e ws He. unfold P. cbn [ok failure YouTube.text title sourceUrl error].
    repeat (split; [done|]). by exists e. }
  assert (Hcaught : forall msg, P (caught msg [])).
  { intros msg. destruct (caught_shape msg []) as (e & -> & He & _). by apply Hfail. }
  assert (Hbuild : forall text videoId ws,
            matchVideoId url = Some videoId ->
            ws = [] \/ ws = [FALLBACK_LANGUAGE] ->
            P (buildTranscriptResult text videoId url ws)).
  { intros text videoId ws Hid Hws.
    pose proof (buildTranscriptResult_shape text videoId url ws) as H. cbv zeta in H.
    unfold P. destruct (ok (buildTranscriptResult text videoId url ws)).
    - destruct H as (cleaned & Ht & Hl & Hti & Hs & He & Hw).
      exists videoId, cleaned. repeat (split; [done|]).
      destruct Hws as [-> | ->]; destruct Hw as [-> | ->]; rewrite !elem_of_cons.
      + by left.
      + right. by left.
      + right. right. by left.
      + right. right. right. by left.
    - rewrite H. apply Hfail. distinct. }
  clearbody P. unfold extractYouTubeTranscript.
  destruct (matchVideoId url) as [videoId|]; [|apply Hfail; distinct].
  destruct (import_package c); [|apply Hcaught].
  destruct (fetchTranscript c videoId (Some (lit "pt"))) as [items|]; [|apply Hcaught].
  destruct (noItems items).
  - destruct (noItems _); [apply Hfail; distinct|].
    apply (Hbuild _ videoId [FALLBACK_LANGUAGE]); [done|by right].
  - apply (Hbuild _ videoId []); [done|by left].
Qed.

End CaptionResultFacts.

Section DataUrlFacts.
Local Open Scope N_scope.

Lemma upTo_prefix d s : s = JS.upTo d s ++ drop (length (JS.upTo d s)) s.
Proof.
  induction s as [|c s IH]; [done|]. simpl.
  destruct (c =? d); [done|]. simpl. by rewrite <- IH.
Qed.

Lemma upTo_without d s : d ∉ JS.upTo d s.
Proof.
  induction s as [|c s IH]; simpl; [apply not_elem_of_nil|].
  destruct (N.eqb_spec c d) as [->|Hne]; [apply not_elem_of_nil|].
  rewrite elem_of_cons. intros [H|H]; [by apply Hne|done].
Qed.

Lemma upTo_app d m r : d ∉ m -> JS.upTo d (m ++ d :: r) = m.
Proof.
  induction m as [|c m IH]; intros Hd; simpl.
  - by rewrite N.eqb_refl.
  - destruct (N.eqb_spec c d) as [->|Hne].
    + exfalso. apply Hd. by left.
    + f_equal. apply IH. intros H. apply Hd. by right.
Qed.

Lemma matchDataUrl_sound s mime data :
  Audio.matchDataUrl s = Some (mime, data) ->
  s = lit "data:" ++ mime ++ lit ";base64," ++ data
  /\ mime <> [] /\ (59 ∉ mime) /\ data <> [].
Proof.
  unfold Audio.matchDataUrl.
  destruct (JS.startsWith (lit "data:") s) eqn:Hp; [|done].
  destruct (startsWith_split _ _ Hp) as [r ->].
  change (drop 5 (lit "data:" ++ r)) with r.
  set (m := JS.upTo 59 r). set (rest := drop (length m) r).
  case_bool_decide as Hm; [|done].
  destruct (JS.startsWith (lit ";base64,") rest) eqn:Hb; [|done].
  case_bool_decide as Hd; [|done].
  cbn [andb]. intros [= <- <-].
  destruct (startsWith_split _ _ Hb) as [payload Hrest].
  rewrite Hrest. change (drop 8 (lit ";base64," ++ payload)) with payload.
  split.
  - f_equal. rewrite (upTo_prefix 59 r). fold m rest. by rewrite Hrest.
  - split; [done|]. split; [apply upTo_without|].
    rewrite Hrest in Hd. exact Hd.
Qed.

Lemma matchDataUrl_complete mime data :
  mime <> [] -> 59 ∉ mime -> data <> [] ->
  Audio.matchDataUrl (lit "data:" ++ mime ++ lit ";base64," ++ data) = Some (mime, data).
Proof.
  intros Hm Hs Hd. unfold Audio.matchDataUrl.
  rewrite startsWith_self.
  change (drop 5 (lit "data:" ++ ?r)) with r.
  change (lit ";base64," ++ data) with (59 :: (lit "base64," ++ data)).
  rewrite (upTo_app 59 mime _ Hs), drop_app_length.
  change (59 :: lit "base64," ++ data) with (lit ";base64," ++ data).
  rewrite startsWith_self.
  change (drop 8 (lit ";base64," ++ data)) with data.
  by rewrite !bool_decide_eq_true_2.
Qed.

End DataUrlFacts.

Section PipelineInput.
Import Pipeline.
Local Open Scope N_scope.

(** X16.  A data URL is read back exactly.  [parseDataUrl] accepts the
    strings that are [data:], a non-empty media type free of [;], the marker
    [;base64,] and a non-empty payload, and returns those two parts; white
    space and line breaks in the payload are kept.  The audio extractor's
    [parseAudioDataUrl] accepts the same strings and reads the same two
    parts. *)
Theorem parseDataUrl_reads_back content :
  (forall mime data,
     parseDataUrl content = Some (mime, data) <->
     content = lit "data:" ++ mime ++ lit ";base64," ++ data
     /\ mime <> [] /\ (59 ∉ mime) /\ data <> [])
  /\ (forall file,
        Audio.parseAudioDataUrl content = Some file ->
        parseDataUrl content = Some (Audio.mimeType file, Audio.buffer file))
  /\ (Audio.parseAudioDataUrl content = None <-> parseDataUrl content = None).
Proof.
  unfold parseDataUrl, Audio.parseAudioDataUrl. split; [|split].
  - intros mime data. split; [apply matchDataUrl_sound|].
    intros (-> & Hm & Hs & Hd). by apply matchDataUrl_complete.
  - intros file. destruct (Audio.matchDataUrl content) as [[mime data]|]; [|done].
    by intros [= <-].
  - by destruct (Audio.matchDataUrl content) as [[mime data]|].
Qed.

Lemma parseDataUrl_reads_back_witness :
  parseDataUrl (lit "data:image/png;base64,iVBOR" ++ [10] ++ lit "w0KGgo=")
  = Some (lit "image/png", lit "iVBOR" ++ [10] ++ lit "w0KGgo=").
Proof.
  apply (proj1 (parseDataUrl_reads_back
                  (lit "data:image/png;base64,iVBOR" ++ [10] ++ lit "w0KGgo="))).
  split; [reflexivity|]. split; [distinct|]. split; [|distinct].
  intros H. apply list_elem_of_In in H. vm_compute in H. intuition discriminate.
Defined.

End PipelineInput.

Section FenceFacts.
Import Pipeline.
Local Open Scope N_scope.

Lemma trimStart_blank ws z :
  Forall (fun c => JS.isWhiteSpace c = true) ws -> JS.trimStart (ws ++ z) = JS.trimStart z.
Proof. induction 1 as [|c ws Hc _ IH]; [done|]. simpl. by rewrite Hc. Qed.

Lemma trimStart_solid body y :
  JS.trimStart body = body -> body <> [] -> JS.trimStart (body ++ y) = body ++ y.
Proof.
  destruct body as [|c body]; [done|]. simpl.
  destruct (JS.isWhiteSpace c); [|done].
  intros H _. pose proof (trimStart_length body) as Hl. rewrite H in Hl. simpl in Hl. lia.
Qed.

Lemma trimEnd_blank z ws :
  Forall (fun c => JS.isWhiteSpace c = true) ws -> JS.trimEnd (z ++ ws) = JS.trimEnd z.
Proof.
  intros H. unfold JS.trimEnd. rewrite rev_app_distr, trimStart_blank; [done|].
  apply Forall_forall. intros c Hc. rewrite Forall_forall in H. apply H.
  by apply elem_of_rev.
Qed.

Lemma trimEnd_solid y body :
  JS.trimEnd body = body -> body <> [] -> JS.trimEnd (y ++ body) = y ++ body.
Proof.
  unfold JS.trimEnd. intros H Hne.
  assert (H' : JS.trimStart (rev body) = rev body).
  { rewrite <- H at 2. by rewrite rev_involutive. }
  rewrite rev_app_distr, trimStart_solid; [by rewrite <- rev_app_distr, rev_involutive|done|].
  intros E. apply Hne. by rewrite <- (rev_involutive body), E.
Qed.

Lemma trimmed_ends body :
  JS.trim body = body -> JS.trimStart body = body /\ JS.trimEnd body = body.
Proof. intros H. rewrite <- H. split; [apply trimStart_trim|apply trimEnd_trim]. Qed.

(** Trimming a fenced text with white space around it. *)
Lemma trim_fenced lead m trail :
  Forall (fun c => JS.isWhiteSpace c = true) lead ->
  Forall (fun c => JS.isWhiteSpace c = true) trail ->
  JS.trim (lead ++ (fence ++ m ++ fence) ++ trail) = fence ++ m ++ fence.
Proof.
  intros Hl Ht. unfold JS.trim. rewrite trimStart_blank by done.
  rewrite <- !app_assoc. rewrite (trimStart_solid fence); [|done|done].
  rewrite !app_assoc. rewrite trimEnd_blank by done.
  apply trimEnd_solid; done.
Qed.

Lemma endsWith_self w p : JS.endsWith p (w ++ p) = true.
Proof. unfold JS.endsWith. rewrite rev_app_distr. apply startsWith_self. Qed.

Lemma stripClosingFence_fenced body gap :
  JS.trim body = body -> body <> [] ->
  Forall (fun c => JS.isWhiteSpace c = true) gap ->
  stripClosingFence (body ++ gap ++ fence) = body.
Proof.
  intros Hb Hne Hg. unfold stripClosingFence.
  rewrite app_assoc, endsWith_self.
  replace (length ((body ++ gap) ++ fence) - 3)%nat with (length (body ++ gap))
    by (rewrite (length_app (body ++ gap)); simpl; lia).
  rewrite take_app_length, trimEnd_blank by done.
  by apply trimmed_ends.
Qed.

Lemma stripOpeningFence_fenced tag gap body rest :
  JS.trim body = body -> body <> [] ->
  Forall (fun c => JS.isWhiteSpace c = true) gap ->
  tag = lit "json" \/ (tag = [] /\ JS.startsWith (lit "j") (gap ++ body) = false) ->
  stripOpeningFence (fence ++ tag ++ gap ++ body ++ rest) = body ++ rest.
Proof.
  intros Hb Hne Hg Htag. unfold stripOpeningFence. rewrite startsWith_self.
  change (drop 3 (fence ++ ?r)) with r.
  assert (Hstart : JS.trimStart (gap ++ body ++ rest) = body ++ rest).
  { rewrite trimStart_blank by done. apply trimStart_solid; [|done]. by apply trimmed_ends. }
  destruct Htag as [->|[-> Hj]].
  - rewrite startsWith_self. change (drop 4 (lit "json" ++ ?r)) with r. exact Hstart.
  - simpl app. rewrite app_assoc.
    destruct (gap ++ body) as [|c z] eqn:E.
    + apply app_eq_nil in E as [_ E]. done.
    + change (lit "j") with [106] in Hj. cbn [JS.startsWith] in Hj.
      rewrite andb_true_r in Hj.
      simpl app. change (lit "json") with (106 :: lit "son"). cbn [JS.startsWith].
      rewrite Hj. cbn [andb]. rewrite app_comm_cons, <- E, <- app_assoc. exact Hstart.
Qed.

(** X17.  A reply wrapped in a Markdown code fence is unwrapped.  With
    white space before and after the fence allowed, an opening fence with
    the tag [json] or with no tag, and white space between the fences and
    the body, [unfenced] returns the body itself (for a body that is
    trimmed and not empty; with no tag, provided what follows the opening
    fence does not begin with [j]).  A closing fence is not required: a
    body that stops without one is returned as well. *)
Theorem unfenced_unwraps lead tag gap body gap' trail :
  Forall (fun c => JS.isWhiteSpace c = true) lead ->
  Forall (fun c => JS.isWhiteSpace c = true) gap ->
  Forall (fun c => JS.isWhiteSpace c = true) gap' ->
  Forall (fun c => JS.isWhiteSpace c = true) trail ->
  JS.trim body = body -> body <> [] ->
  tag = lit "json" \/ (tag = [] /\ JS.startsWith (lit "j") (gap ++ body) = false) ->
  unfenced (lead ++ fence ++ tag ++ gap ++ body ++ gap' ++ fence ++ trail) = body
  /\ (JS.endsWith fence body = false ->
      unfenced (lead ++ fence ++ tag ++ gap ++ body ++ trail) = body).
Proof.
  intros Hl Hg Hg' Ht Hb Hne Htag. split.
  - unfold unfenced.
    replace (lead ++ fence ++ tag ++ gap ++ body ++ gap' ++ fence ++ trail)
      with (lead ++ (fence ++ (tag ++ gap ++ body ++ gap') ++ fence) ++ trail)
      by (by rewrite <- !app_assoc).
    rewrite trim_fenced by done. rewrite startsWith_self.
    rewrite <- !app_assoc.
    rewrite (stripOpeningFence_fenced tag gap body (gap' ++ fence)) by done.
    by apply stripClosingFence_fenced.
  - intros Hend. unfold unfenced.
    assert (Htrim : JS.trim (lead ++ fence ++ tag ++ gap ++ body ++ trail)
                    = fence ++ tag ++ gap ++ body).
    { unfold JS.trim. rewrite trimStart_blank by done.
      rewrite (trimStart_solid fence); [|done|done].
      replace (fence ++ tag ++ gap ++ body ++ trail)
        with ((fence ++ tag ++ gap ++ body) ++ trail) by (by rewrite <- !app_assoc).
      rewrite trimEnd_blank by done.
      replace (fence ++ tag ++ gap ++ body) with ((fence ++ tag ++ gap) ++ body)
        by (by rewrite <- !app_assoc).
      apply trimEnd_solid; [|done]. by apply trimmed_ends. }
    rewrite Htrim, startsWith_self.
    rewrite <- (app_nil_r body) at 1.
    rewrite (stripOpeningFence_fenced tag gap body []) by done. rewrite app_nil_r.
    unfold stripClosingFence. by rewrite Hend.
Qed.

Lemma unfenced_unwraps_witness :
  unfenced (lit "```json" ++ [10] ++ lit "[1, 2]" ++ [10] ++ lit "```" ++ [10])
  = lit "[1, 2]".
Proof.
  apply (proj1 (unfenced_unwraps [] (lit "json") [10] (lit "[1, 2]") [10] [10]
                  ltac:(constructor) ltac:(by repeat constructor)
                  ltac:(by repeat constructor) ltac:(by repeat constructor)
                  eq_refl ltac:(distinct) ltac:(by left))).
Defined.

End FenceFacts.

Section CompletionFacts.
Import Pipeline.

Lemma getProp_setInner_ne k k' f x v v' :
  k <> k' -> setInner k f x v = Returned v' -> getProp k' v' = getProp k' v.
Proof.
  intros Hne. unfold setInner.
  destruct (getProp k v) as [[inner|]|]; [|done|done].
  destruct (setProp f x inner); [|done]. by apply getProp_setProp_ne.
Qed.

Lemma path_meta_orDefault_ne k d f v v' :
  k <> lit "meta" -> orDefault k d v = Returned v' ->
  path [lit "meta"; f] v' = path [lit "meta"; f] v.
Proof. intros Hne H. simpl. by rewrite (getProp_orDefault_ne _ _ _ _ _ Hne H). Qed.

(** The steps of [complete], named. *)
Lemma complete_steps g inputType fingerprint parsed v :
  complete g inputType fingerprint parsed = Returned v ->
  exists p1 p2 p3 p4 p5 p6 p7,
    orDefault (lit "meta") (metaDefault g inputType []) parsed = Returned p1
    /\ orDefault (lit "scores")
         (VObj [(lit "fakeProbability", VNum 0%float); (lit "verifiableTruth", VNum 0%float);
                (lit "biasFraming", VNum 0%float); (lit "manipulationRisk", VNum 0%float)]) p1
       = Returned p2
    /\ orDefault (lit "summary")
         (VObj [(lit "headline", str "Resultado"); (lit "oneParagraph", VStr []);
                (lit "verdict", str "Inconclusivo")]) p2 = Returned p3
    /\ orDefault (lit "claims") (VArr [] []) p3 = Returned p4
    /\ orDefault (lit "similar")
         (VObj [(lit "searchQueries", VArr [] []); (lit "externalChecks", VArr [] [])]) p4
       = Returned p5
    /\ orDefault (lit "reportMarkdown") (VStr []) p5 = Returned p6
    /\ setInner (lit "meta") (lit "fingerprint") (VStr fingerprint) p6 = Returned p7
    /\ setProp (lit "ok") (VBool true) p7 = Returned v.
Proof.
  unfold complete, bind.
  destruct (orDefault (lit "meta") _ parsed) as [p1|] eqn:E1; [|done].
  destruct (orDefault (lit "scores") _ p1) as [p2|] eqn:E2; [|done].
  destruct (orDefault (lit "summary") _ p2) as [p3|] eqn:E3; [|done].
  destruct (orDefault (lit "claims") _ p3) as [p4|] eqn:E4; [|done].
  destruct (orDefault (lit "similar") _ p4) as [p5|] eqn:E5; [|done].
  destruct (orDefault (lit "reportMarkdown") _ p5) as [p6|] eqn:E6; [|done].
  destruct (setInner _ _ _ p6) as [p7|] eqn:E7; [|done].
  intros E8. by exists p1, p2, p3, p4, p5, p6, p7.
Qed.

(** [parsed.k || d] *)
Lemma complete_fields g inputType fingerprint parsed v :
  complete g inputType fingerprint parsed = Returned v ->
  forall k d,
    (k, d) ∈
      [(lit "scores",
        VObj [(lit "fakeProbability", VNum 0%float); (lit "verifiableTruth", VNum 0%float);
              (lit "biasFraming", VNum 0%float); (lit "manipulationRisk", VNum 0%float)]);
       (lit "summary",
        VObj [(lit "headline", str "Resultado"); (lit "oneParagraph", VStr []);
              (lit "verdict", str "Inconclusivo")]);
       (lit "claims", VArr [] []);
       (lit "similar",
        VObj [(lit "searchQueries", VArr [] []); (lit "externalChecks", VArr [] [])]);
       (lit "reportMarkdown", VStr [])] ->
    getProp k v =
      Returned (Some match getProp k parsed with
                     | Returned (Some c) => if truthy c then c else d
                     | _ => d
                     end).
Proof.
  intros H. destruct (complete_steps _ _ _ _ _ H)
    as (p1 & p2 & p3 & p4 & p5 & p6 & p7 & E1 & E2 & E3 & E4 & E5 & E6 & E7 & E8).
  intros k d Hk. rewrite !elem_of_cons in Hk.
  destruct Hk as [Hk|[Hk|[Hk|[Hk|[Hk|Hk]]]]]; [..|by apply elem_of_nil in Hk];
    injection Hk as -> ->;
    rewrite (fun Hne => getProp_setProp_ne _ _ _ _ _ Hne E8) by distinct;
    rewrite (fun Hne => getProp_setInner_ne _ _ _ _ _ _ Hne E7) by distinct;
    repeat match goal with
           | E : orDefault ?k _ ?p = Returned ?p' |- context [getProp _ ?p'] =>
             first [ rewrite (getProp_orDefault _ _ _ _ E)
                   | rewrite (fun Hne => getProp_orDefault_ne _ _ _ _ _ Hne E) by distinct ]
           end;
    reflexivity.
Qed.

(** What the reply's [meta] held stays, the fingerprint apart. *)
Lemma complete_meta g inputType fingerprint parsed v f y :
  complete g inputType fingerprint parsed = Returned v ->
  f <> lit "fingerprint" ->
  path [lit "meta"; f] parsed = Some y ->
  path [lit "meta"; f] v = Some y.
Proof.
  intros H Hf Hy. destruct (complete_steps _ _ _ _ _ H)
    as (p1 & p2 & p3 & p4 & p5 & p6 & p7 & E1 & E2 & E3 & E4 & E5 & E6 & E7 & E8).
  apply (path_meta_setProp_ne (lit "ok") _ _ _ _ _ ltac:(distinct) E8).
  apply (path_setInner_ne _ (lit "fingerprint") f _ _ _ _ ltac:(congruence) E7).
  rewrite (path_meta_orDefault_ne (lit "reportMarkdown") _ _ _ _ ltac:(distinct) E6).
  rewrite (path_meta_orDefault_ne (lit "similar") _ _ _ _ ltac:(distinct) E5).
  rewrite (path_meta_orDefault_ne (lit "claims") _ _ _ _ ltac:(distinct) E4).
  rewrite (path_meta_orDefault_ne (lit "summary") _ _ _ _ ltac:(distinct) E3).
  rewrite (path_meta_orDefault_ne (lit "scores") _ _ _ _ ltac:(distinct) E2).
  by apply (path_meta_orDefault _ _ _ _ _ Hy E1).
Qed.

(** X18.  Completion of the model's reply.  In what the pipeline returns
    for a reply that parses (the reply the model gives to the prompt built
    from the input, under whatever model name it is asked), each of [scores], [summary], [claims],
    [similar] and [reportMarkdown] holds the reply's own value when that
    value is truthy, and the fixed default otherwise: absent, [null], [0],
    [false] and the empty string are all replaced.  Whatever the reply's
    [meta] held under a name other than [fingerprint] is still there. *)
Theorem reply_fields_are_completed
    (SYSTEM_PROMPT : list N) (JSON_parse : list N -> option value)
    (g : Gemini) (inputType content : list N) u response parsed v :
  getGemini g = Returned u ->
  (forall model,
     generateContent g model (buildParts SYSTEM_PROMPT inputType content)
     = Returned response) ->
  JSON_parse (unfenced response) = Some parsed ->
  analyzePipeline SYSTEM_PROMPT JSON_parse g inputType content = Returned v ->
  (forall k d,
     (k, d) ∈
       [(lit "scores",
         VObj [(lit "fakeProbability", VNum 0%float); (lit "verifiableTruth", VNum 0%float);
               (lit "biasFraming", VNum 0%float); (lit "manipulationRisk", VNum 0%float)]);
        (lit "summary",
         VObj [(lit "headline", str "Resultado"); (lit "oneParagraph", VStr []);
               (lit "verdict", str "Inconclusivo")]);
        (lit "claims", VArr [] []);
        (lit "similar",
         VObj [(lit "searchQueries", VArr [] []); (lit "externalChecks", VArr [] [])]);
        (lit "reportMarkdown", VStr [])] ->
     getProp k v =
       Returned (Some match getProp k parsed with
                      | Returned (Some c) => if truthy c then c else d
                      | _ => d
                      end))
  /\ (forall f y,
        f <> lit "fingerprint" ->
        path [lit "meta"; f] parsed = Some y ->
        path [lit "meta"; f] v = Some y).
Proof.
  intros Hg Hr Hp. unfold analyzePipeline, bind. rewrite Hg, Hr, Hp. intros H.
  split.
  - by apply (complete_fields g inputType (SHA256.hex_of_string content)).
  - intros f y Hf Hy. by apply (complete_meta g inputType (SHA256.hex_of_string content) parsed).
Qed.

Lemma reply_fields_are_completed_witness :
  exists v,
    analyzePipeline [] (Cases.readingAs Cases.partial) (Cases.answering (lit "{}"))
      (lit "text") (lit "abc") = Returned v
    /\ getProp (lit "claims") v = Returned (Some (VArr [] []))
    /\ getProp (lit "scores") v
       = Returned (Some (VObj [(lit "fakeProbability", VNum 80%float)]))
    /\ path [lit "meta"; lit "language"] v = Some (str "pt-BR").
Proof.
  eexists. split; [vm_compute; reflexivity|].
  match goal with |- getProp _ ?v = _ /\ _ =>
    destruct (reply_fields_are_completed [] (Cases.readingAs Cases.partial)
                (Cases.answering (lit "{}")) (lit "text") (lit "abc") () (lit "{}")
                Cases.partial v eq_refl (fun _ => eq_refl) eq_refl) as [Hk Hm];
      [vm_compute; reflexivity|]
  end.
  split; [|split].
  - rewrite (Hk (lit "claims") (VArr [] [])); [reflexivity|].
    rewrite !elem_of_cons. right. right. by left.
  - rewrite (Hk (lit "scores") _ ltac:(by left)). reflexivity.
  - apply Hm; [distinct|reflexivity].
Defined.

End CompletionFacts.

Section PromptFacts.
Import Pipeline.

Lemma slice_bound (n : Z) (s : list N) : 0 <= n -> Z.of_nat (length (JS.slice 0 n s)) <= n.
Proof.
  intros Hn. unfold JS.slice. change (Z.to_nat 0) with 0%nat.
  rewrite drop_0, length_take. lia.
Qed.

Lemma text_in_one t x : Text t ∈ [Text x] -> t = x.
Proof. intros H. apply list_elem_of_singleton in H. by injection H. Qed.

Lemma text_in_two t m d x : Text t ∈ [InlineData m d; Text x] -> t = x.
Proof.
  rewrite !elem_of_cons. intros [H|[H|H]]; [discriminate H|by injection H|].
  by apply elem_of_nil in H.
Qed.

Lemma inline_in_one m d x : InlineData m d ∉ [Text x].
Proof. intros H. apply list_elem_of_singleton in H. discriminate H. Qed.

Lemma inline_in_two m d m' d' x :
  InlineData m d ∈ [InlineData m' d'; Text x] <-> m = m' /\ d = d'.
Proof.
  rewrite !elem_of_cons. split.
  - intros [H|[H|H]]; [by injection H|discriminate H|by apply elem_of_nil in H].
  - intros [-> ->]. by left.
Qed.

(** X19.  What is sent to the model.  Binary media goes inline only for an
    input of type [image] or [audio] whose content is a base64 data URL,
    with the media type and payload of that URL, and then the content is
    not repeated in the prompt.  In every other case there is one text part:
    the system prompt, the line "Content to analyze:" and the first 20,000
    code units of the content.  The text that follows the system prompt is
    never longer than 20,022 code units. *)
Theorem prompt_parts SYSTEM_PROMPT inputType content :
  let parts := buildParts SYSTEM_PROMPT inputType content in
  (forall mime data,
     InlineData mime data ∈ parts <->
     (inputType = lit "image" \/ inputType = lit "audio")
     /\ parseDataUrl content = Some (mime, data))
  /\ (((inputType = lit "image" \/ inputType = lit "audio")
       /\ exists mime data,
            parseDataUrl content = Some (mime, data)
            /\ exists label,
                 parts = [InlineData mime data; Text (SYSTEM_PROMPT ++ label)]
                 /\ JS.includes (lit "Content to analyze") label = false)
      \/ parts =
           [Text (SYSTEM_PROMPT ++ [10%N; 10%N] ++ lit "Content to analyze:" ++ [10%N]
                    ++ JS.slice 0 20000 content)])
  /\ (forall t, Text t ∈ parts ->
        exists rest, t = SYSTEM_PROMPT ++ rest /\ Z.of_nat (length rest) <= 20022).
Proof.
  cbv zeta. unfold buildParts, textPart.
  set (cut := JS.slice 0 20000 content).
  assert (Hcut : Z.of_nat (length cut) <= 20000) by (apply slice_bound; lia).
  clearbody cut.
  assert (Htext : forall t,
            Text t ∈ [Text (SYSTEM_PROMPT ++ [10%N; 10%N] ++ lit "Content to analyze:"
                              ++ [10%N] ++ cut)] ->
            exists rest, t = SYSTEM_PROMPT ++ rest /\ Z.of_nat (length rest) <= 20022).
  { intros t Ht. apply text_in_one in Ht as ->.
    eexists. split; [reflexivity|].
    rewrite (length_app [10%N; 10%N]), (length_app (lit "Content to analyze:")),
      (length_app [10%N]).
    change (length [10%N; 10%N]) with 2%nat.
    change (length (lit "Content to analyze:")) with 19%nat.
    change (length [10%N]) with 1%nat. lia. }
  assert (Hor : bool_decide (inputType = lit "image") || bool_decide (inputType = lit "audio")
                = true <-> inputType = lit "image" \/ inputType = lit "audio").
  { by rewrite orb_true_iff, !bool_decide_eq_true. }
  destruct (bool_decide (inputType = lit "image") || bool_decide (inputType = lit "audio"))
    eqn:Et.
  2:{ split; [|split; [by right|exact Htext]].
      intros mime data. split; [intros H; by apply inline_in_one in H|].
      intros [H _]. apply Hor in H. discriminate H. }
  pose proof (proj1 Hor eq_refl) as Ht.
  destruct (parseDataUrl content) as [[mime data]|] eqn:Ep.
  2:{ split; [|split; [by right|exact Htext]].
      intros mime data. split; [intros H; by apply inline_in_one in H|]. by intros [_ H]. }
  split; [|split].
  - intros mime' data'. rewrite inline_in_two. split.
    + intros [-> ->]. done.
    + intros [_ [= -> ->]]. done.
  - left. split; [exact Ht|]. exists mime, data. split; [done|].
    eexists. split; [reflexivity|].
    destruct (bool_decide (inputType = lit "image")); by vm_compute.
  - intros t Hin. apply text_in_two in Hin as ->.
    eexists. split; [reflexivity|].
    destruct (bool_decide (inputType = lit "image")); by vm_compute.
Qed.

Lemma prompt_parts_witness :
  exists rest,
    lit "PROMPT" ++ [10%N; 10%N] ++ lit "Content to analyze:" ++ [10%N] ++ lit "o ministro disse"
    = lit "PROMPT" ++ rest
    /\ Z.of_nat (length rest) <= 20022.
Proof.
  apply (proj2 (proj2 (prompt_parts (lit "PROMPT") (lit "text") (lit "o ministro disse")))).
  by left.
Defined.

End PromptFacts.

Section DigestFacts.
Import Pipeline.
Local Open Scope N_scope.

Lemma round_length st kw : length (SHA256.round st kw) = length st.
Proof.
  unfold SHA256.round.
  destruct st as [|a [|b [|c [|d [|e [|f [|g [|h [|i st]]]]]]]]]; reflexivity.
Qed.

Lemma rounds_length kws : forall st, length (fold_left SHA256.round kws st) = length st.
Proof.
  induction kws as [|kw kws IH]; intros st; [done|]. simpl. by rewrite IH, round_length.
Qed.

Lemma compress_length h block : length (SHA256.compress h block) = length h.
Proof.
  unfold SHA256.compress. rewrite length_zip_with, rounds_length. lia.
Qed.

Lemma blocks_length fuel : forall h bs, length (SHA256.blocks fuel h bs) = length h.
Proof.
  induction fuel as [|fuel IH]; intros h bs; [done|]. simpl.
  destruct bs; [done|]. by rewrite IH, compress_length.
Qed.

Lemma be_bytes_spec n x :
  length (SHA256.be_bytes n x) = n /\ Forall (fun b => b < 256) (SHA256.be_bytes n x).
Proof.
  revert x. induction n as [|n IH]; intros x; simpl; [by split|].
  destruct (IH (N.shiftr x 8)) as [Hl Hb]. split.
  - rewrite length_app, Hl. simpl. lia.
  - apply Forall_app. split; [done|]. repeat constructor.
    change 0xFF with (N.ones 8). rewrite N.land_ones. by apply N.mod_lt.
Qed.

Lemma concat_be_bytes ws :
  length (concat (map (SHA256.be_bytes 4) ws)) = (4 * length ws)%nat
  /\ Forall (fun b => b < 256) (concat (map (SHA256.be_bytes 4) ws)).
Proof.
  induction ws as [|w ws [IHl IHb]]; [by split|]. cbn [map concat].
  destruct (be_bytes_spec 4 w) as [Hl Hb]. split.
  - rewrite length_app, Hl, IHl. cbn [length]. lia.
  - by apply Forall_app.
Qed.

Lemma hex_digit_range d :
  d < 16 -> 48 <= SHA256.hex_digit d <= 57 \/ 97 <= SHA256.hex_digit d <= 102.
Proof.
  intros Hd. unfold SHA256.hex_digit. destruct (N.ltb_spec d 10); lia.
Qed.

Lemma to_hex_spec bs :
  Forall (fun b => b < 256) bs ->
  length (SHA256.to_hex bs) = (2 * length bs)%nat
  /\ Forall (fun c => 48 <= c <= 57 \/ 97 <= c <= 102) (SHA256.to_hex bs).
Proof.
  unfold SHA256.to_hex. induction 1 as [|b bs Hb _ [IHl IHd]]; [by split|].
  cbn [map concat app]. split.
  - cbn [length]. rewrite IHl. lia.
  - constructor; [|constructor; [|done]]; apply hex_digit_range.
    + rewrite N.shiftr_div_pow2. change (2 ^ 4) with 16.
      apply N.Div0.div_lt_upper_bound. lia.
    + change 0xF with (N.ones 4). rewrite N.land_ones. by apply N.mod_lt.
Qed.

Lemma hex_of_string_format s :
  length (SHA256.hex_of_string s) = 64%nat
  /\ Forall (fun c => 48 <= c <= 57 \/ 97 <= c <= 102) (SHA256.hex_of_string s).
Proof.
  unfold SHA256.hex_of_string, SHA256.digest.
  set (p := SHA256.pad _).
  destruct (concat_be_bytes (SHA256.blocks (length p) SHA256.H0 p)) as [Hl Hb].
  destruct (to_hex_spec _ Hb) as [Hl' Hd]. split; [|done].
  rewrite Hl', Hl, blocks_length. reflexivity.
Qed.

(** X20.  The fingerprint is always 64 lower-case hexadecimal digits,
    whatever the input type, the content and the model's reply. *)
Theorem fingerprint_format
    (SYSTEM_PROMPT : list N) (JSON_parse : list N -> option value)
    (g : Gemini) (inputType content : list N) v :
  analyzePipeline SYSTEM_PROMPT JSON_parse g inputType content = Returned v ->
  exists f,
    path [lit "meta"; lit "fingerprint"] v = Some (VStr f)
    /\ length f = 64%nat
    /\ Forall (fun c => 48 <= c <= 57 \/ 97 <= c <= 102) f.
Proof.
  unfold analyzePipeline, bind.
  destruct (getGemini g); [|done].
  destruct (generateContent g _ _); [|done].
  intros H. apply complete_sets in H as [_ H].
  exists (SHA256.hex_of_string content). split; [done|]. apply hex_of_string_format.
Qed.

Lemma fingerprint_format_witness :
  exists v f,
    analyzePipeline [] Scenario.noJson Scenario.prose (lit "text") (lit "abc") = Returned v
    /\ path [lit "meta"; lit "fingerprint"] v = Some (VStr f)
    /\ length f = 64%nat.
Proof.
  destruct (analyzePipeline [] Scenario.noJson Scenario.prose (lit "text") (lit "abc"))
    as [v|] eqn:E; [|by vm_compute in E].
  destruct (fingerprint_format _ _ _ _ _ _ E) as (f & Hf & Hl & _).
  by exists v, f.
Defined.

End DigestFacts.

Section ClientAddress.
Import Route.
Local Open Scope N_scope.

Lemma split_go_first c a b : forall cur,
  c ∉ a ->
  JS.split_go [c] 0 cur (a ++ c :: b) = (rev cur ++ a) :: JS.split_go [c] 0 [] b.
Proof.
  induction a as [|x a IH]; intros cur Hc.
  - simpl app. cbn [JS.split_go JS.startsWith]. rewrite N.eqb_refl. cbn [andb length Nat.sub].
    by rewrite app_nil_r.
  - simpl app. cbn [JS.split_go JS.startsWith].
    destruct (N.eqb_spec c x) as [->|Hne]; [exfalso; apply Hc; by left|].
    cbn [andb]. rewrite IH by (intros H; apply Hc; by right).
    simpl. by rewrite <- app_assoc.
Qed.

Lemma split_no_sep c a : c ∉ a -> JS.split [c] a = [a].
Proof.
  intros Hc. apply split_absent.
  induction a as [|x a IH]; [done|].
  cbn [JS.includes JS.startsWith].
  destruct (N.eqb_spec c x) as [->|Hne]; [exfalso; apply Hc; by left|].
  cbn [andb orb]. apply IH. intros H. apply Hc. by right.
Qed.

(** X21.  The caller's address.  It is never empty and carries no white
    space at either end; it is the first entry of [x-forwarded-for], so
    whatever follows the first comma does not matter; and a request with no
    header, or with nothing but white space before the first comma, is
    counted under "unknown". *)
Theorem clientIp_is_first_entry :
  (forall r, clientIp r <> [] /\ JS.trim (clientIp r) = clientIp r)
  /\ (forall a b bd,
        44 ∉ a ->
        clientIp {| forwarded := Some (a ++ lit "," ++ b); body := bd |}
        = clientIp {| forwarded := Some a; body := bd |})
  /\ (forall a bd,
        44 ∉ a ->
        clientIp {| forwarded := Some a; body := bd |}
        = if bool_decide (JS.trim a = []) then lit "unknown" else JS.trim a)
  /\ (forall bd, clientIp {| forwarded := None; body := bd |} = lit "unknown").
Proof.
  split; [|split; [|split]].
  - intros r. unfold clientIp. destruct (forwarded r) as [f|]; [|by split].
    case_bool_decide as E; [by split|]. split; [done|]. apply trim_idempotent.
  - intros a b bd Ha. unfold clientIp. cbn [forwarded].
    change (lit ",") with [44]. unfold JS.split.
    change (a ++ [44] ++ b) with (a ++ 44 :: b).
    rewrite split_go_first by done.
    fold (JS.split [44] a). by rewrite split_no_sep.
  - intros a bd Ha. unfold clientIp. cbn [forwarded].
    change (lit ",") with [44]. by rewrite split_no_sep.
  - done.
Qed.

Lemma clientIp_is_first_entry_witness :
  clientIp {| forwarded := Some (lit "203.0.113.7" ++ lit "," ++ lit " 10.0.0.1");
              body := Thrown [] |}
  = lit "203.0.113.7".
Proof.
  destruct clientIp_is_first_entry as (_ & H & H' & _).
  assert (Hc : 44 ∉ lit "203.0.113.7").
  { intros Hin. apply list_elem_of_In in Hin. vm_compute in Hin. intuition discriminate. }
  rewrite H by exact Hc. rewrite H' by exact Hc. by vm_compute.
Defined.

End ClientAddress.

Section ResponseFacts.
Import Pipeline Route.

Variable sanitizeForLLM : list N -> Z -> list N.
Variable isValidUrl : list N -> bool.
Variable isYouTubeUrl : list N -> bool.
Variable SYSTEM_PROMPT : list N.
Variable JSON_parse : list N -> option value.

#[local] Abbreviation POST := (Route.POST sanitizeForLLM isValidUrl isYouTubeUrl SYSTEM_PROMPT JSON_parse).
#[local] Abbreviation handle := (Route.handle sanitizeForLLM isValidUrl isYouTubeUrl SYSTEM_PROMPT JSON_parse).
#[local] Abbreviation analyze := (Route.analyze SYSTEM_PROMPT JSON_parse).
#[local] Abbreviation extract := (Route.extract isValidUrl isYouTubeUrl).

Lemma nonEmpty_default o fallback :
  fallback <> [] -> (if nonEmpty o then default [] o else fallback) <> [].
Proof. intros H. by destruct o as [[|c s]|]. Qed.

(** The answers of the route, by kind: a status and, for an error, its
    name. *)
Lemma extract_answers w t content resp :
  extract w t content = Returned (inl resp) ->
  retryAfter resp = None
  /\ exists message,
       message <> []
       /\ ((status resp = 400 /\ payload resp = Error (lit "VALIDATION") message)
           \/ (status resp = 422 /\ payload resp = Error (lit "EXTRACTION_FAILED") message)).
Proof.
  unfold Route.extract. destruct t; try done.
  - destruct (negb (isValidUrl (JS.trim content))).
    { intros [= <-]. split; [done|]. eexists. split; [|left; by split]. distinct. }
    destruct (extractFromUrl w (JS.trim content)) as [e|]; [|done].
    destruct (negb (YouTube.ok e) || negb (nonEmpty (YouTube.text e))); intros [= <-].
    split; [done|]. eexists. split; [|right; by split].
    apply nonEmpty_default. distinct.
  - destruct (negb _ || negb _); intros [= <-].
    split; [done|]. eexists. split; [|right; by split].
    apply nonEmpty_default. distinct.
Qed.

Lemma handle_answers w r resp :
  handle w r = Returned resp ->
  retryAfter resp = None
  /\ ((status resp = 200 /\ exists result, payload resp = Result result)
      \/ exists message,
           message <> []
           /\ ((status resp = 400 /\ payload resp = Error (lit "VALIDATION") message)
               \/ (status resp = 503 /\ payload resp = Error (lit "SERVER_MISCONFIG") message)
               \/ (status resp = 422
                   /\ payload resp = Error (lit "EXTRACTION_FAILED") message))).
Proof.
  unfold Route.handle, bind. destruct (body r) as [[e|t content]|]; [|..|done].
  { intros [= <-]. split; [done|]. right. eexists. split; [|left; by split].
    apply nonEmpty_default. distinct. }
  destruct (negb (isGeminiConfigured w)).
  { intros [= <-]. split; [done|]. right. eexists. split; [|right; left; by split]. distinct. }
  destruct (extract w t content) as [[resp'|p]|] eqn:E; [| |done].
  - intros [= <-]. destruct (extract_answers _ _ _ _ E) as (Hr & message & Hm & H).
    split; [done|]. right. exists message. split; [done|].
    destruct H as [H|H]; [by left|right; by right].
  - unfold Route.analyze, bind.
    destruct (analyzePipeline _ _ _ _ _) as [v|]; [|done].
    destruct (attach _ v) as [v'|]; [|done].
    intros [= <-]. split; [done|]. left. split; [done|]. by eexists.
Qed.

(** X22.  Status and body agree.  The route answers with one of six
    statuses; the body is an analysis result exactly under 200, and under
    every other status it is an error whose name goes with the status (429
    [RATE_LIMITED], 400 [VALIDATION], 503 [SERVER_MISCONFIG], 422
    [EXTRACTION_FAILED], 500 [ANALYZE_FAILED]) and whose message is not
    empty.  [Retry-After] is sent with 429 and with nothing else. *)
Theorem status_and_body_agree w r st :
  let resp := (POST w r st).1 in
  (status resp = 200 /\ retryAfter resp = None /\ exists result, payload resp = Result result)
  \/ exists name message,
       payload resp = Error name message
       /\ message <> []
       /\ (status resp, name, retryAfter resp) ∈
            [(429, lit "RATE_LIMITED", Some (lit "60"));
             (400, lit "VALIDATION", None);
             (503, lit "SERVER_MISCONFIG", None);
             (422, lit "EXTRACTION_FAILED", None);
             (500, lit "ANALYZE_FAILED", None)].
Proof.
  cbv zeta.
  assert (Hfailed :
    exists name message,
      payload failed = Error name message
      /\ message <> []
      /\ (status failed, name, retryAfter failed) ∈
           [(429, lit "RATE_LIMITED", Some (lit "60"));
            (400, lit "VALIDATION", None);
            (503, lit "SERVER_MISCONFIG", None);
            (422, lit "EXTRACTION_FAILED", None);
            (500, lit "ANALYZE_FAILED", None)]).
  { eexists _, _. split; [reflexivity|]. split; [distinct|].
    rewrite !elem_of_cons. do 4 right. by left. }
  unfold Route.POST.
  destruct (RateLimit.checkRateLimitAsync _ _ _ _) as [[rl|] st']; [|by right].
  destruct (negb (RateLimit.allowed rl)).
  { right. eexists _, _. split; [reflexivity|]. split; [distinct|].
    rewrite !elem_of_cons. by left. }
  destruct (handle w r) as [resp|] eqn:E; [|by right].
  cbn [fst]. destruct (handle_answers _ _ _ E) as [Hr H]. rewrite Hr.
  destruct H as [[Hs Hres]|(message & Hm & H)]; [by left|].
  right. destruct H as [[-> ->]|[[-> ->]|[-> ->]]];
    eexists _, message; (split; [reflexivity|]); (split; [done|]); rewrite !elem_of_cons.
  - right. by left.
  - do 2 right. by left.
  - do 3 right. by left.
Qed.

(** X23.  The rate limit comes first.  What a request leaves in the
    limiter's state is what its check left: the body plays no part, so a
    request that is then rejected as invalid has used up quota like any
    other.  A denied request is answered 429 with [Retry-After: 60] whatever
    its body, even one that cannot be read.  Without the distributed counter
    the state left is that of the in-memory check of the caller's
    address. *)
Theorem rate_limit_comes_first w r st :
  (POST w r st).2 = (RateLimit.checkRateLimitAsync (upstash w) (now w) (clientIp r) st).2
  /\ (forall rl st',
        RateLimit.checkRateLimitAsync (upstash w) (now w) (clientIp r) st = (Returned rl, st') ->
        RateLimit.allowed rl = false ->
        (POST w r st).1 =
          {| status := 429; retryAfter := Some (lit "60");
             payload := Error (lit "RATE_LIMITED")
                          (lit "Muitas requisições. Aguarde um minuto.") |})
  /\ (~ RateLimit.usesBackend (upstash w) st ->
      RateLimit.hits (POST w r st).2
      = (RateLimit.inMemoryCheck (now w) (clientIp r) (RateLimit.hits st)).2).
Proof.
  assert (H1 : (POST w r st).2
               = (RateLimit.checkRateLimitAsync (upstash w) (now w) (clientIp r) st).2).
  { unfold Route.POST.
    destruct (RateLimit.checkRateLimitAsync _ _ _ _) as [[rl|] st']; [|done].
    destruct (negb (RateLimit.allowed rl)); [done|]. by destruct (handle w r). }
  split; [exact H1|]. split.
  - intros rl st' E Hd. unfold Route.POST. by rewrite E, Hd.
  - intros Hno. rewrite H1. unfold RateLimit.checkRateLimitAsync.
    rewrite getUpstashLimiter_null by done.
    by destruct (RateLimit.inMemoryCheck _ _ _).
Qed.

Lemma attach_source p v r :
  (if nonEmpty (sourceUrl p)
   then match orDefault (lit "meta") (VObj []) v with
        | Returned r0 =>
          setInner (lit "meta") (lit "sourceUrl") (VStr (default [] (sourceUrl p))) r0
        | Thrown e => Thrown e
        end
   else Returned v) = Returned r ->
  (nonEmpty (sourceUrl p) = true ->
   path [lit "meta"; lit "sourceUrl"] r = Some (VStr (default [] (sourceUrl p))))
  /\ (forall f y, f <> lit "sourceUrl" ->
        path [lit "meta"; f] v = Some y -> path [lit "meta"; f] r = Some y)
  /\ (forall k, k <> lit "meta" -> getProp k r = getProp k v).
Proof.
  destruct (nonEmpty (sourceUrl p)).
  - destruct (orDefault (lit "meta") (VObj []) v) as [r0|] eqn:E0; [|done].
    intros Hs. split; [|split].
    + intros _. by eapply path_setInner.
    + intros f y Hf Hy. eapply (path_setInner_ne _ (lit "sourceUrl")); [congruence|exact Hs|].
      by eapply path_meta_orDefault.
    + intros k Hk.
      rewrite (getProp_setInner_ne (lit "meta") k _ _ _ _ ltac:(congruence) Hs).
      by rewrite (getProp_orDefault_ne (lit "meta") k _ _ _ ltac:(congruence) E0).
  - intros [= <-]. split; [done|]. by split.
Qed.

(** X24.  Extraction metadata reaches the result.  When [attach] returns,
    a non-empty source URL is under [meta.sourceUrl]; extraction warnings,
    if there are any, are the tail of the array under [meta.warnings], after
    the warnings the result already had there; no property outside [meta]
    is touched; and with neither a source URL nor warnings the result is
    returned as it came. *)
Theorem attach_adds_metadata p v v' :
  attach p v = Returned v' ->
  (nonEmpty (sourceUrl p) = true ->
   path [lit "meta"; lit "sourceUrl"] v' = Some (VStr (default [] (sourceUrl p))))
  /\ (extractionWarnings p <> [] ->
      exists items,
        path [lit "meta"; lit "warnings"] v'
        = Some (VArr (items ++ map VStr (extractionWarnings p)) [])
        /\ forall its props,
             path [lit "meta"; lit "warnings"] v = Some (VArr its props) -> items = its)
  /\ (forall k, k <> lit "meta" -> getProp k v' = getProp k v)
  /\ (nonEmpty (sourceUrl p) = false -> extractionWarnings p = [] -> v' = v).
Proof.
  unfold attach, bind.
  destruct (if nonEmpty (sourceUrl p) then _ else _) as [r|] eqn:E; [|done].
  destruct (attach_source p v r E) as (Hsrc & Hkeep & Hout).
  case_bool_decide as Hw; cbn [negb].
  { intros [= <-]. split; [exact Hsrc|]. split; [done|]. split; [exact Hout|].
    intros Hs _. rewrite Hs in E. by injection E. }
  destruct (orDefault (lit "meta") (VObj []) r) as [r1|] eqn:E1; [|done].
  destruct (getProp (lit "meta") r1) as [meta|] eqn:Em; [|done].
  destruct (getProp (lit "warnings") (default VNull meta)) as [old|] eqn:Eo; [|done].
  destruct (match old with Some o => if truthy o then spread o else Returned [] | None => Returned [] end)
    as [items|] eqn:Ei; [|done].
  intros H. split; [|split; [|split]].
  - intros Hs. eapply (path_setInner_ne _ (lit "warnings")); [distinct|exact H|].
    eapply path_meta_orDefault; [|exact E1]. by apply Hsrc.
  - intros _. exists items. split; [by eapply path_setInner|].
    intros its props Hp.
    assert (Hp1 : path [lit "meta"; lit "warnings"] r1 = Some (VArr its props)).
    { eapply path_meta_orDefault; [|exact E1]. apply Hkeep; [distinct|done]. }
    simpl in Hp1. rewrite Em in Hp1. destruct meta as [m|]; [|done].
    simpl in Eo. rewrite Eo in Hp1. destruct old as [o|]; [|done].
    injection Hp1 as ->. simpl in Ei. by injection Ei.
  - intros k Hk.
    rewrite (getProp_setInner_ne (lit "meta") k _ _ _ _ ltac:(congruence) H).
    rewrite (getProp_orDefault_ne (lit "meta") k _ _ _ ltac:(congruence) E1).
    by apply Hout.
  - done.
Qed.

End ResponseFacts.

Section ResponseChecks.
Import Pipeline Route.

Lemma rate_limit_comes_first_witness :
  let w := Scenario.serving [] in
  let r := {| forwarded := Some (lit "203.0.113.7"); body := Thrown [] |} in
  RateLimit.hits
    (Route.POST Scenario.cutOnly Scenario.anyUrl Scenario.notYouTube [] Scenario.noJson
       w r Scenario.started).2
  = (RateLimit.inMemoryCheck (now w) (clientIp r) (RateLimit.hits Scenario.started)).2.
Proof.
  intros w r.
  apply (proj2 (proj2 (rate_limit_comes_first Scenario.cutOnly Scenario.anyUrl
                         Scenario.notYouTube [] Scenario.noJson w r Scenario.started))).
  intros [H|[H _]]; [discriminate H|by apply H].
Defined.

Lemma attach_adds_metadata_witness :
  let p := {| effectiveInputType := lit "audio_transcript"; textForAnalysis := lit "Bom dia";
              sourceUrl := None;
              extractionWarnings := [lit "Partes instrumentais"] |} in
  let v := VObj [(lit "meta", VObj [(lit "warnings", strs [lit "Analise inicial"])])] in
  exists v' items,
    attach p v = Returned v'
    /\ path [lit "meta"; lit "warnings"] v'
       = Some (VArr (items ++ [VStr (lit "Partes instrumentais")]) [])
    /\ items = [VStr (lit "Analise inicial")].
Proof.
  intros p v.
  destruct (attach p v) as [v'|] eqn:E; [|by vm_compute in E].
  destruct (attach_adds_metadata p v v' E) as (_ & H & _).
  destruct H as (items & Hp & Hi); [done|].
  exists v', items. split; [done|]. split; [exact Hp|].
  by apply (Hi _ []).
Defined.

End ResponseChecks.

Section CaptchaFacts.
Import Pipeline Turnstile.

(** X25.  The anti-bot check fails closed.  Without a secret every request
    passes and the service is not called (development mode).  With a secret,
    a request passes exactly when its token is truthy, the service answers
    2xx with a body that reads as JSON, and that body's [success] is truthy:
    a missing token, a network error, another status, an unreadable body
    all fail.  The service is called at most once, and only for a truthy
    token, with the secret and the token as they are and with the caller's
    address if it is not empty. *)
Theorem captcha_fails_closed s token ip :
  (TURNSTILE_SECRET s = [] ->
   verifyTurnstile s token ip = ({| success := Some (VBool true); errorCodes := strs [] |}, []))
  /\ (TURNSTILE_SECRET s <> [] ->
      (passed (verifyTurnstile s token ip).1 = true <->
       exists tok res data ok,
         token = Some tok /\ truthy tok = true
         /\ siteverify s (TURNSTILE_SECRET s) tok (filled ip) = Returned res
         /\ Audio.r_ok res = true
         /\ Audio.r_json res = Returned data
         /\ getProp (lit "success") data = Returned (Some ok)
         /\ truthy ok = true)
      /\ (verifyTurnstile s token ip).2
         = match token with
           | Some tok =>
             if truthy tok then [Verify (TURNSTILE_SECRET s) tok (filled ip)] else []
           | None => []
           end).
Proof.
  unfold verifyTurnstile. split.
  - intros ->. done.
  - intros Hs. rewrite (bool_decide_eq_false_2 _ Hs). split.
    2:{ destruct token as [tok|]; [|done]. by destruct (truthy tok). }
    split.
    + destruct token as [tok|]; [|done].
      destruct (truthy tok) eqn:Ht; cbn [negb]; [|done].
      cbn [fst]. unfold bind.
      destruct (siteverify s (TURNSTILE_SECRET s) tok (filled ip)) as [res|e] eqn:Ev; [|done].
      destruct (Audio.r_ok res) eqn:Hok; cbn [negb]; [|done].
      destruct (Audio.r_json res) as [data|e] eqn:Hj; [|done].
      destruct (getProp (lit "success") data) as [[ok|]|e] eqn:Hp; [| |done].
      * intros Hpass. exists tok, res, data, ok. repeat (split; [done|]).
        revert Hpass. by destruct (getProp (lit "error-codes") data).
      * by destruct (getProp (lit "error-codes") data).
    + intros (tok & res & data & ok & -> & Ht & Hv & Hok & Hj & Hp & Hk).
      rewrite Ht. cbn [negb fst]. unfold bind. rewrite Hv, Hok. cbn [negb].
      rewrite Hj, Hp.
      assert (Hc : exists codes, getProp (lit "error-codes") data = Returned codes).
      { destruct data; try done; by eexists. }
      destruct Hc as [codes ->]. exact Hk.
Qed.

Lemma captcha_fails_closed_witness :
  let s := {| TURNSTILE_SECRET := lit "secret";
              siteverify := fun _ _ _ => Thrown (lit "fetch failed") |} in
  (verifyTurnstile s (Some (str "token")) (Some (lit "203.0.113.7"))).2
  = [Verify (lit "secret") (str "token") (Some (lit "203.0.113.7"))].
Proof.
  intros s.
  destruct (captcha_fails_closed s (Some (str "token")) (Some (lit "203.0.113.7")))
    as [_ H].
  destruct H as [_ H]; [distinct|]. exact H.
Defined.

End CaptchaFacts.

Section SubscribeFacts.
Import Pipeline RateLimit Subscribe.

Lemma sub_prefix ip : lit "sub:" ++ ip <> ip.
Proof.
  intros H. apply (f_equal length) in H. rewrite length_app in H.
  change (length (lit "sub:")) with 4%nat in H. lia.
Qed.

(** A check leaves the timestamps of every other identifier alone,
    whichever limiter answers it. *)
Lemma checkRateLimitAsync_other up now identifier st ip :
  ip <> identifier ->
  stored ip (hits (checkRateLimitAsync up now identifier st).2) = stored ip (hits st).
Proof.
  intros Hne. unfold checkRateLimitAsync, getUpstashLimiter.
  destruct (rateLimiter st).
  { by destruct (limit up identifier). }
  destruct (bool_decide (UPSTASH_URL up = []) || bool_decide (UPSTASH_TOKEN up = [])).
  - pose proof (stored_check_ne ip identifier now (hits st) ltac:(congruence)) as H.
    by destruct (inMemoryCheck now identifier (hits st)).
  - destruct (import_client up); [|done]. by destruct (limit up identifier).
Qed.

(** X28.  One write at most.  Storing a subscriber changes the table with
    at most one query.  When the lookup by e-mail finds a row, that row is
    updated (name and WhatsApp number only if given) and the answer is
    "Cadastro atualizado", whatever the update itself answers, as long as
    it does not throw.  A row is inserted only after the lookup by e-mail
    found nothing and, if a WhatsApp number was given, the lookup by that
    number found nothing either. *)
Theorem subscriber_is_written_once w name email whatsapp :
  let db := supabase w in
  let log := (store w name email whatsapp).2 in
  (length (writes log) <= 1)%nat
  /\ (forall existing id,
        (exists u, createServerSupabase db = Returned u) ->
        run db (SelectByEmail email) = Returned existing ->
        truthy existing = true ->
        getProp (lit "id") existing = Returned id ->
        writes log
        = [Update id (toISOString w) (Turnstile.filled name) (Turnstile.filled whatsapp) None]
        /\ forall answer,
             run db (Update id (toISOString w) (Turnstile.filled name)
                       (Turnstile.filled whatsapp) None) = Returned answer ->
             (store w name email whatsapp).1 = Returned updated)
  /\ (forall n e wa t,
        Insert n e wa t ∈ writes log ->
        n = Turnstile.filled name /\ e = email /\ wa = Turnstile.filled whatsapp
        /\ t = toISOString w
        /\ (exists existing,
              run db (SelectByEmail email) = Returned existing /\ truthy existing = false)
        /\ (forall number,
              Turnstile.filled whatsapp = Some number ->
              exists existingWa,
                run db (SelectByWhatsapp number) = Returned existingWa
                /\ truthy existingWa = false)).
Proof.
  cbv zeta. split; [|split].
  - unfold store, andThen, quiet, query, pure.
    destruct (createServerSupabase (supabase w)); [|simpl; lia].
    destruct (run (supabase w) (SelectByEmail email)) as [existing|]; [|simpl; lia].
    destruct (truthy existing).
    { destruct (getProp (lit "id") existing) as [id|]; [|simpl; lia].
      destruct (run (supabase w) (Update _ _ _ _ _)); simpl; lia. }
    destruct (Turnstile.filled whatsapp) as [number|].
    + destruct (run (supabase w) (SelectByWhatsapp number)) as [existingWa|]; [|simpl; lia].
      destruct (truthy existingWa).
      { destruct (getProp (lit "id") existingWa) as [id|]; [|simpl; lia].
        destruct (run (supabase w) (Update _ _ _ _ _)); simpl; lia. }
      destruct (run (supabase w) (Insert _ _ _ _)) as [error|]; [|simpl; lia].
      destruct (truthy error); simpl; lia.
    + cbn [truthy].
      destruct (run (supabase w) (Insert _ _ _ _)) as [error|]; [|simpl; lia].
      destruct (truthy error); simpl; lia.
  - intros existing id [u Hc] He Ht Hid.
    unfold store, andThen, quiet, query, pure. rewrite Hc, He, Ht, Hid.
    split.
    + by destruct (run (supabase w) (Update _ _ _ _ _)).
    + intros answer ->. done.
  - intros n e wa t. unfold store, andThen, quiet, query, pure.
    destruct (createServerSupabase (supabase w)); [|by intros H; apply elem_of_nil in H].
    destruct (run (supabase w) (SelectByEmail email)) as [existing|] eqn:He;
      [|by intros H; apply elem_of_nil in H].
    destruct (truthy existing) eqn:Ht.
    { destruct (getProp (lit "id") existing) as [id|]; [|by intros H; apply elem_of_nil in H].
      destruct (run (supabase w) (Update _ _ _ _ _)); simpl;
        intros H; apply list_elem_of_singleton in H; discriminate H. }
    destruct (Turnstile.filled whatsapp) as [number|] eqn:Ew.
    + destruct (run (supabase w) (SelectByWhatsapp number)) as [existingWa|] eqn:Ewa;
        [|by intros H; apply elem_of_nil in H].
      destruct (truthy existingWa) eqn:Hta.
      { destruct (getProp (lit "id") existingWa) as [id|];
          [|by intros H; apply elem_of_nil in H].
        destruct (run (supabase w) (Update _ _ _ _ _)); simpl;
          intros H; apply list_elem_of_singleton in H; discriminate H. }
      destruct (run (supabase w) (Insert _ _ _ _)) as [error|]; simpl.
      * destruct (truthy error); simpl; intros H; apply list_elem_of_singleton in H;
          injection H as -> -> -> ->; (repeat (split; [done|])); (split; [by eexists|]);
          intros number' [= <-]; by eexists.
      * intros H. apply list_elem_of_singleton in H.
        injection H as -> -> -> ->. repeat (split; [done|]). split; [by eexists|].
        intros number' [= <-]. by eexists.
    + cbn [truthy].
      destruct (run (supabase w) (Insert _ _ _ _)) as [error|]; simpl.
      * destruct (truthy error); simpl; intros H; apply list_elem_of_singleton in H;
          injection H as -> -> -> ->; (repeat (split; [done|])); (split; [by eexists|]);
          intros number' Hn; discriminate Hn.
      * intros H. apply list_elem_of_singleton in H.
        injection H as -> -> -> ->. repeat (split; [done|]). split; [by eexists|].
        intros number' Hn. discriminate Hn.
Qed.

Variable subscribeSchema : value -> Parsed.

#[local] Abbreviation POST := (Subscribe.POST subscribeSchema).
#[local] Abbreviation handle := (Subscribe.handle subscribeSchema).

Lemma POST_state w r st :
  (POST w r st).2
  = (checkRateLimitAsync (upstash w) (now w) (lit "sub:" ++ clientIp r) st).2.
Proof.
  unfold Subscribe.POST.
  destruct (checkRateLimitAsync _ _ _ _) as [[rl|] st']; [|done].
  destruct (negb (allowed rl)); [done|]. by destruct (Subscribe.handle _ _ _ _) as [[?|?] ?].
Qed.

(** The store is reached only through [store]. *)
Lemma handle_database w r ip q :
  Database q ∈ (handle w r ip).2 ->
  exists b token name email whatsapp,
    body r = Returned b
    /\ getProp (lit "turnstileToken") b = Returned token
    /\ Turnstile.passed (Turnstile.verifyTurnstile (turnstile w) token (Some ip)).1 = true
    /\ subscribeSchema b = Accepted name email whatsapp
    /\ Database q ∈ (store w name email whatsapp).2.
Proof.
  unfold Subscribe.handle, andThen, quiet, pure.
  destruct (body r) as [b|]; [|by intros H; apply elem_of_nil in H].
  destruct (getProp (lit "turnstileToken") b) as [token|] eqn:Et;
    [|by intros H; apply elem_of_nil in H].
  destruct (Turnstile.verifyTurnstile (turnstile w) token (Some ip)) as [captcha calls] eqn:Ev.
  assert (Hcalls : Database q ∉ map Captcha calls).
  { intros H. apply list_elem_of_fmap in H as (c & H & _). discriminate H. }
  cbn [fst]. destruct (Turnstile.passed captcha) eqn:Hp; cbn [negb].
  2:{ rewrite !app_nil_l, app_nil_r. intros H. by apply Hcalls in H. }
  destruct (subscribeSchema b) as [e|name email whatsapp] eqn:Es.
  { rewrite !app_nil_l, app_nil_r. intros H. by apply Hcalls in H. }
  destruct (store w name email whatsapp) as [o log] eqn:E.
  rewrite !app_nil_l. intros H. apply elem_of_app in H as [H|H]; [by apply Hcalls in H|].
  exists b, token, name, email, whatsapp. rewrite Ev, E. by repeat split.
Qed.

(** X26.  The gates of the subscription endpoint, in their order.  A
    denied request is answered 429 and nothing else happens; a request whose
    anti-bot check fails is answered 403 before its fields are validated,
    and the store is not touched; and no query reaches the store unless the
    request was allowed by the limiter, passed the anti-bot check and was
    accepted by the schema. *)
Theorem subscribe_gates w r st :
  let ip := clientIp r in
  let check := (checkRateLimitAsync (upstash w) (now w) (lit "sub:" ++ ip) st).1 in
  let resp := (POST w r st).1.1 in
  let log := (POST w r st).1.2 in
  (forall rl,
     check = Returned rl -> allowed rl = false ->
     status resp = 429 /\ retryAfter resp = Some (lit "60") /\ log = [])
  /\ (forall rl b token,
        check = Returned rl -> allowed rl = true ->
        body r = Returned b ->
        getProp (lit "turnstileToken") b = Returned token ->
        Turnstile.passed (Turnstile.verifyTurnstile (turnstile w) token (Some ip)).1 = false ->
        resp = json (Failure (lit "CAPTCHA_FAILED")
                       (lit "Verificação anti-bot falhou. Recarregue a página.")) 403
        /\ forall q, Database q ∉ log)
  /\ (forall q,
        Database q ∈ log ->
        exists rl b token name email whatsapp,
          check = Returned rl /\ allowed rl = true
          /\ body r = Returned b
          /\ getProp (lit "turnstileToken") b = Returned token
          /\ Turnstile.passed (Turnstile.verifyTurnstile (turnstile w) token (Some ip)).1
             = true
          /\ subscribeSchema b = Accepted name email whatsapp).
Proof.
  cbv zeta. unfold Subscribe.POST.
  destruct (checkRateLimitAsync _ _ _ _) as [[rl|e] st'] eqn:Ec; cbn [fst].
  2:{ split; [done|]. split; [done|]. intros q H. by apply elem_of_nil in H. }
  destruct (allowed rl) eqn:Ha; cbn [negb fst snd].
  2:{ split; [by intros rl' [= <-] _|]. split; [intros rl' b token [= <-]; congruence|].
      intros q H. by apply elem_of_nil in H. }
  split; [intros rl' [= <-]; congruence|]. split.
  - intros rl' b token _ _ Hb Ht Hp.
    unfold Subscribe.handle, andThen, quiet, pure. rewrite Hb, Ht.
    destruct (Turnstile.verifyTurnstile (turnstile w) token (Some (clientIp r)))
      as [captcha calls].
    cbn [fst] in Hp. rewrite Hp. cbn [negb fst snd]. split; [done|].
    intros q H. rewrite !app_nil_l, app_nil_r in H.
    apply list_elem_of_fmap in H as (c & H & _). discriminate H.
  - intros q Hq.
    assert (Hh : Database q ∈ (handle w r (clientIp r)).2).
    { by destruct (Subscribe.handle _ _ _ _) as [[?|?] ?]. }
    destruct (handle_database _ _ _ _ Hh) as (b & token & name & email & whatsapp & H).
    exists rl, b, token, name, email, whatsapp. split; [done|]. split; [done|].
    destruct H as (? & ? & ? & ? & _). done.
Qed.

(** X27.  The two endpoints keep separate counts.  A subscription request
    is counted under ["sub:"] followed by the caller's address, so it leaves
    the timestamps of every other identifier as they were, the bare address
    among them: it never uses up the analysis quota of the same caller. *)
Theorem subscribe_quota_is_separate w r st :
  (forall ip,
     ip <> lit "sub:" ++ clientIp r ->
     stored ip (hits (POST w r st).2) = stored ip (hits st))
  /\ stored (clientIp r) (hits (POST w r st).2) = stored (clientIp r) (hits st)
  /\ (forall now',
        (inMemoryCheck now' (clientIp r) (hits (POST w r st).2)).1
        = (inMemoryCheck now' (clientIp r) (hits st)).1).
Proof.
  assert (H : forall ip, ip <> lit "sub:" ++ clientIp r ->
            stored ip (hits (POST w r st).2) = stored ip (hits st)).
  { intros ip Hne. rewrite POST_state. by apply checkRateLimitAsync_other. }
  assert (H' : stored (clientIp r) (hits (POST w r st).2) = stored (clientIp r) (hits st)).
  { apply H. intros E. by apply (sub_prefix (clientIp r)). }
  split; [exact H|]. split; [exact H'|].
  intros now'. by apply check_decision_stored.
Qed.

End SubscribeFacts.

Section SubscribeChecks.
Import Pipeline RateLimit Subscribe.

Lemma subscribe_gates_witness :
  (Subscribe.POST Cases.emailOnly Cases.site Cases.form Scenario.started).1.1
  = json (Failure (lit "CAPTCHA_FAILED")
            (lit "Verificação anti-bot falhou. Recarregue a página.")) 403.
Proof.
  destruct (subscribe_gates Cases.emailOnly Cases.site Cases.form Scenario.started)
    as (_ & H & _).
  apply (H {| allowed := true; remaining := 9 |}
           (VObj [(lit "email", str "ana@example.org"); (lit "turnstileToken", str "token")])
           (Some (str "token"))); by vm_compute.
Defined.

Lemma subscribe_quota_is_separate_witness :
  (inMemoryCheck 1700000000001 (clientIp Cases.form)
     (hits (Subscribe.POST Cases.emailOnly Cases.site Cases.form Scenario.started).2)).1
  = (inMemoryCheck 1700000000001 (clientIp Cases.form) (hits Scenario.started)).1.
Proof.
  apply (proj2 (proj2 (subscribe_quota_is_separate Cases.emailOnly Cases.site Cases.form
                         Scenario.started))).
Defined.

Lemma subscriber_is_written_once_witness :
  (store Cases.site None (lit "ana@example.org") None).1 = Returned updated.
Proof.
  destruct (subscriber_is_written_once Cases.site None (lit "ana@example.org") None)
    as (_ & H & _).
  destruct (H (VObj [(lit "id", VNum 7%float)]) (Some (VNum 7%float))) as [_ H'].
  - by exists ().
  - by vm_compute.
  - reflexivity.
  - by vm_compute.
  - apply (H' VNull). reflexivity.
Defined.

End SubscribeChecks.

Section EarlierEndpoint.
Import Pipeline Route.

Variable SYSTEM_PROMPT : list N.
Variable JSON_parse : list N -> option value.

#[local] Abbreviation POST := (Analyze.POST SYSTEM_PROMPT JSON_parse).

(** X29.  The earlier endpoint [/api/analyze].  It hands the submitted
    content to the pipeline as it is, so the fingerprint of a result is the
    SHA-256 hex digest of the raw content, for every input type; the body,
    [JSON.stringify] of the result, carries it exactly when the result and
    its [meta] are objects, not arrays.  It checks
    the model's credential before it reads the body: without the credential
    the answer is 503 whatever the body.  A body that the schema rejects is
    answered 500 [ANALYZE_FAILED], not 400; and there is no other status
    than 200, 500 and 503. *)
Theorem earlier_endpoint_fingerprints_raw_content w r :
  (status (POST w r) = 200 ->
   exists t content result,
     body r = Returned (Accepted t content)
     /\ payload (POST w r) = Result result
     /\ path [lit "meta"; lit "fingerprint"] result
        = Some (VStr (SHA256.hex_of_string content))
     /\ fingerprintOf (POST w r)
        = if plainMeta result then Some (VStr (SHA256.hex_of_string content)) else None)
  /\ (isGeminiConfigured w = false ->
      status (POST w r) = 503
      /\ exists message, payload (POST w r) = Error (lit "SERVER_MISCONFIG") message)
  /\ (isGeminiConfigured w = true ->
      (forall t content, body r <> Returned (Accepted t content)) ->
      POST w r = Analyze.failed)
  /\ (status (POST w r) = 200 \/ status (POST w r) = 500 \/ status (POST w r) = 503).
Proof.
  unfold Analyze.POST. split; [|split; [|split]].
  - destruct (negb (isGeminiConfigured w)); [done|].
    destruct (body r) as [[e|t content]|]; [done| |done].
    destruct (analyzePipeline _ _ _ _ _) as [v|] eqn:E; [|done].
    intros _. exists t, content, v. split; [done|]. split; [done|].
    assert (Hf : path [lit "meta"; lit "fingerprint"] v
                 = Some (VStr (SHA256.hex_of_string content))).
    { unfold analyzePipeline, bind in E.
      destruct (getGemini (gemini w)); [|done].
      destruct (generateContent (gemini w) _ _); [|done].
      by apply complete_sets in E as [_ E]. }
    split; [done|]. unfold fingerprintOf. cbn [payload].
    by apply stringified_fingerprint.
  - intros ->. cbn [negb]. split; [done|]. by eexists.
  - intros -> Hb. cbn [negb].
    destruct (body r) as [[e|t content]|]; [done| |done].
    by destruct (Hb t content).
  - destruct (negb (isGeminiConfigured w)); [by right; right|].
    destruct (body r) as [[e|t content]|]; [by right; left| |by right; left].
    destruct (analyzePipeline _ _ _ _ _); [by left|by right; left].
Qed.

End EarlierEndpoint.

Section EarlierEndpointChecks.
Import Pipeline Route.

Lemma earlier_endpoint_fingerprints_raw_content_witness :
  let resp := Analyze.POST [] Scenario.noJson (Scenario.serving [])
                (Scenario.request link (lit "https://example.org/a")) in
  exists t content result,
    body (Scenario.request link (lit "https://example.org/a")) = Returned (Accepted t content)
    /\ payload resp = Result result
    /\ path [lit "meta"; lit "fingerprint"] result
       = Some (VStr (SHA256.hex_of_string content))
    /\ fingerprintOf resp
       = if plainMeta result then Some (VStr (SHA256.hex_of_string content)) else None.
Proof.
  cbv zeta.
  apply (proj1 (earlier_endpoint_fingerprints_raw_content [] Scenario.noJson
                  (Scenario.serving [])
                  (Scenario.request link (lit "https://example.org/a")))).
  by vm_compute.
Defined.

End EarlierEndpointChecks.

Section ReplaceFacts.
Local Open Scope N_scope.

Lemma replaceAll_go_skip pat rep l s :
  JS.replaceAll_go pat rep (length l) (l ++ s) = JS.replaceAll_go pat rep 0 s.
Proof. induction l as [|x l IH]; [done|]. exact IH. Qed.

(** The two steps of [replace(/pat/g, rep)]: a match at the head is
    replaced and passed over, any other code unit is copied. *)
Lemma replaceAll_match pat rep s :
  pat <> [] -> JS.replaceAll pat rep (pat ++ s) = rep ++ JS.replaceAll pat rep s.
Proof.
  intros Hp. unfold JS.replaceAll. destruct pat as [|p pat]; [done|].
  simpl app. cbn [JS.replaceAll_go].
  change (p :: pat ++ s) with ((p :: pat) ++ s). rewrite startsWith_self.
  cbn [length Nat.sub]. rewrite Nat.sub_0_r. by rewrite replaceAll_go_skip.
Qed.

Lemma replaceAll_miss pat rep x s :
  JS.startsWith pat (x :: s) = false ->
  JS.replaceAll pat rep (x :: s) = x :: JS.replaceAll pat rep s.
Proof. intros H. unfold JS.replaceAll. cbn [JS.replaceAll_go]. by rewrite H. Qed.

Lemma replaceAll_go_units pat rep s : forall skip x,
  x ∈ JS.replaceAll_go pat rep skip s -> x ∈ rep \/ x ∈ s.
Proof.
  induction s as [|c s IH]; intros skip x; [intros H; by apply elem_of_nil in H|].
  cbn [JS.replaceAll_go]. destruct skip as [|k].
  - destruct (JS.startsWith pat (c :: s)).
    + rewrite elem_of_app. intros [H|H]; [by left|].
      destruct (IH _ _ H); [by left|right; by right].
    + rewrite elem_of_cons. intros [->|H]; [right; by left|].
      destruct (IH _ _ H); [by left|right; by right].
  - intros H. destruct (IH _ _ H); [by left|right; by right].
Qed.

Lemma replaceAll_Forall (P : N -> Prop) pat rep s :
  Forall P rep -> Forall P s -> Forall P (JS.replaceAll pat rep s).
Proof.
  rewrite !Forall_forall. intros Hr Hs x Hx.
  destruct (replaceAll_go_units _ _ _ _ _ Hx); auto.
Qed.

Section OneUnit.
Variables (pat : list N) (c : N).
Hypothesis pat_nonempty : pat <> [].

(** A text free of [c] that opens the result opened the source. *)
Lemma replaced_startsWith q : forall s,
  c ∉ q -> JS.startsWith q (JS.replaceAll pat [c] s) = true -> JS.startsWith q s = true.
Proof.
  induction q as [|y q IH]; intros s Hc; [done|].
  destruct s as [|x s]; [done|].
  destruct (JS.startsWith pat (x :: s)) eqn:M.
  - destruct (startsWith_split _ _ M) as [s' ->].
    rewrite replaceAll_match by done. simpl app. cbn [JS.startsWith].
    destruct (N.eqb_spec y c) as [->|Hne]; [exfalso; apply Hc; by left|done].
  - rewrite replaceAll_miss by done. cbn [JS.startsWith].
    rewrite !andb_true_iff. intros [Hy H]. split; [done|].
    apply IH; [|done]. intros Hin. apply Hc. by right.
Qed.

Lemma head_differs q s : c ∉ q -> q <> [] -> JS.startsWith q (c :: s) = false.
Proof.
  destruct q as [|y q]; [done|]. intros Hc _. cbn [JS.startsWith].
  destruct (N.eqb_spec y c) as [->|Hne]; [exfalso; apply Hc; by left|done].
Qed.

(** Replacing by one code unit makes no new occurrence of a text free of
    that unit. *)
Lemma replaced_includes q :
  c ∉ q -> q <> [] ->
  forall n s, (length s <= n)%nat ->
    JS.includes q (JS.replaceAll pat [c] s) = true -> JS.includes q s = true.
Proof.
  intros Hc Hq. induction n as [|n IH]; intros s Hn.
  - destruct s; [|simpl in Hn; lia]. by destruct q.
  - destruct s as [|x s]; [by destruct q|].
    destruct (JS.startsWith pat (x :: s)) eqn:M.
    + destruct (startsWith_split _ _ M) as [s' E]. rewrite E.
      rewrite replaceAll_match by done. simpl app. cbn [JS.includes].
      rewrite head_differs by done. cbn [orb]. intros H.
      apply includes_suffix. apply (IH s'); [|by destruct (JS.replaceAll pat [c] s')].
      apply (f_equal length) in E. rewrite length_app in E. simpl in E, Hn.
      destruct pat; [done|]. simpl in E. lia.
    + rewrite replaceAll_miss by done. cbn [JS.includes].
      rewrite orb_true_iff. intros [H|H].
      * rewrite <- (replaceAll_miss pat [c]) in H by done.
        apply replaced_startsWith in H; [|done]. by rewrite H.
      * rewrite (IH s); [apply orb_true_r|simpl in Hn; lia|].
        by destruct (JS.replaceAll pat [c] s).
Qed.

(** ... and leaves no occurrence of the pattern, if the pattern is free of
    it. *)
Lemma replaced_all :
  c ∉ pat ->
  forall n s, (length s <= n)%nat -> JS.includes pat (JS.replaceAll pat [c] s) = false.
Proof.
  intros Hc. induction n as [|n IH]; intros s Hn.
  - destruct s; [|simpl in Hn; lia]. by destruct pat.
  - destruct s as [|x s]; [by destruct pat|].
    destruct (JS.startsWith pat (x :: s)) eqn:M.
    + destruct (startsWith_split _ _ M) as [s' E]. rewrite E.
      rewrite replaceAll_match by done. simpl app. cbn [JS.includes].
      rewrite head_differs by done. cbn [orb].
      assert (Hs' : JS.includes pat (JS.replaceAll pat [c] s') = false).
      { apply IH. apply (f_equal length) in E. rewrite length_app in E. simpl in E, Hn.
        destruct pat; [done|]. simpl in E. lia. }
      by destruct (JS.replaceAll pat [c] s').
    + destruct (JS.includes pat (JS.replaceAll pat [c] (x :: s))) eqn:H; [|done].
      exfalso. rewrite replaceAll_miss in H by done. cbn [JS.includes] in H.
      apply orb_true_iff in H as [H|H].
      * rewrite <- (replaceAll_miss pat [c]) in H by done.
        apply replaced_startsWith in H; [|done]. congruence.
      * assert (Hs : JS.includes pat (JS.replaceAll pat [c] s) = false)
          by (apply IH; simpl in Hn; lia).
        destruct (JS.replaceAll pat [c] s); congruence.
Qed.

End OneUnit.

Lemma replaced_without pat c q s :
  pat <> [] -> c ∉ q -> q <> [] ->
  JS.includes q s = false -> JS.includes q (JS.replaceAll pat [c] s) = false.
Proof.
  intros Hp Hc Hq Hs. destruct (JS.includes q (JS.replaceAll pat [c] s)) eqn:E; [|done].
  apply (replaced_includes pat c Hp q Hc Hq (length s)) in E; [congruence|done].
Qed.

Lemma replaced_gone pat c s :
  pat <> [] -> c ∉ pat -> JS.includes pat (JS.replaceAll pat [c] s) = false.
Proof. intros Hp Hc. by apply (replaced_all pat c Hp Hc (length s)). Qed.

End ReplaceFacts.

Section CleanedFacts.
Import YouTube.
Local Open Scope N_scope.

Ltac absent := let H := fresh in
  intros H; apply list_elem_of_In in H; vm_compute in H; intuition discriminate.

(** X30.  The cleaned transcript.  Its only white space is single spaces
    between other code units, with none leading or trailing, and it holds no
    [&lt;], [&gt;], [&#39;] or [&quot;]: every occurrence has been decoded.
    ([&amp;] is decoded first, so an [&amp;] that was written [&amp;amp;]
    stays in the text.) *)
Theorem cleaned_transcript text :
  let t := clean text in
  Forall (fun c => JS.isWhiteSpace c = true -> c = 32) t
  /\ JS.includes [32; 32] t = false
  /\ JS.trim t = t
  /\ Forall (fun entity => JS.includes entity t = false)
       [lit "&lt;"; lit "&gt;"; lit "&#39;"; lit "&quot;"].
Proof.
  cbv zeta. unfold clean, JS.collapseWhiteSpace.
  change (lit "&") with [38]. change (lit "<") with [60]. change (lit ">") with [62].
  change (lit "'") with [39]. change quote with [34].
  set (s0 := JS.collapse_go false text).
  set (s1 := JS.replaceAll (lit "&amp;") [38] s0).
  set (s2 := JS.replaceAll (lit "&lt;") [60] s1).
  set (s3 := JS.replaceAll (lit "&gt;") [62] s2).
  set (s4 := JS.replaceAll (lit "&#39;") [39] s3).
  set (s5 := JS.replaceAll (lit "&quot;") [34] s4).
  split; [|split; [|split]].
  - apply trim_Forall.
    repeat (apply replaceAll_Forall; [by repeat constructor|]).
    apply collapse_spaces.
  - apply includes_trim_false.
    repeat (apply replaced_without; [distinct|absent|done|]).
    apply collapse_no_double.
  - apply trim_idempotent.
  - repeat constructor; apply includes_trim_false.
    + do 3 (apply replaced_without; [distinct|absent|distinct|]).
      apply replaced_gone; [distinct|absent].
    + do 2 (apply replaced_without; [distinct|absent|distinct|]).
      apply replaced_gone; [distinct|absent].
    + apply replaced_without; [distinct|absent|distinct|].
      apply replaced_gone; [distinct|absent].
    + apply replaced_gone; [distinct|absent].
Qed.

End CleanedFacts.
